(** * ConvAI-Analyzer: the worker's query engine, the request scheduler and
      the map-reduce summariser, embedded and verified.

    The development follows the TypeScript sources:
    - [Worker]     : the web worker of [constants.ts] (ingestion step,
                     [applyFilters], [calculateSummary], the page and
                     analysis requests);
    - [Scheduler]  : the [RequestQueue] class of the Gemini service;
    - [Summarizer] : [generateSummary] of the transcript-analysis component;
    - [Sidebar]    : the filter handlers of [FilterSidebar] in [App.tsx];
    - [SerialQueue]: the serial [RequestQueue] bundled with the application;
    - [Dashboard]  : the pagination bar of the dashboard.

    Modelling conventions.  Strings are sequences of characters below
    U+0100, one code unit each; [toLowerCase] and [trim] act on the letters
    and the white space of that range.  Numbers that the code keeps integral (row ids, counters,
    millisecond timestamps) are [nat] or [Z]; the two quotients the code
    forms (average concurrency, the dispatch interval) are exact rationals.
    JavaScript objects used as dictionaries are finite maps of their own
    properties.  The worker's dictionaries are plain objects, which inherit
    the members of [Object.prototype]: where the code meets such a name as a
    value of a field it throws, and the model with it; where it reads or
    writes such a member in place of a field or of a table of its own, it
    works on a built-in object, which the model does not follow and marks
    ([beyond], or no result). *)

From Stdlib Require Import ZArith QArith Qminmax Qround String Ascii List Lia Bool.
From Stdlib Require Import DecimalString Permutation Lqa.
From stdpp Require Import gmap strings list fin_maps.
Import ListNotations.

Local Open Scope string_scope.
Local Open Scope Z_scope.

(** ** JavaScript string primitives used by the sources *)

Module JsString.

(** The lower-case form of a character: the capital letters below 256 are
    [A] to [Z] and U+00C0 to U+00DE without the multiplication sign U+00D7,
    each 32 below its small letter. *)
Definition lowerChar (c : ascii) : ascii :=
  let n := nat_of_ascii c in
  if (((65 <=? n) && (n <=? 90))
      || ((192 <=? n) && (n <=? 222) && negb (n =? 215)))%nat
  then ascii_of_nat (n + 32) else c.

(** [s.toLowerCase()] *)
Fixpoint toLowerCase (s : string) : string :=
  match s with
  | EmptyString => EmptyString
  | String c s' => String (lowerChar c) (toLowerCase s')
  end.

(** White space and line terminators below 256 (tab, LF, VT, FF, CR,
    space, no-break space). *)
Definition isSpace (c : ascii) : bool :=
  let n := nat_of_ascii c in
  (((9 <=? n) && (n <=? 13)) || (n =? 32) || (n =? 160))%nat.

Fixpoint trimStart (s : string) : string :=
  match s with
  | EmptyString => EmptyString
  | String c s' => if isSpace c then trimStart s' else s
  end.

(** Drops the trailing white space: a character is kept when it is not a
    space or when something is kept after it. *)
Fixpoint trimEnd (s : string) : string :=
  match s with
  | EmptyString => EmptyString
  | String c s' =>
      match trimEnd s' with
      | EmptyString => if isSpace c then EmptyString else String c EmptyString
      | t => String c t
      end
  end.

(** [s.trim()] *)
Definition trim (s : string) : string := trimEnd (trimStart s).

Fixpoint revOnto (acc s : string) : string :=
  match s with
  | EmptyString => acc
  | String c s' => revOnto (String c acc) s'
  end.

(** The scan of [s.split(sep)] for a non-empty separator: [skip] counts the
    separator characters still to be jumped over, [cur] holds the current
    piece in reverse. *)
Fixpoint splitGo (sep : string) (skip : nat) (cur s : string) : list string :=
  match s with
  | EmptyString => [revOnto EmptyString cur]
  | String c s' =>
      match skip with
      | S k => splitGo sep k cur s'
      | O =>
          if String.prefix sep s
          then revOnto EmptyString cur :: splitGo sep (String.length sep - 1) EmptyString s'
          else splitGo sep 0 (String c cur) s'
      end
  end.

(** [s.split(sep)], [sep] non-empty. *)
Definition split (sep s : string) : list string := splitGo sep 0 EmptyString s.

(** [s.includes(needle)] *)
Fixpoint includes (needle s : string) : bool :=
  String.prefix needle s ||
  match s with
  | EmptyString => false
  | String _ s' => includes needle s'
  end.

(** [parts.join(sep)] *)
Fixpoint join (sep : string) (parts : list string) : string :=
  match parts with
  | [] => EmptyString
  | [p] => p
  | p :: rest => p ++ sep ++ join sep rest
  end.

(** [n.toString()] for a non-negative integer. *)
Definition ofNat (n : nat) : string := NilEmpty.string_of_uint (Nat.to_uint n).

(** Truthiness of a possibly missing string. *)
Definition truthy (o : option string) : bool :=
  match o with
  | Some (String _ _) => true
  | _ => false
  end.

(** The line feed, the escape [\n] of the sources. *)
Definition nl : string := String (ascii_of_nat 10) EmptyString.

Definition fence : string := "```".

(** [text.replace(/```json|```/g, '')]: a left-to-right scan that drops
    every fence, the long alternative first; [skip] counts the characters
    of a fence still to be dropped. *)
Fixpoint removeFencesGo (skip : nat) (s : string) : string :=
  match s with
  | EmptyString => EmptyString
  | String c s' =>
      match skip with
      | S k => removeFencesGo k s'
      | O =>
          if String.prefix (fence ++ "json") s then removeFencesGo 6 s'
          else if String.prefix fence s then removeFencesGo 2 s'
          else String c (removeFencesGo 0 s')
      end
  end.

Definition removeFences (s : string) : string := removeFencesGo 0 s.

(** [s.indexOf(c)] for a single character; [None] is [-1]. *)
Fixpoint indexOf (c : ascii) (s : string) : option nat :=
  match s with
  | EmptyString => None
  | String d s' => if Ascii.eqb c d then Some O else S <$> indexOf c s'
  end.

(** [s.lastIndexOf(c)] *)
Fixpoint lastIndexOf (c : ascii) (s : string) : option nat :=
  match s with
  | EmptyString => None
  | String d s' =>
      match lastIndexOf c s' with
      | Some k => Some (S k)
      | None => if Ascii.eqb c d then Some O else None
      end
  end.

(** [s.substring(a, b)]: the arguments are swapped when [a > b]. *)
Definition substring (a b : nat) (s : string) : string :=
  String.substring (Nat.min a b) (Nat.max a b - Nat.min a b) s.

(** [text.replace(pattern, replacement)] for a string pattern and a
    replacement without [$]: the first occurrence is replaced. *)
Fixpoint replaceFirst (text pattern replacement : string) : string :=
  if String.prefix pattern text
  then replacement ++ String.substring (String.length pattern)
                        (String.length text - String.length pattern) text
  else
    match text with
    | EmptyString => EmptyString
    | String c rest => String c (replaceFirst rest pattern replacement)
    end.

End JsString.

(** ** The worker: record store, filter engine, sweep-line summary *)

Module Worker.

Import JsString.

(** *** [parseDate] *)

Definition isDigit (c : ascii) : bool :=
  let n := nat_of_ascii c in ((48 <=? n) && (n <=? 57))%nat.

Definition digitVal (c : ascii) : Z := Z.of_nat (nat_of_ascii c) - 48.

(** Reads exactly [n] decimal digits. *)
Fixpoint digits (n : nat) (acc : Z) (s : string) : option (Z * string) :=
  match n with
  | O => Some (acc, s)
  | S k =>
      match s with
      | String c s' => if isDigit c then digits k (10 * acc + digitVal c) s' else None
      | EmptyString => None
      end
  end.

Definition expect (p : ascii -> bool) (s : string) : option string :=
  match s with
  | String c s' => if p c then Some s' else None
  | EmptyString => None
  end.

Definition isDash (c : ascii) : bool := (nat_of_ascii c =? 45)%nat.
Definition isColon (c : ascii) : bool := (nat_of_ascii c =? 58)%nat.
Definition isTOrSpace (c : ascii) : bool :=
  let n := nat_of_ascii c in ((n =? 84) || (n =? 32))%nat.

(** The regular expression [(\d{4})-(\d{2})-(\d{2})[T ](\d{2}):(\d{2})]
    tried at the head of [s]; the five groups as numbers. *)
Definition matchHere (s : string) : option (Z * Z * Z * Z * Z) :=
  '(y, s) ← digits 4 0 s;
  s ← expect isDash s;
  '(mo, s) ← digits 2 0 s;
  s ← expect isDash s;
  '(d, s) ← digits 2 0 s;
  s ← expect isTOrSpace s;
  '(h, s) ← digits 2 0 s;
  s ← expect isColon s;
  '(mi, _) ← digits 2 0 s;
  Some (y, mo, d, h, mi).

(** [String.prototype.match] without the global flag: leftmost match. *)
Fixpoint matchFirst (s : string) : option (Z * Z * Z * Z * Z) :=
  match matchHere s with
  | Some g => Some g
  | None =>
      match s with
      | EmptyString => None
      | String _ s' => matchFirst s'
      end
  end.

(** Day number of the first of month [m] (0-based, already in 0..11) of
    year [y] in the proleptic Gregorian calendar, days since 1970-01-01. *)
Definition dayFromYearMonth (y m : Z) : Z :=
  let y' := if m <? 2 then y - 1 else y in
  let era := y' / 400 in
  let yoe := y' - era * 400 in
  let mp := if m <? 2 then m + 10 else m - 2 in
  let doy := (153 * mp + 2) / 5 in
  era * 146097 + (yoe * 365 + yoe / 4 - yoe / 100 + doy) - 719468.

(** [Date.UTC(year, month, day, hours, minutes)] in milliseconds: years
    0..99 mean 1900..1999, an out-of-range month carries into the year, and
    day, hour and minute overflow additively. *)
Definition dateUTC (year month day hours minutes : Z) : Z :=
  let yr := if (0 <=? year) && (year <=? 99) then 1900 + year else year in
  let ym := yr + month / 12 in
  let mn := month mod 12 in
  (dayFromYearMonth ym mn + day - 1) * 86400000 + hours * 3600000 + minutes * 60000.

(** [parseDate(dateString)]: the time value in milliseconds, [None] for
    [null].  The time value of a match is always finite. *)
Definition parseDate (dateString : option string) : option Z :=
  if negb (truthy dateString) then None
  else
    match matchFirst (default EmptyString dateString) with
    | None => None
    | Some (y, mo, d, h, mi) => Some (dateUTC y (mo - 1) d h mi)
    end.

(** *** The record store *)

(** A processed row: normalised field name to value; the inner [None] is
    JavaScript's [null] (a custom metric without a value). *)
Abbreviation Row := (gmap string (option string)).

(** [filterIndexes]: field name, then observed value, then row ids. *)
Abbreviation Index := (gmap string (gmap string (list nat))).

(** The worker's module-level state.  [aggregators.totalHandleTimeSeconds]
    and [validHandleTimeCount] are written by the ingestion step only and
    read by no function below; they are left out.  Two marks are added to
    the variables of the code: [thrown], once a call of [step] has thrown,
    which ends the parse (no further record is read and [complete] is not
    called); and [beyond], once a turn of the indexing loop has worked on
    an inherited member, from where on the state of the code is not
    followed. *)
Record Store := mkStore {
  rawDataStore : list Row;
  filterIndexes : Index;
  totalContained : nat;
  totalRows : nat;
  headers : list string;
  customMetricKeys : list string;
  rowIndex : nat;
  thrown : bool;
  beyond : bool
}.

Definition standardHeaders : list string :=
  ["conversation id"; "domain"; "created"; "ended"; "finished"; "status";
   "channel"; "primary agent email"; "primary agent handle time";
   "primary agent answer speed"; "pickup sla violation"; "escalated";
   "escalation queue"; "escalation reason"; "abandoned"; "amelia handled";
   "amelia abandoned"; "agent handled"; "agent abandoned";
   "escalate abandoned"; "total handle time"; "executed bpns"; "user name";
   "user email"; "user external uid"; "disconnect wait time";
   "after conversation time"; "after conversation violation";
   "resolution codes"; "custom metrics"; "transcript"].

(** [set.has(x)] on strings *)
Definition has (l : list string) (x : string) : bool := existsb (String.eqb x) l.

(** [set.add(x)]: insertion order is kept, a present element is not moved. *)
Definition setAdd (l : list string) (x : string) : list string :=
  if has l x then l else (l ++ [x])%list.

(** [[...new Set(l)]]: first occurrences, in order. *)
Definition dedup (l : list string) : list string := fold_left setAdd l [].

(** The members that every plain object inherits from [Object.prototype].
    [processedRow], [filterIndexes] and its inner tables are plain objects:
    reading one of these names where it is not an own property finds the
    inherited member, a function or, for [__proto__], an object, all of
    them truthy. *)
Definition protoMembers : list string :=
  ["constructor"; "__defineGetter__"; "__defineSetter__"; "hasOwnProperty";
   "__lookupGetter__"; "__lookupSetter__"; "isPrototypeOf";
   "propertyIsEnumerable"; "toString"; "valueOf"; "__proto__"; "toLocaleString"].

Definition inherited (name : string) : bool := has protoMembers name.

(** [row[k] ?? undefined] flattened, for a name [k] that is not an inherited
    member: the string stored under [k], if any. *)
Definition getField (row : Row) (k : string) : option string :=
  match row !! k with
  | Some (Some v) => Some v
  | _ => None
  end.

(** [processedRow[name] = value]: a new own property, except under
    [__proto__], where the assignment goes to the inherited setter: a string
    is ignored by it, and [null] takes the prototype of the row away, which
    is not followed here (the turn of the indexing loop for that key is
    marked, see [meetsMember]). *)
Definition setField (processedRow : Row) (name : string) (value : option string) : Row :=
  if String.eqb name "__proto__" then processedRow else <[name := value]> processedRow.

(** [for (const key in row) processedRow[key.trim().toLowerCase()] = row[key]] *)
Definition normalizeRow (row : list (string * string)) : Row :=
  fold_left (fun acc kv => setField acc (toLowerCase (trim (fst kv))) (Some (snd kv))) row ∅.

(** The field name a custom metric key is stored under, and the key added
    to [customMetricKeys]: a key that collides with a standard header gets
    the suffix [_Custom]. *)
Definition customKey (key : string) : string * string :=
  let trimmedKey := trim key in
  let lowerTrimmedKey := toLowerCase trimmedKey in
  if has standardHeaders lowerTrimmedKey
  then (toLowerCase (trimmedKey ++ "_Custom"), trimmedKey ++ "_Custom")
  else (lowerTrimmedKey, trimmedKey).

(** The body of [customMetricsRaw.split('||').forEach(metric => ...)]. *)
Definition expandMetric (acc : Row * list string) (metric : string) : Row * list string :=
  let parts := split "=" metric in
  let key := parts !! 0%nat in
  let value := parts !! 1%nat in
  if truthy key then
    let '(lowerTrimmedKey, trimmedKey) := customKey (default EmptyString key) in
    (setField (fst acc) lowerTrimmedKey (if truthy value then trim <$> value else None),
     setAdd (snd acc) trimmedKey)
  else acc.

(** The custom-metrics expansion of one processed row. *)
Definition expandCustomMetrics (processedRow : Row) (keys : list string) : Row * list string :=
  let customMetricsRaw := getField processedRow "custom metrics" in
  if truthy customMetricsRaw
  then fold_left expandMetric (split "||" (default EmptyString customMetricsRaw)) (processedRow, keys)
  else (processedRow, keys).

(** The body of the indexing loop for a field of an ordinary name whose
    value is no inherited member: the two tables are created where they are
    missing and the row id is pushed. *)
Definition filed (processedRow : Row) (rowId : nat) (idx : Index) (header : string) : Index :=
  let cleanHeader := trim header in
  let lowerHeader := toLowerCase cleanHeader in
  match getField processedRow lowerHeader with
  | Some (String c v) =>
      let value := String c v in
      let byValue := default ∅ (idx !! cleanHeader) in
      <[cleanHeader := <[value := (default [] (byValue !! value) ++ [rowId])%list]> byValue]> idx
  | _ => idx
  end.

(** Whether [filterIndexes[cleanHeader][value].push] throws: the value is
    not yet in the table of the field and names an inherited member, so the
    test [!filterIndexes[cleanHeader][value]] finds that member, no list is
    put in its place, and the member has no [push]. *)
Definition pushThrows (processedRow : Row) (idx : Index) (header : string) : bool :=
  let cleanHeader := trim header in
  match getField processedRow (toLowerCase cleanHeader) with
  | Some (String c v) =>
      match default ∅ (idx !! cleanHeader) !! String c v with
      | Some _ => false
      | None => inherited (String c v)
      end
  | _ => false
  end.

(** Whether the turn of the indexing loop for [header] works on an
    inherited member in place of the worker's own data: the row does not
    own the field and its name, in lower case, is that of a member, which
    [processedRow[lowerHeader]] then finds; or the field holds a non-empty
    string and the name of the field is that of a member, which
    [filterIndexes[cleanHeader]] then finds in place of a table. *)
Definition meetsMember (processedRow : Row) (header : string) : bool :=
  let cleanHeader := trim header in
  let lowerHeader := toLowerCase cleanHeader in
  match processedRow !! lowerHeader with
  | None => inherited lowerHeader
  | Some (Some (String _ _)) => inherited cleanHeader
  | Some _ => false
  end.

(** The indexing loop on its way: the index, whether a turn has thrown
    (the loop is left there), and whether a turn has met an inherited
    member. *)
Record Indexing := mkIndexing { index : Index; threw : bool; outside : bool }.

(** One turn of the indexing loop [for (const header of allKeysForIndexing)].
    When the push throws, the table of the field has been created and the
    row is not filed.  A turn that meets an inherited member works on a
    built-in object; it is not followed: the index is left as it is and the
    turn marked. *)
Definition indexField (processedRow : Row) (rowId : nat) (acc : Indexing) (header : string)
  : Indexing :=
  if threw acc then acc
  else if meetsMember processedRow header then mkIndexing (index acc) false true
  else if pushThrows processedRow (index acc) header
  then mkIndexing (<[trim header := default ∅ (index acc !! trim header)]> (index acc))
         true (outside acc)
  else mkIndexing (filed processedRow rowId (index acc) header) false (outside acc).

(** The [step] callback of the parser, on one raw record (column name and
    value, in column order).  The row is stored and counted before the
    indexing loop; [rowIndex] is incremented after it, and so is not when
    the loop throws. *)
Definition step (st : Store) (row : list (string * string)) : Store :=
  if thrown st then st
  else
    let '(processedRow, keys) := expandCustomMetrics (normalizeRow row) (customMetricKeys st) in
    let allKeysForIndexing := dedup (headers st ++ keys)%list in
    let indexing :=
      fold_left (indexField processedRow (rowIndex st)) allKeysForIndexing
        (mkIndexing (filterIndexes st) false false) in
    {| rawDataStore := (rawDataStore st ++ [processedRow])%list;
       filterIndexes := index indexing;
       totalContained :=
         (if bool_decide (getField processedRow "amelia handled" = Some "true")
          then S (totalContained st) else totalContained st);
       totalRows := S (totalRows st);
       headers := headers st;
       customMetricKeys := keys;
       rowIndex := if threw indexing then rowIndex st else S (rowIndex st);
       thrown := threw indexing;
       beyond := beyond st || outside indexing |}.

(** The state before the first record, once the header line is read. *)
Definition emptyStore (hs : list string) : Store :=
  {| rawDataStore := []; filterIndexes := ∅; totalContained := 0; totalRows := 0;
     headers := hs; customMetricKeys := []; rowIndex := 0;
     thrown := false; beyond := false |}.

(** The state after the records of the file were handed to [step] one
    after the other. *)
Definition ingest (hs : list string) (rows : list (list (string * string))) : Store :=
  fold_left step rows (emptyStore hs).

(** A dataset that loads: no call of [step] has thrown, so that [complete]
    is reached, and no turn of the indexing loop has met an inherited
    member. *)
Definition plain (st : Store) : bool := negb (thrown st) && negb (beyond st).

(** The classification made by the [complete] callback. *)
Inductive FieldKind := Discrete | FreeText | Excluded.

Definition classify (header : string) (byValue : gmap string (list nat)) : FieldKind :=
  if String.eqb (toLowerCase header) "transcript" then FreeText
  else
    let n := size byValue in
    if ((0 <? n) && (n <=? 200))%nat then Discrete
    else if (200 <? n)%nat then FreeText
    else Excluded.

Definition fieldKind (st : Store) (header : string) : option FieldKind :=
  classify header <$> filterIndexes st !! header.

(** *** [applyFilters] *)

(** The values a filter entry can hold (interface [FilterState]): a date
    range, a list of accepted values, a search string, or [undefined]. *)
Inductive FilterValue :=
| FRange (start finish : option string)
| FList (accepted : list string)
| FText (needle : string)
| FUndefined.

(** A filter object, its entries in enumeration order. *)
Abbreviation Filters := (list (string * FilterValue)).

(** [newMatchingIndexes.has(i)] *)
Definition hasId (l : list nat) (i : nat) : bool := existsb (Nat.eqb i) l.

(** [matchingRowIndexes.forEach(index => { if (keep(rawDataStore[index]))
    newMatchingIndexes.add(index) })]; reading a field of a row that does
    not exist throws a [TypeError], here [None]. *)
Fixpoint scanRows (store : list Row) (keep : Row -> bool) (matching : list nat)
  : option (list nat) :=
  match matching with
  | [] => Some []
  | index :: rest =>
      row ← store !! index;
      found ← scanRows store keep rest;
      Some (if keep row then index :: found else found)
  end.

(** [filterIndexes[key]?.[val] || []], then [indexedRows.forEach]: the
    list filed under the value; nothing for a value that was not met or a
    field without a table.  [None] where the call does not return these
    rows: a value that was not met and names an inherited member is found
    as that member, which has no [forEach] ([TypeError]); and a field
    without a table whose name is an inherited member is read from a
    built-in object, which is not followed here. *)
Definition indexedRows (idx : Index) (key val : string) : option (list nat) :=
  match idx !! key with
  | Some byValue =>
      match byValue !! val with
      | Some rows => Some rows
      | None => if inherited val then None else Some []
      end
  | None => if inherited key then None else Some []
  end.

(** [filterValue.forEach(val => ...)]: the union of the indexed row-id
    lists of the accepted values. *)
Fixpoint lookupValues (idx : Index) (key : string) (accepted : list string)
  : option (list nat) :=
  match accepted with
  | [] => Some []
  | val :: rest =>
      rows ← indexedRows idx key val;
      more ← lookupValues idx key rest;
      Some (rows ++ more)%list
  end.

Section ApplyFilters.

(** [new Date(text).getTime()], [None] for an invalid date: the date
    parser of the JavaScript engine. *)
Variable dateParse : string -> option Z.

(** A bound of the date range: [None] when the bound is absent,
    [Some None] when it is present and not a date. *)
Definition dateBound (o : option string) (suffix : string) : option (option Z) :=
  if truthy o then Some (dateParse (default EmptyString o ++ suffix)) else None.

(** The test of one row against the two bounds; a comparison with an
    invalid date is false, so such a bound excludes nothing. *)
Definition inRange (startDate endDate : option (option Z)) (row : Row) : bool :=
  match parseDate (getField row "created") with
  | None => false
  | Some rowDate =>
      let tooEarly := match startDate with Some (Some s) => rowDate <? s | _ => false end in
      let tooLate := match endDate with Some (Some e) => e <? rowDate | _ => false end in
      negb tooEarly && negb tooLate
  end.

(** The loop [for (const key in filters)], on the current candidates.  A
    search under a key whose lower case is an inherited member reads that
    member from the rows without the field; this is not followed here and
    gives no result. *)
Fixpoint filterLoop (st : Store) (filters : Filters) (matchingRowIndexes : list nat)
  : option (list nat) :=
  match filters with
  | [] => Some matchingRowIndexes
  | (key, filterValue) :: rest =>
      match matchingRowIndexes with
      | [] => Some []
      | _ =>
          let intersect (newMatchingIndexes : list nat) :=
            filterLoop st rest (List.filter (hasId newMatchingIndexes) matchingRowIndexes) in
          if String.eqb key "dateRange" then
            match filterValue with
            | FUndefined => None
            | FRange start finish =>
                let startDate := dateBound start "T00:00:00Z" in
                let endDate := dateBound finish "T23:59:59Z" in
                match startDate, endDate with
                | None, None => filterLoop st rest matchingRowIndexes
                | _, _ =>
                    scanRows (rawDataStore st) (inRange startDate endDate) matchingRowIndexes
                      ≫= intersect
                end
            | FList _ | FText _ => filterLoop st rest matchingRowIndexes
            end
          else
            match filterValue with
            | FList (val :: vals) =>
                lookupValues (filterIndexes st) key (val :: vals) ≫= intersect
            | FText (String c needle) =>
                let lowerCaseFilter := toLowerCase (String c needle) in
                if inherited (toLowerCase key) then None
                else
                  scanRows (rawDataStore st)
                    (fun row =>
                       includes lowerCaseFilter
                         (toLowerCase (default EmptyString (getField row (toLowerCase key)))))
                    matchingRowIndexes
                    ≫= intersect
            | _ => intersect []
            end
      end
  end.

(** [applyFilters(filters)]: the matching row ids, [None] when the call
    throws (or reads a built-in object, see [indexedRows] and
    [filterLoop]). *)
Definition applyFilters (st : Store) (filters : Filters) : option (list nat) :=
  filterLoop st filters (seq 0 (totalRows st)).

(** A filter object whose [dateRange] entry, if any, is not [undefined]. *)
Definition definedRange (filters : Filters) : bool :=
  forallb (fun kv => match kv with
                     | (key, FUndefined) => negb (String.eqb key "dateRange")
                     | _ => true
                     end) filters.

(** An entry made of ordinary names: its key is no inherited member (for a
    search, in lower case) and no accepted value is one. *)
Definition plainEntry (kv : string * FilterValue) : bool :=
  if String.eqb (fst kv) "dateRange" then true
  else
    match snd kv with
    | FList (val :: vals) =>
        negb (inherited (fst kv)) && forallb (fun v => negb (inherited v)) (val :: vals)
    | FText (String _ _) => negb (inherited (toLowerCase (fst kv)))
    | _ => true
    end.

(** A filter object on which [applyFilters] returns: the date range is
    defined and the entries are made of ordinary names. *)
Definition plainFilters (filters : Filters) : bool :=
  definedRange filters && forallb plainEntry filters.

End ApplyFilters.

(** *** [calculateSummary] *)

Inductive EventType := StartEvent | EndEvent.

Record Event := mkEvent { time : Z; type : EventType }.

(** What the first loop of [calculateSummary] accumulates.  [None] in
    [firstEventTime] is [Infinity], in [lastEventTime] it is [-Infinity]. *)
Record Collected := mkCollected {
  events : list Event;
  totalHandleTimeMinutes : Q;
  firstEventTime : option Z;
  lastEventTime : option Z
}.

Definition noEvents : Collected :=
  {| events := []; totalHandleTimeMinutes := 0%Q;
     firstEventTime := None; lastEventTime := None |}.

(** The body of [rowIndexes.forEach(index => ...)] once the row is read. *)
Definition collectRow (acc : Collected) (row : Row) : Collected :=
  match parseDate (getField row "created"), parseDate (getField row "finished") with
  | Some startTime, Some endTime =>
      {| events := (events acc ++ [mkEvent startTime StartEvent; mkEvent endTime EndEvent])%list;
         totalHandleTimeMinutes :=
           (totalHandleTimeMinutes acc + inject_Z (endTime - startTime) / inject_Z (1000 * 60))%Q;
         firstEventTime :=
           match firstEventTime acc with
           | Some f => if startTime <? f then Some startTime else Some f
           | None => Some startTime
           end;
         lastEventTime :=
           match lastEventTime acc with
           | Some l => if l <? endTime then Some endTime else Some l
           | None => Some endTime
           end |}
  | _, _ => acc
  end.

(** The whole [forEach]; [None] when a row id has no row ([TypeError]). *)
Fixpoint collect (store : list Row) (rowIndexes : list nat) (acc : Collected)
  : option Collected :=
  match rowIndexes with
  | [] => Some acc
  | index :: rest =>
      row ← store !! index;
      collect store rest (collectRow acc row)
  end.

(** [events.sort((a, b) => a.time - b.time)].  The sort is stable, so its
    result is the one ordering by time that keeps events of equal time in
    their order of emission; insertion from the right computes it. *)
Fixpoint insertEvent (e : Event) (l : list Event) : list Event :=
  match l with
  | [] => [e]
  | y :: l' => if time e <=? time y then e :: y :: l' else y :: insertEvent e l'
  end.

Definition sortEvents (l : list Event) : list Event := fold_right insertEvent [] l.

(** One turn of [for (const event of events)] on
    [(maxConcurrency, currentConcurrency)]. *)
Definition sweepStep (mc : Z * Z) (event : Event) : Z * Z :=
  let '(maxConcurrency, currentConcurrency) := mc in
  match type event with
  | StartEvent =>
      let current := currentConcurrency + 1 in
      (if maxConcurrency <? current then current else maxConcurrency, current)
  | EndEvent => (maxConcurrency, currentConcurrency - 1)
  end.

Definition sweep (evs : list Event) : Z * Z := fold_left sweepStep evs (0, 0).

(** The summary object; [timeRange] keeps the two instants that the code
    renders with [toLocaleDateString], [None] is ['N/A']. *)
Record Summary := mkSummary {
  peakConcurrency : Z;
  avgConcurrency : Q;
  timeRange : option (Z * Z)
}.

Definition emptySummary : Summary :=
  {| peakConcurrency := 0; avgConcurrency := 0%Q; timeRange := None |}.

(** [totalHandleTimeMinutes / totalDurationMinutes] under its guard
    [totalDurationMinutes > 0].  Both operands are whole numbers of
    minutes, because [parseDate] has minute resolution; the quotient is
    kept exact. *)
Definition averageOf (c : Collected) : Q :=
  match firstEventTime c, lastEventTime c with
  | Some f, Some l =>
      let totalDurationMinutes := (inject_Z (l - f) / inject_Z (1000 * 60))%Q in
      if Qle_bool totalDurationMinutes 0
      then 0%Q
      else (totalHandleTimeMinutes c / totalDurationMinutes)%Q
  | _, _ => 0%Q
  end.

Definition summarise (c : Collected) : Summary :=
  match events c with
  | [] => emptySummary
  | _ =>
      {| peakConcurrency := fst (sweep (sortEvents (events c)));
         avgConcurrency := averageOf c;
         timeRange :=
           match firstEventTime c, lastEventTime c with
           | Some f, Some l => Some (f, l)
           | _, _ => None
           end |}
  end.

(** [calculateSummary(rowIndexes)] *)
Definition calculateSummary (st : Store) (rowIndexes : list nat) : option Summary :=
  match rowIndexes with
  | [] => Some emptySummary
  | _ => summarise <$> collect (rawDataStore st) rowIndexes noEvents
  end.

(** *** The specification's sweep-line average *)

(** The spec's order of events: by time, and at one instant starts before
    ends. *)
Definition specLeb (a b : Event) : bool :=
  (time a <? time b) ||
  ((time a =? time b) &&
   match type a, type b with
   | EndEvent, StartEvent => false
   | _, _ => true
   end).

Fixpoint specInsert (e : Event) (l : list Event) : list Event :=
  match l with
  | [] => [e]
  | y :: l' => if specLeb e y then e :: y :: l' else y :: specInsert e l'
  end.

Definition specSort (l : list Event) : list Event := fold_right specInsert [] l.

Definition applyEvent (counter : Z) (e : Event) : Z :=
  match type e with
  | StartEvent => counter + 1
  | EndEvent => counter - 1
  end.

(** The spec's accumulation of [counterValue * durationToNextEvent] over
    consecutive event pairs, the counter being the one after the first
    event of the pair. *)
Fixpoint weightedSum (counter : Z) (evs : list Event) : Z :=
  match evs with
  | e :: rest =>
      match rest with
      | next :: _ =>
          applyEvent counter e * (time next - time e)
          + weightedSum (applyEvent counter e) rest
      | [] => 0
      end
  | [] => 0
  end.

(** The two instants of a record, when both its timestamps are valid. *)
Definition spanOf (row : Row) : option (Z * Z) :=
  match parseDate (getField row "created"), parseDate (getField row "finished") with
  | Some startTime, Some endTime => Some (startTime, endTime)
  | _, _ => None
  end.

(** The included records of a row-id set: the spans of the rows that have
    both instants, in the order of the ids. *)
Definition spansOf (store : list Row) (rowIndexes : list nat) : list (Z * Z) :=
  omap (fun index => store !! index ≫= spanOf) rowIndexes.

(** The two timed events of an included record. *)
Definition pairEvents (p : Z * Z) : list Event :=
  [mkEvent (fst p) StartEvent; mkEvent (snd p) EndEvent].

Definition eventsOf (pairs : list (Z * Z)) : list Event := flat_map pairEvents pairs.

Definition minimum (l : list Z) : option Z :=
  match l with
  | [] => None
  | x :: rest => Some (fold_right Z.min x rest)
  end.

Definition maximum (l : list Z) : option Z :=
  match l with
  | [] => None
  | x :: rest => Some (fold_right Z.max x rest)
  end.

(** The covered time range [[earliest start, latest end]] among the
    included records. *)
Definition earliestStart (spans : list (Z * Z)) : option Z := minimum (fst <$> spans).

Definition latestEnd (spans : list (Z * Z)) : option Z := maximum (snd <$> spans).

(** The spec's time-weighted average of a row-id set: the sum accumulated
    over the events of the included records, in the spec's order, divided
    by the total covered duration, from the earliest start to the latest
    end of these records. *)
Definition specAvgConcurrency (store : list Row) (rowIndexes : list nat) : Q :=
  let spans := spansOf store rowIndexes in
  match earliestStart spans, latestEnd spans with
  | Some earliest, Some latest =>
      (inject_Z (weightedSum 0 (specSort (eventsOf spans))) / inject_Z (latest - earliest))%Q
  | _, _ => 0%Q
  end.

(** *** Vocabulary of the properties, and concrete inputs *)

(** Every row id of [ids] has a row in [store]. *)
Definition inStore (store : list Row) (ids : list nat) : Prop :=
  Forall (fun i => (i < length store)%nat) ids.


(** The row ids indexed under value [v] of field [h]. *)
Definition indexed (idx : Index) (h v : string) : list nat :=
  default [] (idx !! h ≫= (fun byValue => byValue !! v)).

(** Two records with a status column. *)
Definition statusData : Store :=
  ingest ["Status"] [[("Status", "open")]; [("Status", "closed")]].

Definition noDates (text : string) : option Z := None.

(** The record of the spec's example, as the parser hands it over. *)
Definition regionTierRecord : list (string * string) :=
  [("Conversation ID", "c1"); ("Custom Metrics", "Region=US||Tier=Gold")].

(** The same record with a conversation id that names a member every
    object inherits. *)
Definition constructorRecord : list (string * string) :=
  [("Conversation ID", "constructor"); ("Custom Metrics", "Region=US||Tier=Gold")].

Definition delta (e : Event) : Z :=
  match type e with
  | StartEvent => 1
  | EndEvent => -1
  end.

(** The number of starts minus the number of ends. *)
Definition balance (l : list Event) : Z := fold_right (fun e acc => delta e + acc) 0 l.

(** The signed sum of the instants. *)
Definition moment (l : list Event) : Z := fold_right (fun e acc => delta e * time e + acc) 0 l.

(** The instant of the last event of [l], [d] if there is none. *)
Fixpoint lastTime (d : Z) (l : list Event) : Z :=
  match l with
  | [] => d
  | e :: rest => lastTime (time e) rest
  end.

Fixpoint timeSorted (l : list Event) : Prop :=
  match l with
  | e :: rest =>
      match rest with
      | next :: _ => time e <= time next /\ timeSorted rest
      | [] => True
      end
  | [] => True
  end.

(** The events of one instant, in the order of the list. *)
Definition at_instant (t : Z) (l : list Event) : list Event :=
  List.filter (fun e => time e =? t) l.

(** Every value the counter takes from [c] on is non-negative. *)
Fixpoint neverNegative (c : Z) (l : list Event) : Prop :=
  match l with
  | [] => True
  | e :: rest => 0 <= c + delta e /\ neverNegative (c + delta e) rest
  end.

(** A row that does not finish before it was created. *)
Definition orderedRow (row : Row) : bool :=
  match spanOf row with
  | Some (startTime, endTime) => startTime <=? endTime
  | None => true
  end.

(** Every row id has a row, and none of these rows finishes before it was
    created. *)
Definition allOrdered (store : list Row) (rowIndexes : list nat) : bool :=
  forallb (fun index => match store !! index with
                        | Some row => orderedRow row
                        | None => false
                        end) rowIndexes.

(** The sum of the durations [end - start]. *)
Definition sumDur (pairs : list (Z * Z)) : Z :=
  fold_right (fun p acc => (snd p - fst p) + acc) 0 pairs.

(** [c] is what the first loop gathers from the spans [pairs]. *)
Definition Described (c : Collected) (pairs : list (Z * Z)) : Prop :=
  events c = eventsOf pairs
  /\ (totalHandleTimeMinutes c == inject_Z (sumDur pairs) / inject_Z 60000)%Q
  /\ ((pairs = [] /\ firstEventTime c = None /\ lastEventTime c = None)
      \/ (pairs <> [] /\ exists f l,
            firstEventTime c = Some f /\ lastEventTime c = Some l
            /\ List.Forall (fun p => f <= fst p /\ snd p <= l) pairs)).

Definition orderedPair (p : Z * Z) : Prop := fst p <= snd p.

Definition timedRow (created finished : string) : list (string * string) :=
  [("created", created); ("finished", finished)].

(** Two conversations back to back: the first ends at 00:10, the second
    starts at 00:10. *)
Definition backToBack : Store :=
  ingest ["created"; "finished"]
    [timedRow "2024-01-01 00:00" "2024-01-01 00:10";
     timedRow "2024-01-01 00:10" "2024-01-01 00:20"].

(** A conversation recorded as finished before it was created, next to a
    regular one. *)
Definition withReversed : Store :=
  ingest ["created"; "finished"]
    [timedRow "2024-01-01 00:00" "2024-01-01 00:10";
     timedRow "2024-01-01 01:40" "2024-01-01 00:05"].

(** A single conversation recorded as finished before it was created. *)
Definition onlyReversed : Store :=
  ingest ["created"; "finished"] [timedRow "2024-01-01 00:10" "2024-01-01 00:00"].

(** The three conversations of the spec's example. *)
Definition threeRecords : Store :=
  ingest ["created"; "finished"]
    [timedRow "2024-01-01T00:00" "2024-01-01T00:10";
     timedRow "2024-01-01T00:05" "2024-01-01T00:15";
     timedRow "2024-01-01T00:20" "2024-01-01T00:30"].

(** At one instant, no end comes before a start. *)
Definition startsFirst (l : list Event) : Prop :=
  forall i j a b, (i < j)%nat -> l !! i = Some a -> l !! j = Some b ->
    time a = time b -> ~ (type a = EndEvent /\ type b = StartEvent).

(** *** The page request: filtered counters, comparator, page window *)

(** [row['amelia handled'] === 'true'] *)
Definition containedRow (row : Row) : bool :=
  bool_decide (getField row "amelia handled" = Some "true").

(** The loop [matchingIndexes.forEach(index => { ... filteredContained++ })]
    of the page request; [None] when a row id has no row. *)
Fixpoint filteredContained (store : list Row) (matchingIndexes : list nat) : option nat :=
  match matchingIndexes with
  | [] => Some O
  | index :: rest =>
      row ← store !! index;
      counted ← filteredContained store rest;
      Some (if containedRow row then S counted else counted)
  end.

(** [l.slice(start, finish)]: a negative bound counts from the end, both
    bounds are clamped to the list. *)
Definition jsSlice {A} (start finish : Z) (l : list A) : list A :=
  let len := Z.of_nat (length l) in
  let from := if start <? 0 then Z.max (len + start) 0 else Z.min start len in
  let to := if finish <? 0 then Z.max (len + finish) 0 else Z.min finish len in
  take (Z.to_nat (to - from)) (drop (Z.to_nat from) l).

(** [sortedIndexes.slice((currentPage - 1) * rowsPerPage,
                         (currentPage - 1) * rowsPerPage + rowsPerPage)] *)
Definition pageIndexes (sortedIndexes : list nat) (currentPage rowsPerPage : Z) : list nat :=
  jsSlice ((currentPage - 1) * rowsPerPage)
          ((currentPage - 1) * rowsPerPage + rowsPerPage) sortedIndexes.

(** A number other than [NaN]: finite, or one of the two infinities. *)
Inductive Num := NegInfinity | Finite (q : Q) | PosInfinity.

(** The order of [<] and [>] on such numbers. *)
Definition numCompare (a b : Num) : comparison :=
  match a, b with
  | NegInfinity, NegInfinity => Eq
  | NegInfinity, _ => Lt
  | Finite _, NegInfinity => Gt
  | Finite x, Finite y => (x ?= y)%Q
  | Finite _, PosInfinity => Lt
  | PosInfinity, PosInfinity => Eq
  | PosInfinity, _ => Gt
  end.

Section SortCompare.

(** [parseFloat(text)], [None] for [NaN]. *)
Variable parseFloat : string -> option Num.

(** How the comparator of the page request orders two cell values: as
    numbers when both are non-empty and parse, as strings otherwise. *)
Definition compareValues (valA valB : string) : comparison :=
  match parseFloat valA, parseFloat valB with
  | Some numA, Some numB =>
      if truthy (Some valA) && truthy (Some valB)
      then numCompare numA numB
      else String.compare valA valB
  | _, _ => String.compare valA valB
  end.

(** The comparator given to [sortedIndexes.sort], on the two rows. *)
Definition sortCompare (direction lowerCaseKey : string) (rowA rowB : Row) : Z :=
  let valA := default EmptyString (getField rowA lowerCaseKey) in
  let valB := default EmptyString (getField rowB lowerCaseKey) in
  match compareValues valA valB with
  | Lt => if String.eqb direction "ascending" then -1 else 1
  | Gt => if String.eqb direction "ascending" then 1 else -1
  | Eq => 0
  end.

End SortCompare.

(** *** The analysis request: the trend of one day *)

(** The state of the loop over the events of a day: [max], [current],
    [weightedSum] and the time of the previous event. *)
Record TrendState := mkTrend {
  trendMax : Z;
  trendCurrent : Z;
  trendWeighted : Q;
  trendPrevious : option Z
}.

(** One turn of [for (let i = 0; i < events.length; i++)]: the duration
    since the previous event is weighted with the counter before the event,
    then the event is applied. *)
Definition trendStep (s : TrendState) (e : Event) : TrendState :=
  let weighted :=
    match trendPrevious s with
    | Some previous =>
        (trendWeighted s
         + inject_Z (trendCurrent s) * (inject_Z (time e - previous) / inject_Z (1000 * 60)))%Q
    | None => trendWeighted s
    end in
  match type e with
  | StartEvent =>
      let current := trendCurrent s + 1 in
      {| trendMax := if trendMax s <? current then current else trendMax s;
         trendCurrent := current; trendWeighted := weighted;
         trendPrevious := Some (time e) |}
  | EndEvent =>
      {| trendMax := trendMax s; trendCurrent := trendCurrent s - 1;
         trendWeighted := weighted; trendPrevious := Some (time e) |}
  end.

(** The callback of [Object.keys(dailyEvents).map(date => ...)] on the
    events of one day: the pair [(max, avg)]. *)
Definition dayTrend (dayEvents : list Event) : Z * Q :=
  let events := sortEvents dayEvents in
  match events with
  | first :: _ :: _ =>
      let dayDuration :=
        (inject_Z (lastTime (time first) events - time first) / inject_Z (1000 * 60))%Q in
      let final := fold_left trendStep events (mkTrend 0 0 0%Q None) in
      (trendMax final,
       if Qle_bool dayDuration 0 then 0%Q else (trendWeighted final / dayDuration)%Q)
  | _ => (0, 0%Q)
  end.

(** *** Further vocabulary *)

(** Whether one filter entry lets row [i] through. *)
Definition accepts (dateParse : string -> option Z) (st : Store)
  (entry : string * FilterValue) (i : nat) : bool :=
  match rawDataStore st !! i with
  | None => false
  | Some row =>
      if String.eqb (fst entry) "dateRange" then
        match snd entry with
        | FRange start finish =>
            match dateBound dateParse start "T00:00:00Z",
                  dateBound dateParse finish "T23:59:59Z" with
            | None, None => true
            | startDate, endDate => inRange startDate endDate row
            end
        | _ => true
        end
      else
        match snd entry with
        | FList (val :: vals) =>
            hasId (default [] (lookupValues (filterIndexes st) (fst entry) (val :: vals))) i
        | FText (String c needle) =>
            includes (toLowerCase (String c needle))
              (toLowerCase (default EmptyString (getField row (toLowerCase (fst entry)))))
        | _ => false
        end
  end.

(** The row ids of [0, totalRows) that every entry lets through. *)
Definition selected (dateParse : string -> option Z) (st : Store) (filters : Filters)
  : list nat :=
  List.filter (fun i => forallb (fun entry => accepts dateParse st entry i) filters)
    (seq 0 (totalRows st)).

(** The number of start events of a list. *)
Definition startCount (l : list Event) : nat :=
  length (List.filter (fun e => match type e with StartEvent => true | EndEvent => false end) l).

(** A row id whose row has both instants. *)
Definition hasSpan (store : list Row) (index : nat) : bool :=
  match store !! index with
  | Some row => match spanOf row with Some _ => true | None => false end
  | None => false
  end.

(** What [new Date] makes of the two bounds of 1 January 2024, in
    milliseconds; any other text is taken as an invalid date. *)
Definition newYearDates (text : string) : option Z :=
  if String.eqb text "2024-01-01T00:00:00Z" then Some 1704067200000
  else if String.eqb text "2024-01-01T23:59:59Z" then Some 1704153599000
  else None.

(** A conversation without an end date between two complete ones. *)
Definition withOpenRow : Store :=
  ingest ["created"; "finished"]
    [timedRow "2024-01-01T00:00" "2024-01-01T00:10";
     timedRow "2024-01-01T00:05" "";
     timedRow "2024-01-01T00:05" "2024-01-01T00:15"].

(** *** The analysis request *)

Section Analysis.

(** [date.toISOString().slice(0, 10)] of the instant [t]: the text under
    which the analysis files a conversation. *)
Variable isoDate : Z -> string.

(** [matchingIndexes]: the ids handed over, or every row id. *)
Definition analysisIndexes (useFilteredData : bool) (filteredIndexes : list nat)
  (store : list Row) : list nat :=
  if useFilteredData then filteredIndexes else seq 0 (length store).

(** The two counters of a date in [containmentAggregation]. *)
Record Containment := mkContainment { contained : nat; total : nat }.

(** What the loop over [matchingIndexes] accumulates: of an entry of
    [dailyAggregation] the [count] is kept, its other fields repeat the key.
    [handleTimeAggregation] takes no part in what follows and is left
    out. *)
Record Aggregates := mkAggregates {
  dailyAggregation : gmap string nat;
  containmentAggregation : gmap string Containment;
  dailyEvents : gmap string (list Event);
  totalContainedInFiltered : nat
}.

Definition noAggregates : Aggregates :=
  {| dailyAggregation := ∅; containmentAggregation := ∅; dailyEvents := ∅;
     totalContainedInFiltered := O |}.

(** [value || 'Unknown'] *)
Definition orUnknown (value : option string) : string :=
  if truthy value then default EmptyString value else "Unknown".

(** The body of [matchingIndexes.forEach(index => ...)] once the row is
    read. *)
Definition analyseRow (acc : Aggregates) (row : Row) : Aggregates :=
  match parseDate (getField row "created"), parseDate (getField row "finished") with
  | Some startTime, Some endTime =>
      let dateString := isoDate startTime in
      let key :=
        orUnknown (getField row "domain") ++ "|" ++ orUnknown (getField row "channel")
        ++ "|" ++ dateString in
      let handled := if containedRow row then 1%nat else 0%nat in
      let day := default (mkContainment 0 0) (containmentAggregation acc !! dateString) in
      {| dailyAggregation :=
           <[key := S (default O (dailyAggregation acc !! key))]> (dailyAggregation acc);
         containmentAggregation :=
           <[dateString := mkContainment (contained day + handled)%nat (S (total day))]>
             (containmentAggregation acc);
         dailyEvents :=
           <[dateString := (default [] (dailyEvents acc !! dateString)
                            ++ [mkEvent startTime StartEvent; mkEvent endTime EndEvent])%list]>
             (dailyEvents acc);
         totalContainedInFiltered := (totalContainedInFiltered acc + handled)%nat |}
  | _, _ => acc
  end.

(** The whole [forEach]; [None] when a row id has no row ([TypeError]). *)
Fixpoint analyse (store : list Row) (matchingIndexes : list nat) (acc : Aggregates)
  : option Aggregates :=
  match matchingIndexes with
  | [] => Some acc
  | index :: rest =>
      row ← store !! index;
      analyse store rest (analyseRow acc row)
  end.

(** [concurrencyTrendData] before it is sorted by date: the date, [max]
    and [avg] of every entry of [dailyEvents]. *)
Definition concurrencyTrendData (a : Aggregates) : list (string * (Z * Q)) :=
  (fun entry => (fst entry, dayTrend (snd entry))) <$> map_to_list (dailyEvents a).

(** [concurrencyTrendData.forEach(d => { if (d.max > totalMaxConcurrency)
    totalMaxConcurrency = d.max; })] *)
Definition totalMaxConcurrency (trend : list (string * (Z * Q))) : Z :=
  fold_left (fun totalMax d => if totalMax <? fst (snd d) then fst (snd d) else totalMax)
    trend 0.

(** [rate] of an entry of [containmentTrendData], as an exact quotient. *)
Definition containmentRate (d : Containment) : Q :=
  match total d with
  | O => 0%Q
  | _ => (inject_Z (Z.of_nat (contained d)) / inject_Z (Z.of_nat (total d)) * 100)%Q
  end.

End Analysis.

(** [full] is [sub] with further events put in between, whose starts
    minus ends, counted from [extra] on, never fall below 0. *)
Inductive Merged : Z -> list Event -> list Event -> Prop :=
| merged_nil extra : 0 <= extra -> Merged extra [] []
| merged_both extra e sub full :
    0 <= extra -> Merged extra sub full -> Merged extra (e :: sub) (e :: full)
| merged_extra extra e sub full :
    0 <= extra -> Merged (extra + delta e) sub full -> Merged extra sub (e :: full).

(** The sum of a counter over the dates. *)
Definition sumOver {A} (count : A -> nat) (m : gmap string A) : nat :=
  map_fold (fun _ d acc => (count d + acc)%nat) O m.

(** The record of the spec's example followed by one of another region. *)
Definition twoRegions : Store :=
  ingest ["Conversation ID"; "Custom Metrics"]
    [regionTierRecord; [("Conversation ID", "c2"); ("Custom Metrics", "Region=EU")]].

(** The UTC day of an instant, as a stand-in for its date. *)
Definition dayNumber (t : Z) : string := ofNat (Z.to_nat (t / 86400000)).

(** Two conversations around midnight: the first begins on 1 January and
    is still going on when the second begins, on 2 January. *)
Definition overMidnight : Store :=
  ingest ["created"; "finished"]
    [timedRow "2024-01-01T23:50" "2024-01-02T00:20";
     timedRow "2024-01-02T00:05" "2024-01-02T00:30"].

End Worker.

(** ** The request scheduler ([RequestQueue]) *)

Module Scheduler.

(** A queued closure, named by its position in submission order. *)
Abbreviation Task := nat.

(** The fields of the class. *)
Record RequestQueue := mkQueue {
  queue : list Task;
  activeCount : Z;
  maxConcurrency : Z;
  minDelay : Q;
  lastRequestTime : Z
}.

(** The field initialisers, for a cap and an interval already computed. *)
Definition initial (cap : Z) (delay : Q) : RequestQueue :=
  {| queue := []; activeCount := 0; maxConcurrency := cap; minDelay := delay;
     lastRequestTime := 0 |}.

(** [new RequestQueue(rpm)], for a non-zero finite [rpm]. *)
Definition newQueue (rpm : Q) : RequestQueue :=
  initial (Z.min 6 (Qceiling (rpm / 10) + 1)) (60000 / rpm)%Q.

(** [clear()] *)
Definition clear (q : RequestQueue) : RequestQueue :=
  {| queue := []; activeCount := 0; maxConcurrency := maxConcurrency q;
     minDelay := minDelay q; lastRequestTime := lastRequestTime q |}.

(** The queue object together with what surrounds it: the clock read by
    [Date.now()], the tasks that were started and have not settled, the
    log of dispatches (task and instant, latest first) and the delays of
    the timers set with [setTimeout]. *)
Record World := mkWorld {
  rq : RequestQueue;
  clock : Z;
  inFlight : list Task;
  dispatched : list (Task * Z);
  timers : list Q
}.

(** The clock never runs backwards: a reading is the previous one plus the
    next advance of [ticks] (no advance once [ticks] is used up). *)
Definition reading (ticks : list N) (k : nat) (from : Z) : Z :=
  from + Z.of_N (default 0%N (ticks !! k)).

(** [process()], by recursion on the pending queue: every recursive call
    follows a [shift()].  Each pass reads the clock once for [now] and, if
    it dispatches, once more for [lastRequestTime].  The test [wait === 0]
    holds exactly when [minDelay - timeSinceLast <= 0]; the difference of two
    floating-point numbers has the sign of the exact difference, so the test
    is the same on the exact values.  The tasks of this repository are
    [async] functions: [fn()] returns at once and the task settles in a
    later turn of the event loop. *)
Fixpoint processQueue (pending : list Task) (ticks : list N) (w : World) : World :=
  match pending with
  | [] => w
  | fn :: rest =>
      let q := rq w in
      let now := reading ticks 0 (clock w) in
      let timeSinceLast := now - lastRequestTime q in
      let wait := Qmax 0 (minDelay q - inject_Z timeSinceLast) in
      if (activeCount q <? maxConcurrency q) && Qeq_bool wait 0 then
        let started := reading ticks 1 now in
        processQueue rest (drop 2 ticks)
          {| rq := {| queue := rest; activeCount := activeCount q + 1;
                      maxConcurrency := maxConcurrency q; minDelay := minDelay q;
                      lastRequestTime := started |};
             clock := started;
             inFlight := fn :: inFlight w;
             dispatched := (fn, started) :: dispatched w;
             timers := timers w |}
      else if activeCount q <? maxConcurrency q then
        {| rq := q; clock := now; inFlight := inFlight w; dispatched := dispatched w;
           timers := wait :: timers w |}
      else
        {| rq := q; clock := now; inFlight := inFlight w; dispatched := dispatched w;
           timers := timers w |}
  end.

Definition process (ticks : list N) (w : World) : World :=
  processQueue (queue (rq w)) ticks w.

Definition withQueue (w : World) (q : RequestQueue) : World :=
  {| rq := q; clock := clock w; inFlight := inFlight w; dispatched := dispatched w;
     timers := timers w |}.

(** [add(fn)]: the wrapped closure is pushed, then [process()] runs. *)
Definition add (fn : Task) (ticks : list N) (w : World) : World :=
  let q := rq w in
  process ticks
    (withQueue w {| queue := (queue q ++ [fn])%list; activeCount := activeCount q;
                    maxConcurrency := maxConcurrency q; minDelay := minDelay q;
                    lastRequestTime := lastRequestTime q |}).

Fixpoint removeFirst (fn : Task) (l : list Task) : list Task :=
  match l with
  | [] => []
  | x :: l' => if Nat.eqb fn x then l' else x :: removeFirst fn l'
  end.

(** The [finally] block of a started task, once its promise has settled:
    [activeCount--] and [process()]. *)
Definition settle (fn : Task) (ticks : list N) (w : World) : World :=
  let q := rq w in
  process ticks
    {| rq := {| queue := queue q; activeCount := activeCount q - 1;
                maxConcurrency := maxConcurrency q; minDelay := minDelay q;
                lastRequestTime := lastRequestTime q |};
       clock := clock w; inFlight := removeFirst fn (inFlight w);
       dispatched := dispatched w; timers := timers w |}.

(** A timer set by [process] runs out: [process()] again. *)
Definition fire (ticks : list N) (w : World) : World :=
  process ticks
    {| rq := rq w; clock := clock w; inFlight := inFlight w;
       dispatched := dispatched w; timers := tail (timers w) |}.

(** What can happen to a queue.  Each carries the advances of the clock
    seen by its handler, which runs to completion.  A task settles only
    after it was started, and a timer fires only after it was set. *)
Inductive Action :=
| Add (fn : Task) (ticks : list N)
| Settle (fn : Task) (ticks : list N)
| Fire (ticks : list N).

Definition step (w : World) (a : Action) : World :=
  match a with
  | Add fn ticks => add fn ticks w
  | Settle fn ticks => if existsb (Nat.eqb fn) (inFlight w) then settle fn ticks w else w
  | Fire ticks => match timers w with [] => w | _ => fire ticks w end
  end.

Definition run (actions : list Action) (w : World) : World := fold_left step actions w.

(** A fresh queue at clock time [t0]. *)
Definition start (cap : Z) (delay : Q) (t0 : Z) : World :=
  {| rq := initial cap delay; clock := t0; inFlight := []; dispatched := [];
     timers := [] |}.

(** [clear()] on the queue of a world: nothing else is touched. *)
Definition clearWorld (w : World) : World := withQueue w (clear (rq w)).

(** The instants of the dispatch log, latest first. *)
Definition instants (w : World) : list Z := map snd (dispatched w).

(** Consecutive instants of a dispatch log (latest first) are at least
    [delay] apart. *)
Fixpoint spaced (delay : Q) (instants : list Z) : Prop :=
  match instants with
  | later :: rest =>
      match rest with
      | earlier :: _ => (delay <= inject_Z (later - earlier))%Q /\ spaced delay rest
      | [] => True
      end
  | [] => True
  end.

(** *** Vocabulary of the properties, and concrete inputs *)

(** What holds of every world reachable without [clear]: the counter is the
    number of tasks in flight, it is within the cap, the dispatch log is
    spaced, and [lastRequestTime] is the latest instant of the log. *)
Record Inv (cap : Z) (delay : Q) (w : World) : Prop := mkInv {
  inv_cap : maxConcurrency (rq w) = cap;
  inv_delay : minDelay (rq w) = delay;
  inv_count : activeCount (rq w) = Z.of_nat (length (inFlight w));
  inv_bound : activeCount (rq w) <= cap;
  inv_spaced : spaced delay (instants w);
  inv_last : forall t rest, instants w = t :: rest -> lastRequestTime (rq w) = t
}.

(** A queue of cap 2 and interval 6000 ms, created at [t0], after two
    submissions: one task started, one pending, one timer set. *)
Definition busy : World :=
  run [Add 0%nat []; Add 1%nat []] (start 2 6000 1700000000000).

(** Three submissions to a queue of cap 2 and interval 6000 ms; the timer
    fires after 6000 ms, then the first task settles. *)
Definition sampleActions : list Action :=
  [Add 0%nat []; Add 1%nat []; Add 2%nat [10%N]; Fire [5990%N]; Settle 0%nat [6000%N]].

(** The tasks handed to [add], in order. *)
Definition submitted (actions : list Action) : list Task :=
  flat_map (fun a => match a with Add fn _ => [fn] | _ => [] end) actions.

(** The tasks that were started, in the order of their start. *)
Definition startedTasks (w : World) : list Task := rev (map fst (dispatched w)).

End Scheduler.

(** ** The map-reduce summariser ([generateSummary]) *)

Module Summarizer.

Import JsString.

Definition BATCH_SIZE : nat := 25.

(** [l.slice(i, j)] for [i <= j]. *)
Definition slice {A} (i j : nat) (l : list A) : list A := take (j - i) (drop i l).

(** [for (let i = 0; i < l.length; i += BATCH_SIZE) batches.push(l.slice(i, i + BATCH_SIZE))],
    from index [i], with at most [fuel] turns. *)
Fixpoint batchLoop {A} (fuel i : nat) (l : list A) : list (list A) :=
  match fuel with
  | O => []
  | S fuel' =>
      if (i <? length l)%nat
      then slice i (i + BATCH_SIZE) l :: batchLoop fuel' (i + BATCH_SIZE) l
      else []
  end.

(** The loop started at 0; it ends within [length l] turns. *)
Definition mkBatches {A} (l : list A) : list (list A) := batchLoop (length l) 0 l.

Section GenerateSummary.

(** Parsed JSON and the engine's primitives on it: [JSON.parse] ([None]
    for a [SyntaxError]), truthiness of a value, [JSON.stringify], and
    [text.replace(pattern, replacement)] with a string pattern. *)
Variable Json : Type.
Variable jsonParse : string -> option Json.
Variable truthyJson : Json -> bool.
Variable stringify : Json -> string.
Variable replaceStr : string -> string -> string -> string.

(** [safeJsonParse(text)]; [None] is the [null] of the two failure exits. *)
Definition safeJsonParse (text : string) : option Json :=
  match jsonParse text with
  | Some v => Some v
  | None =>
      let clean := trim (removeFences text) in
      match jsonParse clean with
      | Some v => Some v
      | None =>
          match indexOf "{"%char clean, lastIndexOf "}"%char clean with
          | Some first, Some last => jsonParse (substring first (last + 1) clean)
          | _, _ => None
          end
      end
  end.

(** Truthiness of what [safeJsonParse] returns. *)
Definition parsesTruthy (text : string) : bool :=
  match safeJsonParse text with
  | Some v => truthyJson v
  | None => false
  end.

(** A per-row result ([{ row, insight, error }]; the row is not read by
    the summary). *)
Record AnalysisResult := mkResult {
  insight : option Json;
  error : option string
}.

(** [r.insight && !r.error] *)
Definition usable (r : AnalysisResult) : bool :=
  match insight r with
  | Some v => truthyJson v && negb (truthy (error r))
  | None => false
  end.

Definition stringifyInsight (r : AnalysisResult) : string :=
  match insight r with
  | Some v => stringify v
  | None => "null"
  end.

(** The external calls of a run: a batch reduction, handed to
    [queue.add], or the final reduction, made directly. *)
Inductive Call :=
| BatchCall (index : nat) (prompt : string)
| FinalCall (prompt : string).

(** How [gemini.generateContent] ends: with a text or with an error. *)
Inductive Response :=
| Ok (text : string)
| Err (message : string).

(** What the component shows at the end of [generateSummary]. *)
Inductive Outcome :=
| NoSummary
| SummaryOf (summaryData : Json)
| Failed (message : string).

Record Run := mkRun {
  calls : list Call;
  outcome : Outcome
}.

Variable generateContent : Call -> Response.
Variable INTERMEDIATE_BATCH_PROMPT : string.
Variable summaryPrompt : string.

Definition batchPrompt (batch : list AnalysisResult) : string :=
  let batchInsights := join nl (map stringifyInsight batch) in
  replaceStr
    (replaceStr INTERMEDIATE_BATCH_PROMPT "{count}" (ofNat (length batch)))
    "{batch_insights}" batchInsights.

Definition batchCall (index : nat) (batch : list AnalysisResult) : Call :=
  BatchCall index (batchPrompt batch).

(** The closure given to [queue.add] for one batch: the text, or [null]
    ([None]) when the call fails. *)
Definition batchTask (index : nat) (batch : list AnalysisResult) : option string :=
  match generateContent (batchCall index batch) with
  | Ok text => Some text
  | Err _ => None
  end.

(** [batchResults.filter(r => r !== null && safeJsonParse(r))] *)
Definition successfulBatches (batchResults : list (option string)) : list string :=
  omap (fun r => match r with
                 | Some text => if parsesTruthy text then Some text else None
                 | None => None
                 end) batchResults.

Definition finalPrompt (count : nat) (finalInputForSummary : string) : string :=
  replaceStr
    (replaceStr summaryPrompt "{insight_count}" (ofNat count))
    "{all_insights}" finalInputForSummary.

(** The final aggregation and what is shown after it. *)
Definition finalAggregation (count : nat) (finalInputForSummary : string) : Call * Outcome :=
  let call := FinalCall (finalPrompt count finalInputForSummary) in
  (call,
   match generateContent call with
   | Err message => Failed message
   | Ok text =>
       match safeJsonParse text with
       | Some summaryData =>
           if truthyJson summaryData then SummaryOf summaryData
           else Failed "Final summary response was not valid JSON"
       | None => Failed "Final summary response was not valid JSON"
       end
   end).

(** [generateSummary(results, gemini, queue)] *)
Definition generateSummary (results : list AnalysisResult) : Run :=
  let validResults := List.filter usable results in
  match validResults with
  | [] => {| calls := []; outcome := NoSummary |}
  | _ =>
      if (length validResults <=? BATCH_SIZE)%nat then
        let finalInputForSummary := join (nl ++ nl) (map stringifyInsight validResults) in
        let '(call, shown) := finalAggregation (length validResults) finalInputForSummary in
        {| calls := [call]; outcome := shown |}
      else
        let batches := mkBatches validResults in
        let batchResults := imap batchTask batches in
        let finalInputForSummary := join (nl ++ nl) (successfulBatches batchResults) in
        let '(call, shown) := finalAggregation (length validResults) finalInputForSummary in
        {| calls := (imap batchCall batches ++ [call])%list; outcome := shown |}
  end.

End GenerateSummary.

Arguments mkResult {Json}.
Arguments insight {Json}.
Arguments error {Json}.
Arguments NoSummary {Json}.
Arguments SummaryOf {Json}.
Arguments Failed {Json}.
Arguments mkRun {Json}.
Arguments calls {Json}.
Arguments outcome {Json}.

(** *** Vocabulary of the properties, and a concrete engine *)

(** The sizes of the batches the loop cuts from a list of [n] elements. *)
Fixpoint batchSizes (fuel i n : nat) : list nat :=
  match fuel with
  | O => []
  | S fuel' =>
      if (i <? n)%nat
      then Nat.min BATCH_SIZE (n - i) :: batchSizes fuel' (i + BATCH_SIZE) n
      else []
  end.

(** A stand-in for [JSON.parse] that accepts the texts starting with a
    brace and keeps them as they are. *)
Definition braceParse (text : string) : option string :=
  if String.prefix "{" text then Some text else None.

Definition anyTruthy (v : string) : bool := true.

Definition sampleResult : AnalysisResult string :=
  {| insight := Some "{}"; error := None |}.

(** An inference service that answers every call with an empty object. *)
Definition alwaysOk (c : Call) : Response := Ok "{}".

(** An inference service whose batch reductions all fail while the final
    call answers. *)
Definition batchesFail (c : Call) : Response :=
  match c with
  | BatchCall _ _ => Err "429 quota exceeded"
  | FinalCall _ => Ok "{}"
  end.

Definition sampleRun (service : Call -> Response) (n : nat) : Run string :=
  generateSummary string braceParse anyTruthy (fun v => v) replaceFirst service
    "Consolidate {count} insights: {batch_insights}"
    "Summarise {insight_count} insights: {all_insights}"
    (repeat sampleResult n).

Definition isBatchCall (c : Call) : bool :=
  match c with
  | BatchCall _ _ => true
  | FinalCall _ => false
  end.

(** A text without a backtick. *)
Fixpoint noBacktick (s : string) : bool :=
  match s with
  | EmptyString => true
  | String c s' => negb (Ascii.eqb c "`"%char) && noBacktick s'
  end.

(** A text without the character [c]. *)
Fixpoint lacks (c : ascii) (s : string) : bool :=
  match s with
  | EmptyString => true
  | String d s' => negb (Ascii.eqb c d) && lacks c s'
  end.

End Summarizer.

(** ** The filter sidebar ([FilterSidebar], App.tsx) *)

Module Sidebar.

Import JsString Worker.

(** The filter state of the application: a JS object from field names to
    filter values, [{}] at first. *)
Abbreviation FilterState := (gmap string FilterValue).

(** [[...text]]: the characters of a string, each as a string. *)
Fixpoint chars (text : string) : list string :=
  match text with
  | EmptyString => []
  | String c rest => String c EmptyString :: chars rest
  end.

(** The two branches of [newValues]: the value is taken out if it is
    among the current ones, and appended otherwise. *)
Definition toggled (currentValues : list string) (value : string) : list string :=
  if existsb (String.eqb value) currentValues
  then List.filter (fun v => negb (String.eqb v value)) currentValues
  else (currentValues ++ [value])%list.

(** [{ ...filters, [key]: newValues }], the key deleted again when no value
    is left. *)
Definition withValues (filters : FilterState) (key : string) (newValues : list string)
  : FilterState :=
  let newFilters := <[key := FList newValues]> filters in
  match newValues with
  | [] => delete key newFilters
  | _ => newFilters
  end.

(** [handleCheckboxChange(key, value)]: the filters handed to
    [onFilterChange], or [None] where the handler throws a [TypeError].
    [filters[key]] is read as an array whatever it holds: a non-empty
    search string answers [includes] as a string does, has no [filter]
    method and spreads into its characters; a date range has no [includes]
    method. *)
Definition handleCheckboxChange (filters : FilterState) (key value : string)
  : option FilterState :=
  match filters !! key with
  | None | Some FUndefined | Some (FText EmptyString) =>
      Some (withValues filters key (toggled [] value))
  | Some (FList currentValues) =>
      Some (withValues filters key (toggled currentValues value))
  | Some (FText text) =>
      if includes value text then None
      else Some (withValues filters key (chars text ++ [value])%list)
  | Some (FRange _ _) => None
  end.

(** The argument [type] of [handleDateChange]: ['start'] or ['end']. *)
Inductive Bound := BoundStart | BoundEnd.

(** [handleDateChange(type, value)].  Of a range object only [start] and
    [end] are ever read; a list or a non-empty string found under
    [dateRange] is truthy and spreads into indexed properties only, so that
    both are [undefined] then. *)
Definition handleDateChange (filters : FilterState) (type : Bound) (value : string)
  : FilterState :=
  let currentRange :=
    match filters !! "dateRange" with
    | Some (FRange start finish) => (start, finish)
    | _ => (None, None)
    end in
  let newRange :=
    match type with
    | BoundStart => (Some value, snd currentRange)
    | BoundEnd => (fst currentRange, Some value)
    end in
  let newFilters := <["dateRange" := FRange (fst newRange) (snd newRange)]> filters in
  if negb (truthy (fst newRange)) && negb (truthy (snd newRange))
  then delete "dateRange" newFilters
  else newFilters.

(** [handleTextSearch(key, value)] *)
Definition handleTextSearch (filters : FilterState) (key value : string) : FilterState :=
  let newFilters := <[key := FText value]> filters in
  match value with
  | EmptyString => delete key newFilters
  | _ => newFilters
  end.

(** What the user does in the sidebar. *)
Inductive Action :=
| Checkbox (key value : string)
| DateChange (type : Bound) (value : string)
| TextSearch (key value : string).

(** One event: [onFilterChange] stores the new filters and sends them to
    the worker; when the handler throws, [onFilterChange] is not reached and
    the filters stay as they were. *)
Definition step (filters : FilterState) (a : Action) : FilterState :=
  match a with
  | Checkbox key value => default filters (handleCheckboxChange filters key value)
  | DateChange type value => handleDateChange filters type value
  | TextSearch key value => handleTextSearch filters key value
  end.

Definition run (actions : list Action) (filters : FilterState) : FilterState :=
  fold_left step actions filters.

(** *** Vocabulary of the properties *)




End Sidebar.

(** ** The serial request queue (the [RequestQueue] bundled with App) *)

Module SerialQueue.

(** A queued closure, named by its position in submission order. *)
Abbreviation Task := nat.

(** The fields of the class. *)
Record RequestQueue := mkQueue {
  queue : list Task;
  isProcessing : bool;
  delay : Q
}.

(** The field initialisers, for a delay already computed. *)
Definition initial (delay : Q) : RequestQueue :=
  {| queue := []; isProcessing := false; delay := delay |}.

(** [new RequestQueue(rpm)], for a non-zero finite [rpm]. *)
Definition newQueue (rpm : Q) : RequestQueue := initial (60000 / rpm + 500)%Q.

(** [clear()] *)
Definition clear (q : RequestQueue) : RequestQueue :=
  {| queue := []; isProcessing := false; delay := delay q |}.

(** The queue object together with what surrounds it: the clock read by
    [Date.now()], the calls of [process] suspended at [await fn()], each
    with its task and its [start], the instants before which the callbacks
    handed to [setTimeout] do not run, and the log of the started tasks
    (task and instant, latest first). *)
Record World := mkWorld {
  rq : RequestQueue;
  clock : Z;
  running : list (Task * Z);
  timers : list Z;
  started : list (Task * Z)
}.

(** The number of milliseconds [setTimeout] makes of its second argument:
    the conversion to a 32-bit integer (truncation, then wrap-around), and 0
    for a negative result. *)
Definition timeoutOf (wait : Q) : Z :=
  let truncated := Z.quot (Qnum wait) (Zpos (Qden wait)) in
  Z.max 0 ((truncated + 2 ^ 31) mod 2 ^ 32 - 2 ^ 31).

(** [process()] up to its [await]: with an empty queue the flag is
    lowered; otherwise the flag is raised, the first task is taken, the
    clock is read for [start] and the task is called. *)
Definition process (w : World) : World :=
  let q := rq w in
  match queue q with
  | [] =>
      {| rq := {| queue := []; isProcessing := false; delay := delay q |};
         clock := clock w; running := running w; timers := timers w;
         started := started w |}
  | fn :: rest =>
      let start := clock w in
      {| rq := {| queue := rest; isProcessing := true; delay := delay q |};
         clock := clock w; running := (running w ++ [(fn, start)])%list;
         timers := timers w; started := (fn, start) :: started w |}
  end.

(** [add(fn)]: the wrapped closure is pushed, and [process()] is called
    unless the flag is up. *)
Definition add (fn : Task) (w : World) : World :=
  let q := rq w in
  let pushed :=
    {| rq := {| queue := (queue q ++ [fn])%list; isProcessing := isProcessing q;
                delay := delay q |};
       clock := clock w; running := running w; timers := timers w;
       started := started w |} in
  if isProcessing q then pushed else process pushed.

(** The first suspended call of [process] whose task is [fn], and the
    others. *)
Fixpoint takeRunning (fn : Task) (l : list (Task * Z)) : option (Z * list (Task * Z)) :=
  match l with
  | [] => None
  | (fn', start) :: l' =>
      if Nat.eqb fn fn' then Some (start, l')
      else match takeRunning fn l' with
           | Some (found, others) => Some (found, (fn', start) :: others)
           | None => None
           end
  end.

(** What follows [await fn()] once the task has settled: the clock is read
    for [elapsed], and [process] is handed to [setTimeout] for the rest of
    the delay.  The wrapped closure catches what the task throws, so the
    call never ends otherwise.  [delay] is a double below [2 ^ 53] and
    [elapsed] an integer, so the subtraction is exact where the result is
    positive and keeps its sign elsewhere. *)
Definition resume (fn : Task) (w : World) : World :=
  match takeRunning fn (running w) with
  | None => w
  | Some (start, others) =>
      let elapsed := clock w - start in
      let wait := Qmax 0 (delay (rq w) - inject_Z elapsed) in
      {| rq := rq w; clock := clock w; running := others;
         timers := (timers w ++ [clock w + timeoutOf wait])%list;
         started := started w |}
  end.

(** The [k]-th pending timer runs out: [process()] again.  The callback of
    a timer does not run before its time has come. *)
Definition fire (k : nat) (w : World) : World :=
  match timers w !! k with
  | Some due =>
      if due <=? clock w then
        process {| rq := rq w; clock := clock w; running := running w;
                   timers := (take k (timers w) ++ drop (S k) (timers w))%list;
                   started := started w |}
      else w
  | None => w
  end.

(** What can happen to a queue.  Each event comes with the time that went
    by since the previous one; its handler runs to completion and reads the
    clock at most once. *)
Inductive Action :=
| Add (fn : Task) (tick : N)
| Settle (fn : Task) (tick : N)
| Fire (k : nat) (tick : N).

Definition later (tick : N) (w : World) : World :=
  {| rq := rq w; clock := clock w + Z.of_N tick; running := running w;
     timers := timers w; started := started w |}.

Definition step (w : World) (a : Action) : World :=
  match a with
  | Add fn tick => add fn (later tick w)
  | Settle fn tick => resume fn (later tick w)
  | Fire k tick => fire k (later tick w)
  end.

Definition run (actions : list Action) (w : World) : World := fold_left step actions w.

(** A fresh queue of the given delay at clock time [t0]. *)
Definition start (delay : Q) (t0 : Z) : World :=
  {| rq := initial delay; clock := t0; running := []; timers := []; started := [] |}.

(** *** Vocabulary of the properties *)

(** The instants of the log, latest first. *)
Definition instants (w : World) : list Z := map snd (started w).

(** Consecutive instants of a log (latest first) are at least [gap]
    milliseconds apart. *)
Fixpoint spaced (gap : Z) (instants : list Z) : Prop :=
  match instants with
  | later :: rest =>
      match rest with
      | earlier :: _ => gap <= later - earlier /\ spaced gap rest
      | [] => True
      end
  | [] => True
  end.

(** What holds of every world reachable without [clear]: the flag is up
    exactly while one task runs or one timer is pending, never both; the
    log is spaced, and the next start cannot come before the gap since the
    latest one has gone by. *)
Record Inv (d : Q) (w : World) : Prop := mkInv {
  inv_delay : delay (rq w) = d;
  inv_spaced : spaced (Qfloor d) (instants w);
  inv_past : forall t rest, instants w = t :: rest -> t <= clock w;
  inv_state :
    match running w, timers w with
    | [], [] => isProcessing (rq w) = false
    | [(fn, start)], [] =>
        isProcessing (rq w) = true /\ exists rest, instants w = start :: rest
    | [], [due] =>
        isProcessing (rq w) = true
        /\ exists t rest, instants w = t :: rest /\ t + Qfloor d <= due
    | _, _ => False
    end;
  inv_idle :
    isProcessing (rq w) = false ->
    forall t rest, instants w = t :: rest -> t + Qfloor d <= clock w
}.

End SerialQueue.

(** ** The pagination bar ([Dashboard]) *)

Module Dashboard.

(** [Math.ceil(filteredCount / rowsPerPage)]: the quotient of two integers
    below [2 ^ 53] is rounded to a double on the same side of every
    integer, so its ceiling is that of the exact quotient. *)
Definition pageCount (filteredCount rowsPerPage : Z) : Z :=
  Qceiling (inject_Z filteredCount / inject_Z rowsPerPage).

(** The page count on display: [Math.max(1, pageCount)]. *)
Definition shownPageCount (filteredCount rowsPerPage : Z) : Z :=
  Z.max 1 (pageCount filteredCount rowsPerPage).

(** [disabled] of the button Previous. *)
Definition previousDisabled (currentPage : Z) : bool := currentPage =? 1.

(** [disabled] of the button Next. *)
Definition nextDisabled (currentPage filteredCount rowsPerPage : Z) : bool :=
  pageCount filteredCount rowsPerPage <=? currentPage.

(** The two numbers of [Showing ... to ... of ... results]. *)
Definition showingFrom (currentPage rowsPerPage : Z) : Z :=
  (currentPage - 1) * rowsPerPage + 1.

Definition showingTo (currentPage rowsPerPage filteredCount : Z) : Z :=
  Z.min (currentPage * rowsPerPage) filteredCount.

End Dashboard.

(** * Properties *)

(** ** The filter engine *)

Module WorkerProps.

Import JsString Worker.

(** *** Lists of row ids *)

Lemma filter_and {A} (p q : A -> bool) l :
  List.filter q (List.filter p l) = List.filter (fun x => p x && q x) l.
Proof.
  induction l as [|x l IH]; [reflexivity|].
  simpl. destruct (p x); simpl; [destruct (q x)|]; now rewrite IH.
Qed.

Lemma filter_all {A} (p : A -> bool) l :
  (forall x, In x l -> p x = true) -> List.filter p l = l.
Proof.
  induction l as [|x l IH]; intros H; [reflexivity|].
  simpl. rewrite (H x) by (left; reflexivity). f_equal. apply IH. intros y Hy. apply H. now right.
Qed.

Lemma hasId_In l i : hasId l i = true <-> In i l.
Proof.
  unfold hasId. rewrite existsb_exists. split.
  - intros (j & Hj & Heq). apply Nat.eqb_eq in Heq. now subst.
  - intros H. exists i. split; [exact H | apply Nat.eqb_refl].
Qed.


(** Intersecting the candidates with the part of them that passes a test
    keeps exactly that part. *)
Lemma intersect_with_filtered (p : nat -> bool) ids :
  List.filter (hasId (List.filter p ids)) ids = List.filter p ids.
Proof.
  apply filter_ext_in. intros i Hi.
  destruct (p i) eqn:Hp.
  - apply hasId_In, filter_In. auto.
  - destruct (hasId (List.filter p ids) i) eqn:Hh; [|reflexivity].
    apply hasId_In, filter_In in Hh. destruct Hh. congruence.
Qed.

Lemma inStore_seq (store : list Row) : inStore store (seq 0 (length store)).
Proof.
  apply List.Forall_forall. intros i Hi. apply in_seq in Hi. lia.
Qed.

Lemma inStore_filter store p ids : inStore store ids -> inStore store (List.filter p ids).
Proof.
  unfold inStore. rewrite !List.Forall_forall. intros H i Hi.
  apply filter_In in Hi. apply H, Hi.
Qed.

Lemma inStore_row store ids i :
  inStore store ids -> In i ids -> exists row, store !! i = Some row.
Proof.
  unfold inStore. rewrite List.Forall_forall. intros H Hi.
  apply lookup_lt_is_Some_2, H, Hi.
Qed.

Lemma scanRows_filter store keep ids :
  inStore store ids ->
  scanRows store keep ids
  = Some (List.filter (fun i => match store !! i with
                                | Some row => keep row
                                | None => false
                                end) ids).
Proof.
  induction 1 as [|i ids Hi _ IH]; [reflexivity|].
  cbn [scanRows List.filter].
  destruct (lookup_lt_is_Some_2 store i Hi) as [row Hrow].
  rewrite Hrow, IH. cbn. reflexivity.
Qed.

(** *** The counters of the store *)

Lemma step_totalRows st row :
  totalRows st = length (rawDataStore st) ->
  totalRows (step st row) = length (rawDataStore (step st row)).
Proof.
  intros H. unfold step. destruct (thrown st); [exact H|].
  destruct (expandCustomMetrics _ _) as [processedRow keys]. simpl.
  rewrite length_app. simpl. lia.
Qed.

Lemma ingest_from_totalRows rows : forall st,
  totalRows st = length (rawDataStore st) ->
  totalRows (fold_left step rows st) = length (rawDataStore (fold_left step rows st)).
Proof.
  induction rows as [|row rows IH]; intros st H; simpl; [exact H|].
  apply IH, step_totalRows, H.
Qed.

Lemma ingest_totalRows hs rows :
  totalRows (ingest hs rows) = length (rawDataStore (ingest hs rows)).
Proof. apply ingest_from_totalRows. reflexivity. Qed.

Lemma ingest_snoc hs rows row : ingest hs (rows ++ [row]) = step (ingest hs rows) row.
Proof. unfold ingest. rewrite fold_left_app. reflexivity. Qed.

(** *** Datasets that load *)

(** A turn of the indexing loop that neither throws nor meets an inherited
    member files the row. *)
Lemma indexField_plain processedRow rid acc header :
  threw (indexField processedRow rid acc header) = false ->
  outside (indexField processedRow rid acc header) = false ->
  threw acc = false /\ outside acc = false
  /\ meetsMember processedRow header = false
  /\ pushThrows processedRow (index acc) header = false
  /\ index (indexField processedRow rid acc header)
     = filed processedRow rid (index acc) header.
Proof.
  unfold indexField.
  destruct (threw acc) eqn:Ht; [intros H; simpl in H; congruence|].
  destruct (meetsMember processedRow header); [intros _ H; discriminate H|].
  destruct (pushThrows processedRow (index acc) header); [intros H; discriminate H|].
  cbn. intros _ Ho. auto.
Qed.

Lemma indexing_plain processedRow rid keys : forall acc,
  threw (fold_left (indexField processedRow rid) keys acc) = false ->
  outside (fold_left (indexField processedRow rid) keys acc) = false ->
  threw acc = false /\ outside acc = false
  /\ List.Forall (fun header => meetsMember processedRow header = false) keys
  /\ index (fold_left (indexField processedRow rid) keys acc)
     = fold_left (filed processedRow rid) keys (index acc).
Proof.
  induction keys as [|k keys IH]; intros acc Ht Ho; [auto|].
  cbn [fold_left] in *.
  destruct (IH _ Ht Ho) as (Ht' & Ho' & Hall & Hidx).
  destruct (indexField_plain _ _ _ _ Ht' Ho') as (Ht0 & Ho0 & Hres & _ & Hk).
  split; [exact Ht0|]. split; [exact Ho0|]. split; [constructor; assumption|].
  rewrite Hidx, Hk. reflexivity.
Qed.

(** A step that leaves the dataset plain started from a plain one, met no
    inherited member and filed the row under every field. *)
Lemma step_plain st row :
  plain (step st row) = true ->
  plain st = true
  /\ exists processedRow keys,
       expandCustomMetrics (normalizeRow row) (customMetricKeys st) = (processedRow, keys)
       /\ List.Forall (fun header => meetsMember processedRow header = false)
            (dedup (headers st ++ keys))
       /\ step st row
          = {| rawDataStore := (rawDataStore st ++ [processedRow])%list;
               filterIndexes :=
                 fold_left (filed processedRow (rowIndex st))
                   (dedup (headers st ++ keys)) (filterIndexes st);
               totalContained :=
                 (if containedRow processedRow
                  then S (totalContained st) else totalContained st);
               totalRows := S (totalRows st);
               headers := headers st;
               customMetricKeys := keys;
               rowIndex := S (rowIndex st);
               thrown := false;
               beyond := false |}.
Proof.
  unfold plain at 1. unfold step.
  destruct (thrown st) eqn:Hthrown.
  - rewrite Hthrown. discriminate.
  - destruct (expandCustomMetrics _ _) as [processedRow keys]. cbn [thrown beyond].
    intros H. apply andb_prop in H as [Ht Hb]. apply negb_true_iff in Ht, Hb.
    apply orb_false_elim in Hb as [Hb Ho].
    destruct (indexing_plain _ _ _ _ Ht Ho) as (_ & _ & Hall & Hidx). cbn [index] in Hidx.
    split; [unfold plain; now rewrite Hthrown, Hb|].
    exists processedRow, keys. split; [reflexivity|]. split; [exact Hall|].
    rewrite Ht, Ho, Hb, Hidx. reflexivity.
Qed.

Lemma plain_from rows : forall st, plain (fold_left step rows st) = true -> plain st = true.
Proof.
  induction rows as [|row rows IH]; intros st H; [exact H|].
  cbn [fold_left] in H. apply IH in H. now apply step_plain in H.
Qed.

(** The records read before a plain dataset was complete made a plain
    dataset. *)
Lemma ingest_plain_app hs rows more :
  plain (ingest hs (rows ++ more)) = true -> plain (ingest hs rows) = true.
Proof. unfold ingest. rewrite fold_left_app. apply plain_from. Qed.

Lemma ingest_plain_counts hs rows :
  plain (ingest hs rows) = true ->
  length (rawDataStore (ingest hs rows)) = length rows
  /\ rowIndex (ingest hs rows) = length rows.
Proof.
  induction rows as [|row rows IH] using rev_ind; intros Hplain; [split; reflexivity|].
  rewrite ingest_snoc in *.
  destruct (step_plain _ _ Hplain) as (Hbefore & pr & keys & _ & _ & ->).
  destruct (IH Hbefore) as [Hlen Hidx].
  cbn [rawDataStore rowIndex]. rewrite !length_app, Hlen, Hidx. cbn [length]. lia.
Qed.

Lemma ingest_headers hs rows : headers (ingest hs rows) = hs.
Proof.
  induction rows as [|row rows IH] using rev_ind; [reflexivity|].
  rewrite ingest_snoc. unfold step. destruct (thrown _); [exact IH|].
  destruct (expandCustomMetrics _ _) as [processedRow keys]. exact IH.
Qed.

(** *** The filter loop *)





(** The rows filed under accepted values that are ordinary names, in a
    field of an ordinary name. *)
Lemma lookupValues_plain idx key vals :
  inherited key = false ->
  forallb (fun v => negb (inherited v)) vals = true ->
  lookupValues idx key vals = Some (flat_map (indexed idx key) vals).
Proof.
  intros Hkey. induction vals as [|val vals IH]; intros Hvals; [reflexivity|].
  cbn [forallb] in Hvals. apply andb_prop in Hvals as [Hval Hrest].
  apply negb_true_iff in Hval.
  cbn [lookupValues flat_map]. rewrite (IH Hrest).
  unfold indexedRows, indexed.
  destruct (idx !! key) as [byValue|]; cbn [mbind option_bind default from_option id].
  - destruct (byValue !! val) as [found|]; cbn [default from_option id];
      [reflexivity | now rewrite Hval].
  - now rewrite Hkey.
Qed.

Lemma plainFilters_cons key v rest :
  plainFilters ((key, v) :: rest) = true ->
  definedRange [(key, v)] = true /\ plainEntry (key, v) = true
  /\ plainFilters rest = true.
Proof.
  unfold plainFilters, definedRange. cbn [forallb]. rewrite andb_true_r.
  intros H. apply andb_prop in H as [Hd Hp].
  apply andb_prop in Hd as [Hd1 Hd2]. apply andb_prop in Hp as [Hp1 Hp2].
  rewrite Hd1, Hd2, Hp1, Hp2. auto.
Qed.

(** One turn of the filter loop on an entry of ordinary names keeps the
    candidates that the entry lets through. *)
Lemma filterLoop_turn_accepts dateParse st key v rest c cs :
  inStore (rawDataStore st) (c :: cs) ->
  definedRange [(key, v)] = true ->
  plainEntry (key, v) = true ->
  filterLoop dateParse st ((key, v) :: rest) (c :: cs)
  = filterLoop dateParse st rest
      (List.filter (accepts dateParse st (key, v)) (c :: cs)).
Proof.
  intros Hin Hdef Hplain.
  assert (Hrow : forall i, In i (c :: cs) -> exists row, rawDataStore st !! i = Some row)
    by (intros i; apply inStore_row, Hin).
  assert (Hscan : forall keep q,
    (forall i row, rawDataStore st !! i = Some row -> q i = keep row) ->
    scanRows (rawDataStore st) keep (c :: cs)
      ≫= (fun found => filterLoop dateParse st rest (List.filter (hasId found) (c :: cs)))
    = filterLoop dateParse st rest (List.filter q (c :: cs))).
  { intros keep q Hq. rewrite (scanRows_filter _ keep _ Hin). cbn [mbind option_bind].
    rewrite intersect_with_filtered. f_equal. apply filter_ext_in.
    intros i Hi. destruct (Hrow i Hi) as [row Hr]. rewrite Hr. symmetry. now apply Hq. }
  assert (Hkeep : forall q, (forall i, In i (c :: cs) -> q i = true) ->
    filterLoop dateParse st rest (c :: cs)
    = filterLoop dateParse st rest (List.filter q (c :: cs))).
  { intros q Hq. now rewrite filter_all. }
  assert (Hdrop : forall q, (forall i, In i (c :: cs) -> q i = false) ->
    filterLoop dateParse st rest (List.filter (hasId []) (c :: cs))
    = filterLoop dateParse st rest (List.filter q (c :: cs))).
  { intros q Hq. f_equal. apply filter_ext_in. intros i Hi. now rewrite Hq. }
  unfold plainEntry in Hplain. cbn [fst snd] in Hplain.
  cbn [filterLoop]. unfold accepts. cbn [fst snd].
  destruct (String.eqb key "dateRange") eqn:Hkey.
  - destruct v as [start finish|accepted|needle|].
    + destruct (dateBound dateParse start "T00:00:00Z") as [sd|] eqn:Hs;
        destruct (dateBound dateParse finish "T23:59:59Z") as [ed|] eqn:He.
      * apply Hscan. intros i row ->. reflexivity.
      * apply Hscan. intros i row ->. reflexivity.
      * apply Hscan. intros i row ->. reflexivity.
      * apply Hkeep. intros i Hi. destruct (Hrow i Hi) as [row ->]. reflexivity.
    + apply Hkeep. intros i Hi. destruct (Hrow i Hi) as [row ->]. reflexivity.
    + apply Hkeep. intros i Hi. destruct (Hrow i Hi) as [row ->]. reflexivity.
    + apply String.eqb_eq in Hkey. subst key. discriminate Hdef.
  - destruct v as [start finish|[|val vals]|[|ch needle]|].
    + apply Hdrop. intros i Hi. destruct (Hrow i Hi) as [row ->]. reflexivity.
    + apply Hdrop. intros i Hi. destruct (Hrow i Hi) as [row ->]. reflexivity.
    + apply andb_prop in Hplain as [Hk Hvals]. apply negb_true_iff in Hk.
      rewrite (lookupValues_plain _ _ _ Hk Hvals).
      cbn [mbind option_bind default from_option id].
      f_equal. apply filter_ext_in. intros i Hi. destruct (Hrow i Hi) as [row ->]. reflexivity.
    + apply Hdrop. intros i Hi. destruct (Hrow i Hi) as [row ->]. reflexivity.
    + apply negb_true_iff in Hplain. rewrite Hplain.
      apply Hscan. intros i row ->. reflexivity.
    + apply Hdrop. intros i Hi. destruct (Hrow i Hi) as [row ->]. reflexivity.
Qed.

Lemma filterLoop_selected dateParse st filters : forall ids,
  inStore (rawDataStore st) ids ->
  plainFilters filters = true ->
  filterLoop dateParse st filters ids
  = Some (List.filter (fun i => forallb (fun entry => accepts dateParse st entry i) filters) ids).
Proof.
  induction filters as [|[key v] rest IH]; intros ids Hin Hdef.
  - cbn [filterLoop forallb]. now rewrite filter_all.
  - destruct ids as [|c cs]; [reflexivity|].
    apply plainFilters_cons in Hdef as (Hhere & Hentry & Hrest).
    rewrite (filterLoop_turn_accepts dateParse st key v rest c cs Hin Hhere Hentry).
    rewrite IH by (try apply inStore_filter; assumption).
    rewrite filter_and. reflexivity.
Qed.

(** On filter objects made of ordinary names [applyFilters] returns the
    rows that every entry lets through. *)
Lemma applyFilters_selected dateParse st filters :
  totalRows st = length (rawDataStore st) ->
  plainFilters filters = true ->
  applyFilters dateParse st filters = Some (selected dateParse st filters).
Proof.
  intros Hrows Hdef. unfold applyFilters, selected. apply filterLoop_selected; [|exact Hdef].
  rewrite Hrows. apply inStore_seq.
Qed.




(** *** Ingestion: custom metrics and the inverted index *)

Lemma has_In l x : has l x = true <-> In x l.
Proof.
  unfold has. rewrite existsb_exists. split.
  - intros (y & Hy & Heq). apply String.eqb_eq in Heq. now subst.
  - intros H. exists x. split; [exact H | apply String.eqb_refl].
Qed.

Lemma setAdd_In l x y : In y (setAdd l x) <-> In y l \/ y = x.
Proof.
  unfold setAdd. destruct (has l x) eqn:H.
  - apply has_In in H. split; [auto|]. intros [Hy | Hy]; [exact Hy | now subst].
  - rewrite in_app_iff. simpl. intuition.
Qed.

Lemma dedup_from_In l : forall acc x,
  In x (fold_left setAdd l acc) <-> In x acc \/ In x l.
Proof.
  induction l as [|y l IH]; intros acc x; simpl; [tauto|].
  rewrite IH, setAdd_In. intuition.
Qed.

Lemma dedup_In l x : In x (dedup l) <-> In x l.
Proof. unfold dedup. rewrite dedup_from_In. simpl. tauto. Qed.

Lemma filed_keeps row rid idx header h v i :
  In i (indexed idx h v) -> In i (indexed (filed row rid idx header) h v).
Proof.
  unfold filed, indexed. intros Hi.
  destruct (getField row _) as [[|c value]|]; try exact Hi.
  destruct (decide (trim header = h)) as [<-|Hne].
  - rewrite lookup_insert_eq. cbn [mbind option_bind].
    destruct (decide (String c value = v)) as [<-|Hv].
    + rewrite lookup_insert_eq. cbn [default]. apply in_or_app. left.
      destruct (idx !! trim header) as [m|]; cbn in *; [exact Hi | destruct Hi].
    + rewrite lookup_insert_ne by exact Hv.
      destruct (idx !! trim header) as [m|]; cbn in *; [exact Hi | destruct Hi].
  - rewrite lookup_insert_ne by exact Hne. exact Hi.
Qed.

Lemma filed_adds row rid idx header c value :
  getField row (toLowerCase (trim header)) = Some (String c value) ->
  In rid (indexed (filed row rid idx header) (trim header) (String c value)).
Proof.
  unfold filed, indexed. intros ->.
  rewrite lookup_insert_eq. cbn [mbind option_bind]. rewrite lookup_insert_eq.
  cbn [default]. apply in_or_app. right. left. reflexivity.
Qed.

Lemma fileds_keep row rid keys : forall idx h v i,
  In i (indexed idx h v) ->
  In i (indexed (fold_left (filed row rid) keys idx) h v).
Proof.
  induction keys as [|k keys IH]; intros idx h v i Hi; [exact Hi|].
  simpl. apply IH, filed_keeps, Hi.
Qed.

Lemma fileds_add row rid keys header c value : forall idx,
  In header keys ->
  getField row (toLowerCase (trim header)) = Some (String c value) ->
  In rid (indexed (fold_left (filed row rid) keys idx) (trim header) (String c value)).
Proof.
  induction keys as [|k keys IH]; intros idx Hin Hget; [destruct Hin|].
  simpl. destruct Hin as [Heq | Hin]; [subst k|].
  - apply fileds_keep, filed_adds, Hget.
  - apply IH; assumption.
Qed.











(** The record of the spec's example with a conversation id that names an
    inherited member. *)
Example constructorRecord_throws :
  thrown (ingest ["Conversation ID"; "Custom Metrics"] [constructorRecord]) = true
  /\ totalRows (ingest ["Conversation ID"; "Custom Metrics"] [constructorRecord]) = 1%nat
  /\ rowIndex (ingest ["Conversation ID"; "Custom Metrics"] [constructorRecord]) = 0%nat.
Proof. vm_compute. repeat split; reflexivity. Qed.



(** *** Evaluation on concrete inputs *)

Example statusData_filters :
  applyFilters noDates statusData [("Status", FList ["open"])] = Some [0%nat]
  /\ applyFilters noDates statusData [("status", FText "CLOSED")] = Some [1%nat]
  /\ applyFilters noDates statusData [("Status", FList [])] = Some []
  /\ applyFilters noDates statusData [("dateRange", FUndefined)] = None
  /\ applyFilters noDates statusData [("Status", FList ["toString"])] = None
  /\ applyFilters noDates statusData [("Nope", FList []); ("Status", FList ["toString"])]
     = Some [].
Proof. vm_compute. repeat split; reflexivity. Qed.




End WorkerProps.

(** ** The sweep-line summary *)

Module SweepProps.

Import JsString Worker.

(** *** Events as signed instants *)

Lemma applyEvent_delta c e : applyEvent c e = c + delta e.
Proof. unfold applyEvent, delta. destruct (type e); lia. Qed.

Lemma sweepStep_snd m c e : snd (sweepStep (m, c) e) = applyEvent c e.
Proof. unfold sweepStep, applyEvent. destruct (type e); reflexivity. Qed.

Lemma sweepStep_fst m c e :
  c <= m -> m <= fst (sweepStep (m, c) e) /\ applyEvent c e <= fst (sweepStep (m, c) e).
Proof.
  unfold sweepStep, applyEvent. intros H. destruct (type e); simpl.
  - destruct (m <? c + 1) eqn:Hlt; [apply Z.ltb_lt in Hlt | apply Z.ltb_ge in Hlt]; lia.
  - lia.
Qed.

Lemma sweepStep_pair m c e :
  sweepStep (m, c) e = (fst (sweepStep (m, c) e), applyEvent c e).
Proof. rewrite <- (sweepStep_snd m c e). destruct (sweepStep (m, c) e); reflexivity. Qed.

(** The maximum never decreases along the sweep. *)
Lemma sweep_max_mono l : forall m c,
  c <= m -> m <= fst (fold_left sweepStep l (m, c)).
Proof.
  induction l as [|e l IH]; intros m c H; cbn [fold_left]; [simpl; lia|].
  rewrite sweepStep_pair. destruct (sweepStep_fst m c e H) as [H1 H2].
  etransitivity; [exact H1 | apply IH, H2].
Qed.

(** The counter after the whole list. *)
Lemma sweep_counter l : forall m c,
  snd (fold_left sweepStep l (m, c)) = c + balance l.
Proof.
  induction l as [|e l IH]; intros m c; cbn [fold_left]; [simpl; lia|].
  rewrite sweepStep_pair, IH, applyEvent_delta. simpl. lia.
Qed.

(** *** The weighted sum, by parts *)

Lemma weightedSum_by_parts e rest : forall c,
  weightedSum c (e :: rest)
  = (c + balance (e :: rest)) * lastTime (time e) rest - c * time e - moment (e :: rest).
Proof.
  revert e. induction rest as [|next rest IH]; intros e c.
  - simpl. lia.
  - change (weightedSum c (e :: next :: rest))
      with (applyEvent c e * (time next - time e) + weightedSum (applyEvent c e) (next :: rest)).
    rewrite IH, applyEvent_delta.
    change (lastTime (time e) (next :: rest)) with (lastTime (time next) rest).
    change (balance (e :: next :: rest)) with (delta e + balance (next :: rest)).
    change (moment (e :: next :: rest)) with (delta e * time e + moment (next :: rest)).
    ring.
Qed.

(** With as many starts as ends the weighted sum is the signed sum of the
    instants, whatever the order of the events. *)
Lemma weightedSum_balanced l : balance l = 0 -> weightedSum 0 l = - moment l.
Proof.
  destruct l as [|e rest]; intros H; [reflexivity|].
  rewrite weightedSum_by_parts, H. lia.
Qed.

(** On a sorted list the weighted sum is at most the final maximum times
    the span of the list. *)
Lemma weightedSum_bound rest : forall e m c,
  c <= m -> timeSorted (e :: rest) ->
  weightedSum c (e :: rest)
  <= fst (fold_left sweepStep (e :: rest) (m, c)) * (lastTime (time e) rest - time e).
Proof.
  induction rest as [|next rest IH]; intros e m c Hc Hs.
  - simpl. lia.
  - change (weightedSum c (e :: next :: rest))
      with (applyEvent c e * (time next - time e) + weightedSum (applyEvent c e) (next :: rest)).
    change (fold_left sweepStep (e :: next :: rest) (m, c))
      with (fold_left sweepStep (next :: rest) (sweepStep (m, c) e)).
    change (lastTime (time e) (next :: rest)) with (lastTime (time next) rest).
    rewrite sweepStep_pair.
    destruct (sweepStep_fst m c e Hc) as [_ Hle].
    destruct Hs as [Hgap Hs].
    specialize (IH next _ _ Hle Hs).
    pose proof (sweep_max_mono (next :: rest) _ _ Hle) as Hmono.
    set (M := fst (fold_left sweepStep (next :: rest) (fst (sweepStep (m, c) e), applyEvent c e))) in *.
    nia.
Qed.

(** *** The stable sort *)

Lemma insertEvent_sorted e l : timeSorted l -> timeSorted (insertEvent e l).
Proof.
  induction l as [|y l IH]; intros Hs; [exact I|].
  cbn [insertEvent]. destruct (time e <=? time y) eqn:Hle.
  - apply Z.leb_le in Hle. split; assumption.
  - apply Z.leb_gt in Hle.
    destruct l as [|z l].
    + simpl. split; [lia | exact I].
    + destruct Hs as [Hyz Hs]. specialize (IH Hs).
      cbn [insertEvent] in *. destruct (time e <=? time z) eqn:Hez.
      * split; [lia | exact IH].
      * split; [exact Hyz | exact IH].
Qed.

Lemma sortEvents_sorted l : timeSorted (sortEvents l).
Proof. induction l as [|e l IH]; [exact I | apply insertEvent_sorted, IH]. Qed.

Lemma insertEvent_balance e l : balance (insertEvent e l) = delta e + balance l.
Proof.
  induction l as [|y l IH]; [reflexivity|].
  cbn [insertEvent]. destruct (time e <=? time y); [reflexivity|].
  simpl in *. rewrite IH. lia.
Qed.

Lemma insertEvent_moment e l : moment (insertEvent e l) = delta e * time e + moment l.
Proof.
  induction l as [|y l IH]; [reflexivity|].
  cbn [insertEvent]. destruct (time e <=? time y); [reflexivity|].
  simpl in *. rewrite IH. lia.
Qed.

Lemma insertEvent_Forall (P : Event -> Prop) e l :
  P e -> List.Forall P l -> List.Forall P (insertEvent e l).
Proof.
  intros He. induction 1 as [|y l Hy Hl IH]; [repeat constructor; exact He|].
  cbn [insertEvent]. destruct (time e <=? time y); repeat constructor; assumption.
Qed.

Lemma sortEvents_balance l : balance (sortEvents l) = balance l.
Proof.
  induction l as [|e l IH]; [reflexivity|].
  simpl. rewrite insertEvent_balance, IH. reflexivity.
Qed.

Lemma sortEvents_moment l : moment (sortEvents l) = moment l.
Proof.
  induction l as [|e l IH]; [reflexivity|].
  simpl. rewrite insertEvent_moment, IH. reflexivity.
Qed.

Lemma sortEvents_Forall (P : Event -> Prop) l :
  List.Forall P l -> List.Forall P (sortEvents l).
Proof.
  induction 1 as [|e l He Hl IH]; [constructor | apply insertEvent_Forall; assumption].
Qed.

Lemma specInsert_balance e l : balance (specInsert e l) = delta e + balance l.
Proof.
  induction l as [|y l IH]; [reflexivity|].
  cbn [specInsert]. destruct (specLeb e y); [reflexivity|].
  simpl in *. rewrite IH. lia.
Qed.

Lemma specInsert_moment e l : moment (specInsert e l) = delta e * time e + moment l.
Proof.
  induction l as [|y l IH]; [reflexivity|].
  cbn [specInsert]. destruct (specLeb e y); [reflexivity|].
  simpl in *. rewrite IH. lia.
Qed.

Lemma specSort_balance l : balance (specSort l) = balance l.
Proof.
  induction l as [|e l IH]; [reflexivity|].
  simpl. rewrite specInsert_balance, IH. reflexivity.
Qed.

Lemma specSort_moment l : moment (specSort l) = moment l.
Proof.
  induction l as [|e l IH]; [reflexivity|].
  simpl. rewrite specInsert_moment, IH. reflexivity.
Qed.

(** Stability: the sort keeps the events of one instant in their order. *)
Lemma insertEvent_at_instant t e l :
  at_instant t (insertEvent e l) = at_instant t (e :: l).
Proof.
  induction l as [|y l IH]; [reflexivity|].
  cbn [insertEvent]. destruct (time e <=? time y) eqn:Hle; [reflexivity|].
  apply Z.leb_gt in Hle. unfold at_instant in *. simpl in *. rewrite IH.
  destruct (time e =? t) eqn:He, (time y =? t) eqn:Hy; try reflexivity.
  apply Z.eqb_eq in He, Hy. lia.
Qed.

Lemma sortEvents_stable t l : at_instant t (sortEvents l) = at_instant t l.
Proof.
  induction l as [|e l IH]; [reflexivity|].
  simpl. rewrite insertEvent_at_instant. unfold at_instant in *. simpl. now rewrite IH.
Qed.

(** *** The counter along the sweep *)

Ltac sweep_cbn := cbn [neverNegative insertEvent delta type time].

Lemma insert_end_raises t l : forall c,
  0 <= c -> neverNegative c l ->
  neverNegative (c + 1) (insertEvent (mkEvent t EndEvent) l).
Proof.
  induction l as [|y l IH]; intros c Hc Hn.
  - sweep_cbn. split; [lia | exact I].
  - sweep_cbn. destruct (t <=? time y).
    + sweep_cbn. replace (c + 1 + -1) with c by lia. split; [lia | exact Hn].
    + destruct Hn as [Hy Hn]. cbn [neverNegative].
      replace (c + 1 + delta y) with (c + delta y + 1) by lia.
      split; [lia | apply IH; assumption].
Qed.

Lemma insert_pair_neverNegative s e l : forall c,
  s <= e -> 0 <= c -> neverNegative c l ->
  neverNegative c (insertEvent (mkEvent s StartEvent) (insertEvent (mkEvent e EndEvent) l)).
Proof.
  induction l as [|y l IH]; intros c Hse Hc Hn.
  - sweep_cbn.
    destruct (s <=? e) eqn:Hle; [|apply Z.leb_gt in Hle; lia].
    sweep_cbn. repeat split; lia.
  - sweep_cbn. destruct (e <=? time y) eqn:Hey.
    + sweep_cbn.
      destruct (s <=? e) eqn:Hle; [|apply Z.leb_gt in Hle; lia].
      sweep_cbn. replace (c + 1 + -1) with c by lia.
      split; [lia|]. split; [lia|]. exact Hn.
    + sweep_cbn. destruct Hn as [Hy Hn].
      destruct (s <=? time y) eqn:Hsy.
      * sweep_cbn. replace (c + 1 + delta y) with (c + delta y + 1) by lia.
        repeat split; try lia. apply insert_end_raises; assumption.
      * cbn [neverNegative]. split; [exact Hy | apply IH; assumption].
Qed.

Lemma neverNegative_prefix l : forall c k,
  0 <= c -> neverNegative c l -> 0 <= c + balance (take k l).
Proof.
  induction l as [|e l IH]; intros c k Hc Hn.
  - destruct k; simpl; lia.
  - destruct k as [|k]; [simpl; lia|].
    destruct Hn as [He Hn]. specialize (IH _ k He Hn).
    simpl. simpl in IH. lia.
Qed.

(** *** What [collect] gathers *)

Lemma sumDur_app a b : sumDur (a ++ b) = sumDur a + sumDur b.
Proof. induction a as [|p a IH]; simpl; [reflexivity | rewrite IH; lia]. Qed.

Lemma Described_noEvents : Described noEvents [].
Proof.
  split; [reflexivity|]. split; [reflexivity|]. left. repeat split.
Qed.

Lemma Described_add c pairs s e :
  Described c pairs ->
  Described
    {| events := (events c ++ [mkEvent s StartEvent; mkEvent e EndEvent])%list;
       totalHandleTimeMinutes :=
         (totalHandleTimeMinutes c + inject_Z (e - s) / inject_Z (1000 * 60))%Q;
       firstEventTime :=
         match firstEventTime c with
         | Some f => if s <? f then Some s else Some f
         | None => Some s
         end;
       lastEventTime :=
         match lastEventTime c with
         | Some l => if l <? e then Some e else Some l
         | None => Some e
         end |}
    (pairs ++ [(s, e)]).
Proof.
  intros (Hev & Htot & Hrange). split; [|split].
  - cbn [events]. rewrite Hev. unfold eventsOf. rewrite flat_map_app. reflexivity.
  - cbn [totalHandleTimeMinutes]. rewrite Htot, sumDur_app.
    change (1000 * 60) with 60000. cbn [sumDur fold_right fst snd].
    rewrite Z.add_0_r, inject_Z_plus. field.
  - right. split; [destruct pairs; discriminate|].
    cbn [firstEventTime lastEventTime].
    destruct Hrange as [(-> & -> & ->) | (_ & f & l & -> & -> & Hall)].
    + exists s, e. repeat split. repeat constructor; simpl; lia.
    + exists (if s <? f then s else f), (if l <? e then e else l).
      split; [destruct (s <? f); reflexivity|].
      split; [destruct (l <? e); reflexivity|].
      apply List.Forall_app. split.
      * eapply List.Forall_impl; [|exact Hall]. intros p [Hp1 Hp2].
        destruct (s <? f) eqn:H1; destruct (l <? e) eqn:H2;
          try apply Z.ltb_lt in H1; try apply Z.ltb_lt in H2; lia.
      * repeat constructor; simpl;
          [destruct (s <? f) eqn:H1; [lia | apply Z.ltb_ge in H1; lia]
          |destruct (l <? e) eqn:H2; [lia | apply Z.ltb_ge in H2; lia]].
Qed.

(** [collect] goes through when every row id has a row; it keeps the
    description, and the order within the spans when the rows have it. *)
Lemma collect_described store rowIndexes : forall acc pairs,
  Described acc pairs ->
  List.Forall (fun i => is_Some (store !! i)) rowIndexes ->
  exists c pairs',
    collect store rowIndexes acc = Some c /\ Described c pairs'
    /\ (allOrdered store rowIndexes = true ->
        List.Forall orderedPair pairs -> List.Forall orderedPair pairs').
Proof.
  induction rowIndexes as [|index rest IH]; intros acc pairs Hd Hall.
  - exists acc, pairs. split; [reflexivity|]. split; [exact Hd|]. auto.
  - inversion Hall as [|? ? [row Hrow] Hrest]; subst.
    cbn [collect allOrdered forallb]. rewrite Hrow. cbn [mbind option_bind].
    unfold collectRow, orderedRow, spanOf.
    destruct (parseDate (getField row "created")) as [s|];
      [destruct (parseDate (getField row "finished")) as [e|]|].
    + destruct (IH _ _ (Described_add acc pairs s e Hd) Hrest) as (c & pairs' & Hc & Hd' & Hord).
      exists c, pairs'. split; [exact Hc|]. split; [exact Hd'|].
      intros Hb Hp. apply andb_prop in Hb as [Hse Hb]. apply Z.leb_le in Hse.
      apply Hord; [exact Hb|]. apply List.Forall_app. split; [exact Hp|].
      repeat constructor. exact Hse.
    + destruct (IH _ _ Hd Hrest) as (c & pairs' & Hc & Hd' & Hord).
      exists c, pairs'. split; [exact Hc|]. split; [exact Hd'|].
      intros Hb Hp. apply andb_prop in Hb as [_ Hb]. auto.
    + destruct (IH _ _ Hd Hrest) as (c & pairs' & Hc & Hd' & Hord).
      exists c, pairs'. split; [exact Hc|]. split; [exact Hd'|].
      intros Hb Hp. apply andb_prop in Hb as [_ Hb]. auto.
Qed.

Lemma allOrdered_inStore store rowIndexes :
  allOrdered store rowIndexes = true ->
  List.Forall (fun i => is_Some (store !! i)) rowIndexes.
Proof.
  unfold allOrdered. rewrite forallb_forall, List.Forall_forall.
  intros H i Hi. specialize (H i Hi). destruct (store !! i); [eauto | discriminate].
Qed.

Lemma eventsOf_balance pairs : balance (eventsOf pairs) = 0.
Proof. induction pairs as [|p pairs IH]; simpl in *; [reflexivity | rewrite IH; reflexivity]. Qed.

Lemma eventsOf_moment pairs : moment (eventsOf pairs) = - sumDur pairs.
Proof.
  induction pairs as [|p pairs IH]; [reflexivity|].
  unfold eventsOf in *. simpl in *. rewrite IH. unfold delta. simpl. lia.
Qed.

Lemma Qle_bool_minutes z : Qle_bool (inject_Z z / inject_Z (1000 * 60)) 0 = (z <=? 0).
Proof. destruct z; reflexivity. Qed.

Lemma collect_inStore store rowIndexes : forall acc c,
  collect store rowIndexes acc = Some c ->
  List.Forall (fun i => is_Some (store !! i)) rowIndexes.
Proof.
  induction rowIndexes as [|index rest IH]; intros acc c H; [constructor|].
  cbn [collect] in H. destruct (store !! index) as [row|] eqn:Hrow; [|discriminate].
  constructor; [eauto | eapply IH; exact H].
Qed.

Lemma eventsOf_within f l pairs :
  List.Forall (fun p => f <= fst p /\ snd p <= l) pairs ->
  List.Forall orderedPair pairs ->
  List.Forall (fun e => f <= time e <= l) (eventsOf pairs).
Proof.
  induction 1 as [|p pairs [Hf Hl] _ IH]; intros Hord; [constructor|].
  inversion Hord as [|? ? Hp Hrest]; subst. unfold orderedPair in Hp.
  unfold eventsOf. simpl. repeat constructor; simpl; try lia. apply IH, Hrest.
Qed.

Lemma sumDur_nonneg pairs : List.Forall orderedPair pairs -> 0 <= sumDur pairs.
Proof.
  induction 1 as [|p pairs Hp _ IH]; simpl; [lia|]. unfold orderedPair in Hp. lia.
Qed.

Lemma lastTime_le l rest : forall d,
  d <= l -> List.Forall (fun e => time e <= l) rest -> lastTime d rest <= l.
Proof.
  induction rest as [|e rest IH]; intros d Hd Hall; [exact Hd|].
  inversion Hall; subst. simpl. apply IH; assumption.
Qed.

(** The sum of the durations is at most the peak found by the sweep times
    the covered duration. *)
Lemma sumDur_le_peak f l pairs :
  List.Forall (fun p => f <= fst p /\ snd p <= l) pairs ->
  List.Forall orderedPair pairs ->
  f <= l ->
  sumDur pairs <= fst (sweep (sortEvents (eventsOf pairs))) * (l - f).
Proof.
  intros Hrange Hord Hfl.
  pose proof (sortEvents_Forall _ _ (eventsOf_within f l pairs Hrange Hord)) as Hwithin.
  pose proof (sortEvents_sorted (eventsOf pairs)) as Hsorted.
  assert (Hsum : sumDur pairs = weightedSum 0 (sortEvents (eventsOf pairs))).
  { rewrite weightedSum_balanced.
    - rewrite sortEvents_moment, eventsOf_moment. lia.
    - rewrite sortEvents_balance. apply eventsOf_balance. }
  rewrite Hsum. unfold sweep.
  pose proof (sweep_max_mono (sortEvents (eventsOf pairs)) 0 0 (Z.le_refl 0)) as Hpeak.
  destruct (sortEvents (eventsOf pairs)) as [|e rest].
  - simpl in *. nia.
  - pose proof (weightedSum_bound rest e 0 0 (Z.le_refl 0) Hsorted) as Hb.
    inversion Hwithin as [|? ? He Hrest]; subst.
    assert (Hlast : lastTime (time e) rest <= l).
    { apply lastTime_le; [lia|]. eapply List.Forall_impl; [|exact Hrest].
      simpl. intros; lia. }
    set (M := fst (fold_left sweepStep (e :: rest) (0, 0))) in *.
    nia.
Qed.

(** The guarded quotient of [calculateSummary], from the integers behind it. *)
Lemma averageOf_quotient c f l total :
  firstEventTime c = Some f -> lastEventTime c = Some l ->
  (totalHandleTimeMinutes c == inject_Z total / inject_Z 60000)%Q ->
  f < l ->
  (averageOf c == inject_Z total / inject_Z (l - f))%Q.
Proof.
  intros Hf Hl Htot Hlt. unfold averageOf. rewrite Hf, Hl, Qle_bool_minutes.
  destruct (l - f <=? 0) eqn:Hle; [apply Z.leb_le in Hle; lia|].
  rewrite Htot. change (1000 * 60) with 60000. field.
  intros H. apply (inject_Z_injective (l - f) 0) in H. lia.
Qed.

(** *** The order of the sweep, the peak and the average *)

Example threeRecords_peak :
  peakConcurrency <$> calculateSummary threeRecords [0; 1; 2]%nat = Some 2.
Proof. vm_compute. reflexivity. Qed.

(** Back to back, the code finds a peak of 1; with starts applied first the
    same events give 2. *)
Example backToBack_peaks :
  (fun c => (fst (sweep (sortEvents (events c))), fst (sweep (specSort (events c)))))
    <$> collect (rawDataStore backToBack) [0; 1]%nat noEvents
  = Some (1, 2).
Proof. vm_compute. reflexivity. Qed.

(** C3, as stated, fails: for two conversations back to back the sorted
    events have the end of the first before the start of the second, both
    at 00:10. *)
Lemma ends_before_starts_at_same_instant :
  exists c, collect (rawDataStore backToBack) [0; 1]%nat noEvents = Some c
            /\ ~ startsFirst (sortEvents (events c)).
Proof.
  eexists. split; [vm_compute; reflexivity|].
  intros H.
  apply (H 1%nat 2%nat (mkEvent 1704067800000 EndEvent) (mkEvent 1704067800000 StartEvent));
    try reflexivity; [lia | split; reflexivity].
Qed.

(** C3, amended.  The events are ordered by time alone, events of one
    instant keep the order in which they were emitted, and when no row
    finishes before it was created the running counter is non-negative
    after every event of the sweep. *)
Theorem sweep_order_and_counter st rowIndexes :
  allOrdered (rawDataStore st) rowIndexes = true ->
  exists c, collect (rawDataStore st) rowIndexes noEvents = Some c
    /\ timeSorted (sortEvents (events c))
    /\ (forall t, at_instant t (sortEvents (events c)) = at_instant t (events c))
    /\ (forall k, 0 <= snd (sweep (take k (sortEvents (events c))))).
Proof.
  intros Hord.
  destruct (collect_described (rawDataStore st) rowIndexes noEvents [] Described_noEvents
              (allOrdered_inStore _ _ Hord)) as (c & pairs & Hc & (Hev & _ & _) & Hpairs).
  specialize (Hpairs Hord (List.Forall_nil _)).
  exists c. split; [exact Hc|]. split; [apply sortEvents_sorted|].
  split; [intros t; apply sortEvents_stable|].
  intros k. unfold sweep. rewrite sweep_counter, Hev.
  apply neverNegative_prefix; [lia|].
  clear Hev Hc. induction Hpairs as [|[s e] pairs Hp _ IH]; [exact I|].
  unfold eventsOf in *. simpl.
  apply insert_pair_neverNegative; [exact Hp | lia | exact IH].
Qed.

(** C4, as stated, fails: with a row finished before it was created the
    average comes out negative. *)
Lemma average_negative_with_reversed_row :
  exists s, calculateSummary withReversed [0; 1]%nat = Some s
            /\ ~ (0 <= avgConcurrency s /\ avgConcurrency s <= inject_Z (peakConcurrency s))%Q.
Proof.
  eexists. split; [vm_compute; reflexivity|].
  intros [H _]. vm_compute in H. apply H. reflexivity.
Qed.

(** C4, amended.  For row ids whose rows never finish before they were
    created, the summary has peak >= average >= 0. *)
Theorem peak_bounds_average st rowIndexes :
  allOrdered (rawDataStore st) rowIndexes = true ->
  exists s, calculateSummary st rowIndexes = Some s
    /\ (0 <= avgConcurrency s /\ avgConcurrency s <= inject_Z (peakConcurrency s))%Q.
Proof.
  intros Hord.
  destruct (collect_described (rawDataStore st) rowIndexes noEvents [] Described_noEvents
              (allOrdered_inStore _ _ Hord)) as (c & pairs & Hc & (Hev & Htot & Hrange) & Hpairs).
  specialize (Hpairs Hord (List.Forall_nil _)).
  assert (Hempty : (0 <= avgConcurrency emptySummary
                    /\ avgConcurrency emptySummary <= inject_Z (peakConcurrency emptySummary))%Q).
  { split; apply Qle_refl. }
  unfold calculateSummary. destruct rowIndexes as [|index rest]; [eauto|].
  rewrite Hc. cbn [fmap option_fmap option_map]. eexists. split; [reflexivity|].
  unfold summarise. destruct (events c) as [|e0 evs] eqn:Hevents; [exact Hempty|].
  cbn [avgConcurrency peakConcurrency]. rewrite Hev.
  destruct Hrange as [(-> & _) | (_ & f & l & Hf & Hl & Hall)]; [discriminate Hev|].
  pose proof (sweep_max_mono (sortEvents (eventsOf pairs)) 0 0 (Z.le_refl 0)) as Hpeak.
  fold (sweep (sortEvents (eventsOf pairs))) in Hpeak.
  destruct (Z_lt_le_dec f l) as [Hlt|Hge].
  - rewrite (averageOf_quotient c f l (sumDur pairs) Hf Hl Htot Hlt).
    pose proof (sumDur_nonneg pairs Hpairs) as Hnonneg.
    pose proof (sumDur_le_peak f l pairs Hall Hpairs ltac:(lia)) as Hle.
    assert (Hpos : (0 < inject_Z (l - f))%Q).
    { change 0%Q with (inject_Z 0). rewrite <- Zlt_Qlt. lia. }
    split.
    + apply Qle_shift_div_l; [exact Hpos|]. rewrite Qmult_0_l.
      change 0%Q with (inject_Z 0). rewrite <- Zle_Qle. exact Hnonneg.
    + apply Qle_shift_div_r; [exact Hpos|].
      rewrite <- inject_Z_mult, <- Zle_Qle. exact Hle.
  - unfold averageOf. rewrite Hf, Hl, Qle_bool_minutes.
    destruct (l - f <=? 0) eqn:Hb; [|apply Z.leb_gt in Hb; lia].
    split; [apply Qle_refl|].
    change 0%Q with (inject_Z 0). rewrite <- Zle_Qle. exact Hpeak.
Qed.

Lemma spansOf_cons store index rest :
  spansOf store (index :: rest)
  = match store !! index ≫= spanOf with
    | Some p => p :: spansOf store rest
    | None => spansOf store rest
    end.
Proof. reflexivity. Qed.

Lemma collectRow_span acc row :
  events (collectRow acc row)
  = (events acc ++ match spanOf row with Some p => pairEvents p | None => [] end)%list.
Proof.
  unfold collectRow, spanOf.
  destruct (parseDate (getField row "created")) as [s|];
    [destruct (parseDate (getField row "finished")) as [e|]|];
    cbn [events]; try reflexivity; now rewrite app_nil_r.
Qed.

Lemma collect_spans store rowIndexes : forall acc c,
  collect store rowIndexes acc = Some c ->
  events c = (events acc ++ eventsOf (spansOf store rowIndexes))%list.
Proof.
  induction rowIndexes as [|index rest IH]; intros acc c Hc.
  - injection Hc as <-. cbn. now rewrite app_nil_r.
  - cbn [collect] in Hc. rewrite spansOf_cons.
    destruct (store !! index) as [row|]; [|discriminate]. cbn [mbind option_bind] in *.
    rewrite (IH _ _ Hc), collectRow_span.
    destruct (spanOf row) as [p|]; [|now rewrite app_nil_r].
    now rewrite <- app_assoc.
Qed.

Lemma minimum_snoc l x :
  minimum (l ++ [x])
  = Some (match minimum l with Some m => Z.min m x | None => x end).
Proof.
  destruct l as [|y l]; [reflexivity|]. cbn [app minimum]. f_equal.
  induction l as [|z l IH]; cbn [app fold_right]; [apply Z.min_comm|].
  rewrite IH. apply Z.min_assoc.
Qed.

Lemma maximum_snoc l x :
  maximum (l ++ [x])
  = Some (match maximum l with Some m => Z.max m x | None => x end).
Proof.
  destruct l as [|y l]; [reflexivity|]. cbn [app maximum]. f_equal.
  induction l as [|z l IH]; cbn [app fold_right]; [apply Z.max_comm|].
  rewrite IH. apply Z.max_assoc.
Qed.

(** What the first loop of [calculateSummary] holds at its end, told from
    the included records: their events, the sum of their durations, their
    earliest start and their latest end. *)
Lemma collect_gathers store rowIndexes : forall acc c starts ends,
  collect store rowIndexes acc = Some c ->
  firstEventTime acc = minimum starts ->
  lastEventTime acc = maximum ends ->
  (totalHandleTimeMinutes c
   == totalHandleTimeMinutes acc
      + inject_Z (sumDur (spansOf store rowIndexes)) / inject_Z 60000)%Q
  /\ firstEventTime c = minimum (starts ++ (fst <$> spansOf store rowIndexes))
  /\ lastEventTime c = maximum (ends ++ (snd <$> spansOf store rowIndexes)).
Proof.
  induction rowIndexes as [|index rest IH]; intros acc c starts ends Hc Hfirst Hlast.
  - injection Hc as <-. cbn [spansOf omap list_omap fmap list_fmap sumDur fold_right].
    rewrite !app_nil_r. split; [|auto]. unfold Qdiv. rewrite Qmult_0_l, Qplus_0_r. reflexivity.
  - cbn [collect] in Hc. rewrite spansOf_cons.
    destruct (store !! index) as [row|]; [|discriminate]. cbn [mbind option_bind] in *.
    unfold collectRow in Hc. unfold spanOf.
    destruct (parseDate (getField row "created")) as [s|];
      [destruct (parseDate (getField row "finished")) as [e|]|];
      try (apply (IH _ _ _ _ Hc Hfirst Hlast)).
    destruct (IH _ _ (starts ++ [s])%list (ends ++ [e])%list Hc) as (Htot & Hf & Hl).
    + cbn [firstEventTime]. rewrite minimum_snoc, <- Hfirst.
      destruct (firstEventTime acc) as [f|]; [|reflexivity].
      destruct (s <? f) eqn:Hlt; f_equal;
        [apply Z.ltb_lt in Hlt | apply Z.ltb_ge in Hlt]; lia.
    + cbn [lastEventTime]. rewrite maximum_snoc, <- Hlast.
      destruct (lastEventTime acc) as [l|]; [|reflexivity].
      destruct (l <? e) eqn:Hlt; f_equal;
        [apply Z.ltb_lt in Hlt | apply Z.ltb_ge in Hlt]; lia.
    + cbn [fmap list_fmap fst snd]. rewrite <- !app_assoc in Hf, Hl.
      split; [|split; [exact Hf | exact Hl]].
      rewrite Htot. cbn [totalHandleTimeMinutes].
      change (sumDur ((s, e) :: spansOf store rest))
        with ((e - s) + sumDur (spansOf store rest)).
      change (1000 * 60) with 60000. rewrite inject_Z_plus. field.
Qed.

(** C5, as stated, fails: for a single row finished before it was created
    the code's guard gives 0 while the spec's quotient is 1. *)
Lemma average_differs_on_reversed_row :
  spansOf (rawDataStore onlyReversed) [0]%nat <> []
  /\ exists s, calculateSummary onlyReversed [0]%nat = Some s
               /\ ~ (avgConcurrency s
                     == specAvgConcurrency (rawDataStore onlyReversed) [0]%nat)%Q.
Proof.
  split; [vm_compute; discriminate|].
  eexists. split; [vm_compute; reflexivity|].
  intros H. vm_compute in H. discriminate H.
Qed.

(** C5, amended.  For row ids that all have a row, whenever the latest end
    of the included records is later than their earliest start, the average
    of the code is the sum of the durations of these records over the
    covered duration, and equals the spec's sweep-line average (the
    accumulated [counter * durationToNextEvent] over the covered
    duration). *)
Theorem average_refines_sweep st rowIndexes earliest latest :
  inStore (rawDataStore st) rowIndexes ->
  earliestStart (spansOf (rawDataStore st) rowIndexes) = Some earliest ->
  latestEnd (spansOf (rawDataStore st) rowIndexes) = Some latest ->
  earliest < latest ->
  exists s, calculateSummary st rowIndexes = Some s
    /\ (avgConcurrency s
        == inject_Z (sumDur (spansOf (rawDataStore st) rowIndexes))
           / inject_Z (latest - earliest))%Q
    /\ (avgConcurrency s == specAvgConcurrency (rawDataStore st) rowIndexes)%Q.
Proof.
  intros Hin Hearliest Hlatest Hlt.
  assert (Hrows : List.Forall (fun i => is_Some (rawDataStore st !! i)) rowIndexes).
  { eapply List.Forall_impl; [|exact Hin]. intros i Hi. now apply lookup_lt_is_Some_2. }
  destruct (collect_described (rawDataStore st) rowIndexes noEvents [] Described_noEvents Hrows)
    as (c & _ & Hc & _ & _).
  pose proof (collect_spans _ _ _ _ Hc) as Hev. cbn [events noEvents app] in Hev.
  destruct (collect_gathers _ _ _ _ [] [] Hc eq_refl eq_refl) as (Htot & Hf & Hl).
  cbn [app totalHandleTimeMinutes noEvents] in Htot, Hf, Hl. rewrite Qplus_0_l in Htot.
  unfold earliestStart in Hearliest. unfold latestEnd in Hlatest.
  rewrite Hearliest in Hf. rewrite Hlatest in Hl.
  set (spans := spansOf (rawDataStore st) rowIndexes) in *.
  pose proof (averageOf_quotient c earliest latest (sumDur spans) Hf Hl Htot Hlt) as Havg.
  unfold calculateSummary.
  destruct rowIndexes as [|index rest]; [discriminate Hearliest|].
  rewrite Hc. cbn [fmap option_fmap option_map]. eexists. split; [reflexivity|].
  unfold summarise. rewrite Hev.
  destruct (eventsOf spans) as [|e0 evs] eqn:Hevents.
  - destruct spans; [discriminate Hearliest | discriminate Hevents].
  - cbn [avgConcurrency]. split; [exact Havg|]. rewrite Havg.
    unfold specAvgConcurrency. fold spans. unfold earliestStart, latestEnd.
    rewrite Hearliest, Hlatest, Hevents, <- Hevents.
    rewrite weightedSum_balanced.
    + rewrite specSort_moment, eventsOf_moment, Z.opp_involutive. reflexivity.
    + rewrite specSort_balance. apply eventsOf_balance.
Qed.

Lemma sweep_order_and_counter_witness :
  exists c, collect (rawDataStore threeRecords) [0; 1; 2]%nat noEvents = Some c
    /\ timeSorted (sortEvents (events c))
    /\ (forall t, at_instant t (sortEvents (events c)) = at_instant t (events c))
    /\ (forall k, 0 <= snd (sweep (take k (sortEvents (events c))))).
Proof.
  apply (sweep_order_and_counter threeRecords [0; 1; 2]%nat).
  vm_compute. reflexivity.
Defined.

Lemma peak_bounds_average_witness :
  exists s, calculateSummary threeRecords [0; 1; 2]%nat = Some s
    /\ (0 <= avgConcurrency s /\ avgConcurrency s <= inject_Z (peakConcurrency s))%Q.
Proof.
  apply (peak_bounds_average threeRecords [0; 1; 2]%nat).
  vm_compute. reflexivity.
Defined.

Lemma average_refines_sweep_witness :
  exists s, calculateSummary threeRecords [0; 1; 2]%nat = Some s
    /\ (avgConcurrency s
        == inject_Z (sumDur (spansOf (rawDataStore threeRecords) [0; 1; 2]%nat))
           / inject_Z (1704069000000 - 1704067200000))%Q
    /\ (avgConcurrency s == specAvgConcurrency (rawDataStore threeRecords) [0; 1; 2]%nat)%Q.
Proof.
  apply (average_refines_sweep threeRecords [0; 1; 2]%nat 1704067200000 1704069000000).
  - vm_compute. repeat constructor.
  - vm_compute. reflexivity.
  - vm_compute. reflexivity.
  - lia.
Defined.

End SweepProps.

(** ** The scheduler *)

Module SchedulerProps.

Import Scheduler.

Lemma reading_mono ticks k from : from <= reading ticks k from.
Proof. unfold reading. lia. Qed.

(** The test [wait === 0] holds only when the interval has elapsed. *)
Lemma wait_zero delay elapsed :
  Qeq_bool (Qmax 0 (delay - inject_Z elapsed)) 0 = true ->
  (delay <= inject_Z elapsed)%Q.
Proof.
  intros H. apply Qeq_bool_iff in H. apply Q.max_l_iff in H.
  apply Qplus_le_l with (z := (- inject_Z elapsed)%Q).
  rewrite Qplus_opp_r. exact H.
Qed.

Lemma processQueue_inv cap delay pending : forall ticks w,
  queue (rq w) = pending ->
  Inv cap delay w -> Inv cap delay (processQueue pending ticks w).
Proof.
  induction pending as [|fn rest IH]; intros ticks w Hq Hinv; [exact Hinv|].
  cbn [processQueue].
  destruct Hinv as [Hcap Hdelay Hcount Hbound Hspaced Hlast].
  destruct (activeCount (rq w) <? maxConcurrency (rq w)) eqn:Hslot; cbn [andb].
  - destruct (Qeq_bool _ 0) eqn:Hwait.
    + apply IH; [reflexivity|].
      apply Z.ltb_lt in Hslot. apply wait_zero in Hwait. rewrite Hdelay in Hwait.
      pose proof (reading_mono ticks 1 (reading ticks 0 (clock w))) as Hmono.
      constructor; cbn [rq maxConcurrency minDelay activeCount inFlight lastRequestTime];
        try assumption.
      * cbn [length]. lia.
      * lia.
      * unfold instants in *. cbn [dispatched map snd].
        destruct (map snd (dispatched w)) as [|t more] eqn:Hlog; [exact I|].
        split; [|exact Hspaced].
        rewrite (Hlast t more eq_refl) in Hwait.
        eapply Qle_trans; [exact Hwait|]. rewrite <- Zle_Qle. lia.
      * unfold instants. cbn [dispatched map snd]. intros t more Heq.
        injection Heq as <- _. reflexivity.
    + constructor; assumption.
  - constructor; assumption.
Qed.

Lemma process_inv cap delay ticks w : Inv cap delay w -> Inv cap delay (process ticks w).
Proof. apply processQueue_inv. reflexivity. Qed.

Lemma removeFirst_length fn l :
  existsb (Nat.eqb fn) l = true -> S (length (removeFirst fn l)) = length l.
Proof.
  induction l as [|x l IH]; simpl; [discriminate|].
  destruct (Nat.eqb fn x); simpl; [reflexivity|]. intros H. now rewrite IH.
Qed.

Lemma step_inv cap delay w a : Inv cap delay w -> Inv cap delay (step w a).
Proof.
  intros Hinv. destruct a as [fn ticks|fn ticks|ticks]; cbn [step].
  - apply process_inv. destruct Hinv. constructor; assumption.
  - destruct (existsb (Nat.eqb fn) (inFlight w)) eqn:Hin; [|exact Hinv].
    apply process_inv. destruct Hinv as [Hcap Hdelay Hcount Hbound Hspaced Hlast].
    pose proof (removeFirst_length fn _ Hin) as Hlen.
    constructor; cbn [rq maxConcurrency minDelay activeCount inFlight lastRequestTime];
      try assumption; lia.
  - destruct (timers w); [exact Hinv|].
    apply process_inv. destruct Hinv. constructor; assumption.
Qed.

Lemma run_inv cap delay actions : forall w,
  Inv cap delay w -> Inv cap delay (run actions w).
Proof.
  induction actions as [|a actions IH]; intros w Hinv; [exact Hinv|].
  apply IH, step_inv, Hinv.
Qed.

Lemma start_inv cap delay t0 : 0 <= cap -> Inv cap delay (start cap delay t0).
Proof.
  intros Hcap. constructor; try reflexivity; try exact Hcap; try exact I.
  intros t rest H. discriminate H.
Qed.

(** C2.  Whatever is submitted to a fresh queue with cap [cap] and minimum
    interval [delay], and however tasks settle, timers fire and the clock
    advances, at most [cap] tasks are in flight and two consecutive
    dispatch instants are at least [delay] apart. *)
Theorem scheduler_cap_and_spacing cap delay t0 actions :
  0 <= cap ->
  Z.of_nat (length (inFlight (run actions (start cap delay t0)))) <= cap
  /\ spaced delay (instants (run actions (start cap delay t0))).
Proof.
  intros Hcap.
  destruct (run_inv cap delay actions _ (start_inv cap delay t0 Hcap))
    as [_ _ Hcount Hbound Hspaced _].
  split; [rewrite <- Hcount; exact Hbound | exact Hspaced].
Qed.

(** The default of 10 requests per minute gives cap 2 and interval 6000 ms. *)
Example newQueue_ten :
  maxConcurrency (newQueue 10) = 2 /\ (minDelay (newQueue 10) == 6000)%Q.
Proof. split; reflexivity. Qed.

Example busy_state :
  rq busy = {| queue := [1%nat]; activeCount := 1; maxConcurrency := 2;
               minDelay := 6000; lastRequestTime := 1700000000000 |}
  /\ inFlight busy = [0%nat].
Proof. vm_compute. split; reflexivity. Qed.

(** C9, as stated, fails: after [clear()] the last-dispatch timestamp is
    what it was, not the initial 0. *)
Lemma clear_keeps_timestamp :
  lastRequestTime (clear (rq busy)) = 1700000000000
  /\ lastRequestTime (clear (rq busy)) <> lastRequestTime (initial 2 6000).
Proof. vm_compute. split; [reflexivity | discriminate]. Qed.

(** C9, amended.  [clear()] empties the pending queue and sets the
    in-flight counter to 0; the last-dispatch timestamp, the cap and the
    interval keep their values, and nothing outside the queue object
    changes: the started tasks stay in flight, and each of them still
    settles afterwards. *)
Theorem clear_frame w :
  queue (rq (clearWorld w)) = []
  /\ activeCount (rq (clearWorld w)) = 0
  /\ lastRequestTime (rq (clearWorld w)) = lastRequestTime (rq w)
  /\ maxConcurrency (rq (clearWorld w)) = maxConcurrency (rq w)
  /\ minDelay (rq (clearWorld w)) = minDelay (rq w)
  /\ inFlight (clearWorld w) = inFlight w
  /\ dispatched (clearWorld w) = dispatched w
  /\ timers (clearWorld w) = timers w
  /\ clock (clearWorld w) = clock w
  /\ forall fn ticks, existsb (Nat.eqb fn) (inFlight w) = true ->
       inFlight (step (clearWorld w) (Settle fn ticks)) = removeFirst fn (inFlight w).
Proof.
  repeat (split; [reflexivity|]).
  intros fn ticks Hin. cbn [step clearWorld withQueue inFlight]. rewrite Hin.
  reflexivity.
Qed.

Example sampleActions_run :
  dispatched (run sampleActions (start 2 6000 1700000000000))
  = [(2%nat, 1700000012000); (1%nat, 1700000006000); (0%nat, 1700000000000)]
  /\ inFlight (run sampleActions (start 2 6000 1700000000000)) = [2%nat; 1%nat].
Proof. vm_compute. split; reflexivity. Qed.

Lemma scheduler_cap_and_spacing_witness :
  Z.of_nat (length (inFlight (run sampleActions (start 2 6000 1700000000000)))) <= 2
  /\ spaced 6000 (instants (run sampleActions (start 2 6000 1700000000000))).
Proof. apply (scheduler_cap_and_spacing 2 6000 1700000000000 sampleActions). lia. Defined.

Lemma clear_frame_witness :
  inFlight (step (clearWorld busy) (Settle 0%nat [])) = removeFirst 0%nat (inFlight busy).
Proof. apply (clear_frame busy). reflexivity. Defined.

End SchedulerProps.

(** ** The map-reduce summariser *)

Module SummarizerProps.

Import JsString Summarizer.

Section Batches.

Context {A : Type}.
Implicit Types l : list A.

Lemma slice_length i l :
  length (slice i (i + BATCH_SIZE) l) = Nat.min BATCH_SIZE (length l - i).
Proof. unfold slice. rewrite length_take, length_drop. f_equal. lia. Qed.

Lemma batchLoop_sizes fuel : forall i l,
  map length (batchLoop fuel i l) = batchSizes fuel i (length l).
Proof.
  induction fuel as [|fuel IH]; intros i l; [reflexivity|].
  cbn [batchLoop batchSizes]. destruct (i <? length l)%nat; [|reflexivity].
  cbn [map]. now rewrite slice_length, IH.
Qed.

(** The [k]-th batch is the [k]-th window of [BATCH_SIZE] elements. *)
Lemma batchLoop_lookup fuel : forall i l k b,
  batchLoop fuel i l !! k = Some b ->
  b = slice (i + k * BATCH_SIZE) (i + k * BATCH_SIZE + BATCH_SIZE) l
  /\ (i + k * BATCH_SIZE < length l)%nat.
Proof.
  induction fuel as [|fuel IH]; intros i l k b H; [discriminate|].
  cbn [batchLoop] in H. destruct (i <? length l)%nat eqn:Hi; [|discriminate].
  apply Nat.ltb_lt in Hi. destruct k as [|k].
  - injection H as <-. rewrite Nat.mul_0_l, Nat.add_0_r. split; [reflexivity | exact Hi].
  - apply IH in H as [-> Hlt].
    replace (i + S k * BATCH_SIZE)%nat with (i + BATCH_SIZE + k * BATCH_SIZE)%nat by lia.
    split; [reflexivity | exact Hlt].
Qed.

(** With enough fuel the loop has run to its end: the batches are the
    list from [i] on, cut in consecutive pieces. *)
Lemma batchLoop_concat fuel : forall i l,
  (length l <= i + fuel)%nat -> concat (batchLoop fuel i l) = drop i l.
Proof.
  induction fuel as [|fuel IH]; intros i l Hfuel.
  - simpl. rewrite drop_ge by lia. reflexivity.
  - cbn [batchLoop]. destruct (i <? length l)%nat eqn:Hi.
    + cbn [concat]. rewrite IH by (unfold BATCH_SIZE; lia).
      unfold slice. replace (i + BATCH_SIZE - i)%nat with BATCH_SIZE by lia.
      rewrite <- drop_drop. apply take_drop.
    + apply Nat.ltb_ge in Hi. simpl. rewrite drop_ge by lia. reflexivity.
Qed.

Lemma batchLoop_length fuel : forall i l,
  (length l <= i + fuel)%nat ->
  length (batchLoop fuel i l) = ((length l - i + 24) / 25)%nat.
Proof.
  induction fuel as [|fuel IH]; intros i l Hfuel.
  - simpl. replace (length l - i)%nat with 0%nat by lia. reflexivity.
  - cbn [batchLoop]. destruct (i <? length l)%nat eqn:Hi.
    + apply Nat.ltb_lt in Hi. cbn [length]. rewrite IH by (unfold BATCH_SIZE; lia).
      unfold BATCH_SIZE.
      destruct (le_lt_dec 25 (length l - i)) as [Hbig|Hsmall].
      * replace (length l - i + 24)%nat with (length l - (i + 25) + 24 + 1 * 25)%nat by lia.
        rewrite Nat.div_add by lia. lia.
      * replace (length l - (i + 25))%nat with 0%nat by lia.
        rewrite (Nat.div_small (0 + 24) 25) by lia.
        assert (H1 : ((length l - i + 24) / 25 = 1)%nat).
        { replace (length l - i + 24)%nat with ((length l - i - 1) + 1 * 25)%nat by lia.
          rewrite Nat.div_add by lia. rewrite Nat.div_small by lia. reflexivity. }
        lia.
    + apply Nat.ltb_ge in Hi. simpl.
      replace (length l - i)%nat with 0%nat by lia. reflexivity.
Qed.

(** More fuel than [length l - i] changes nothing: the loop has ended. *)
Lemma batchLoop_enough fuel : forall i l,
  (length l <= i + fuel)%nat -> batchLoop (S fuel) i l = batchLoop fuel i l.
Proof.
  induction fuel as [|fuel IH]; intros i l Hfuel.
  - cbn [batchLoop]. destruct (i <? length l)%nat eqn:Hi; [|reflexivity].
    apply Nat.ltb_lt in Hi. lia.
  - change (batchLoop (S (S fuel)) i l)
      with (if (i <? length l)%nat
            then slice i (i + BATCH_SIZE) l :: batchLoop (S fuel) (i + BATCH_SIZE) l
            else []).
    rewrite IH by (unfold BATCH_SIZE; lia). reflexivity.
Qed.

Lemma mkBatches_concat l : concat (mkBatches l) = l.
Proof. unfold mkBatches. rewrite batchLoop_concat by lia. apply drop_0. Qed.

Lemma mkBatches_length l : length (mkBatches l) = ((length l + 24) / 25)%nat.
Proof. unfold mkBatches. rewrite batchLoop_length by lia. now rewrite Nat.sub_0_r. Qed.

Lemma mkBatches_lookup l k b :
  mkBatches l !! k = Some b ->
  b = slice (k * BATCH_SIZE) (k * BATCH_SIZE + BATCH_SIZE) l
  /\ length b = Nat.min BATCH_SIZE (length l - k * BATCH_SIZE)
  /\ (0 < length b)%nat.
Proof.
  intros H. apply batchLoop_lookup in H as [-> Hlt]. rewrite Nat.add_0_l in *.
  split; [reflexivity|]. rewrite slice_length. unfold BATCH_SIZE in *.
  split; [reflexivity | lia].
Qed.

Lemma mkBatches_sixty l : length l = 60%nat -> map length (mkBatches l) = [25; 25; 10]%nat.
Proof.
  intros H. unfold mkBatches. rewrite batchLoop_sizes, H. vm_compute. reflexivity.
Qed.

End Batches.

(** *** Runs of [generateSummary] *)

Section Runs.

Variable Json : Type.
Variable jsonParse : string -> option Json.
Variable truthyJson : Json -> bool.
Variable stringify : Json -> string.
Variable replaceStr : string -> string -> string -> string.
Variable generateContent : Call -> Response.
Variable INTERMEDIATE_BATCH_PROMPT : string.
Variable summaryPrompt : string.

Local Abbreviation run := (generateSummary Json jsonParse truthyJson stringify replaceStr
                         generateContent INTERMEDIATE_BATCH_PROMPT summaryPrompt).
Local Abbreviation valid results := (List.filter (usable Json truthyJson) results).
Local Abbreviation task := (batchTask Json stringify replaceStr generateContent
                          INTERMEDIATE_BATCH_PROMPT).
Local Abbreviation call := (batchCall Json stringify replaceStr INTERMEDIATE_BATCH_PROMPT).
Local Abbreviation prompt := (finalPrompt replaceStr summaryPrompt).
Local Abbreviation aggregate := (finalAggregation Json jsonParse truthyJson replaceStr
                               generateContent summaryPrompt).
Local Abbreviation surviving := (successfulBatches Json jsonParse truthyJson).
Local Abbreviation parses := (parsesTruthy Json jsonParse truthyJson).
Local Abbreviation insightText := (stringifyInsight Json stringify).

Lemma aggregate_call n input : fst (aggregate n input) = FinalCall (prompt n input).
Proof. reflexivity. Qed.

(** The run on more than [BATCH_SIZE] usable results. *)
Lemma run_batched results :
  (BATCH_SIZE < length (valid results))%nat ->
  run results
  = {| calls := (imap call (mkBatches (valid results))
                 ++ [FinalCall (prompt (length (valid results))
                                  (join (nl ++ nl)
                                     (surviving (imap task (mkBatches (valid results))))))])%list;
       outcome := snd (aggregate (length (valid results))
                         (join (nl ++ nl)
                            (surviving (imap task (mkBatches (valid results)))))) |}.
Proof.
  intros Hbig. unfold generateSummary.
  destruct (valid results) as [|r rs] eqn:Hvalid; [simpl in Hbig; lia|].
  destruct (length (r :: rs) <=? BATCH_SIZE)%nat eqn:Hle;
    [apply Nat.leb_le in Hle; lia|].
  reflexivity.
Qed.

(** The run on at least one and at most [BATCH_SIZE] usable results. *)
Lemma run_direct results :
  valid results <> [] -> (length (valid results) <= BATCH_SIZE)%nat ->
  run results
  = {| calls := [FinalCall (prompt (length (valid results))
                              (join (nl ++ nl) (map insightText (valid results))))];
       outcome := snd (aggregate (length (valid results))
                         (join (nl ++ nl) (map insightText (valid results)))) |}.
Proof.
  intros Hne Hsmall. unfold generateSummary.
  destruct (valid results) as [|r rs] eqn:Hvalid; [congruence|].
  apply Nat.leb_le in Hsmall. rewrite Hsmall. reflexivity.
Qed.

Lemma surviving_spec (batches : list (list (AnalysisResult Json))) text :
  text ∈ surviving (imap task batches)
  <-> exists k b, batches !! k = Some b
                  /\ generateContent (call k b) = Ok text /\ parses text = true.
Proof.
  unfold successfulBatches. rewrite list_elem_of_omap. split.
  - intros (r & Hr & Hkeep). apply elem_of_lookup_imap in Hr as (k & b & -> & Hb).
    exists k, b. unfold batchTask in Hkeep |- *.
    destruct (generateContent (call k b)) as [t|m]; [|discriminate].
    destruct (parses t) eqn:Hp; [|discriminate].
    injection Hkeep as <-. auto.
  - intros (k & b & Hb & Hok & Hp). exists (task k b). split.
    + apply elem_of_lookup_imap. eauto.
    + unfold batchTask. rewrite Hok, Hp. reflexivity.
Qed.


(** C6, amended.  Without usable results no call is made.  With 1 to 25
    usable results they are concatenated into the one final call.  With
    more than 25 they are cut into consecutive batches of 25, the last
    one holding what remains (25, 25, 10 for 60 results); each batch is
    one call handed to the queue; the texts of the batches whose call
    succeeded and parsed, and only these, are joined into the input of
    the final call, which is made once and decides the outcome. *)
Theorem map_reduce_batching results :
  (valid results = [] -> run results = {| calls := []; outcome := NoSummary |})
  /\ (valid results <> [] -> (length (valid results) <= 25)%nat ->
      calls (run results)
      = [FinalCall (prompt (length (valid results))
                      (join (nl ++ nl) (map insightText (valid results))))])
  /\ ((25 < length (valid results))%nat ->
      concat (mkBatches (valid results)) = valid results
      /\ length (mkBatches (valid results)) = ((length (valid results) + 24) / 25)%nat
      /\ (forall k b, mkBatches (valid results) !! k = Some b ->
            b = slice (k * 25) (k * 25 + 25) (valid results)
            /\ length b = Nat.min 25 (length (valid results) - k * 25)
            /\ (0 < length b)%nat)
      /\ (length (valid results) = 60%nat ->
          map length (mkBatches (valid results)) = [25; 25; 10]%nat)
      /\ calls (run results)
         = (imap call (mkBatches (valid results))
            ++ [FinalCall (prompt (length (valid results))
                             (join (nl ++ nl)
                                (surviving (imap task (mkBatches (valid results))))))])%list
      /\ (forall text,
            text ∈ surviving (imap task (mkBatches (valid results)))
            <-> exists k b, mkBatches (valid results) !! k = Some b
                            /\ generateContent (call k b) = Ok text
                            /\ parses text = true)
      /\ outcome (run results)
         = snd (aggregate (length (valid results))
                  (join (nl ++ nl) (surviving (imap task (mkBatches (valid results)))))))
  /\ (valid results <> [] ->
      length (List.filter (fun c => negb (isBatchCall c)) (calls (run results))) = 1%nat).
Proof.
  split; [|split; [|split]].
  - intros Hnone. unfold generateSummary. rewrite Hnone. reflexivity.
  - intros Hne Hsmall. rewrite (run_direct results Hne Hsmall). reflexivity.
  - intros Hbig. rewrite (run_batched results Hbig). cbn [calls outcome].
    split; [apply mkBatches_concat|].
    split; [apply mkBatches_length|].
    split; [apply mkBatches_lookup|].
    split; [apply mkBatches_sixty|].
    split; [reflexivity|].
    split; [apply surviving_spec | reflexivity].
  - intros Hne. destruct (le_lt_dec (length (valid results)) 25) as [Hsmall|Hbig].
    + rewrite (run_direct results Hne Hsmall). reflexivity.
    + rewrite (run_batched results Hbig). cbn [calls].
      rewrite List.filter_app. cbn [List.filter isBatchCall negb].
      rewrite length_app. cbn [length].
      assert (Hnone : forall (batches : list (list (AnalysisResult Json))) j,
                List.filter (fun c => negb (isBatchCall c))
                  (imap (fun k => call (j + k)%nat) batches) = []).
      { induction batches as [|b batches IH]; intros j; [reflexivity|].
        cbn [imap List.filter]. unfold batchCall at 1. cbn [isBatchCall negb].
        rewrite <- (IH (S j)). f_equal. apply imap_ext. intros k x _. simpl.
        f_equal. lia. }
      rewrite (Hnone _ 0%nat). reflexivity.
Qed.


End Runs.

(** C6, as stated, fails: exactly 25 usable results are not below the
    threshold, yet no batch is reduced; and with no usable result there is
    no final call. *)
Lemma twenty_five_results_not_batched :
  length (List.filter (usable string anyTruthy) (repeat sampleResult 25)) = 25%nat
  /\ List.filter isBatchCall (calls (sampleRun alwaysOk 25)) = []
  /\ length (calls (sampleRun alwaysOk 25)) = 1%nat
  /\ calls (sampleRun alwaysOk 0) = [].
Proof. vm_compute. repeat split; reflexivity. Qed.

(** The code at the failing input of C8: 26 usable results, every batch
    call fails, the final call answers an empty object. *)
Example all_batches_fail_run :
  map isBatchCall (calls (sampleRun batchesFail 26)) = [true; true; false]
  /\ outcome (sampleRun batchesFail 26) = SummaryOf "{}".
Proof. vm_compute. split; reflexivity. Qed.

Lemma map_reduce_batching_witness :
  map length (mkBatches (List.filter (usable string anyTruthy) (repeat sampleResult 60)))
  = [25; 25; 10]%nat.
Proof.
  apply (map_reduce_batching string braceParse anyTruthy (fun v => v) replaceFirst alwaysOk
           "Consolidate {count} insights: {batch_insights}"
           "Summarise {insight_count} insights: {all_insights}"
           (repeat sampleResult 60)).
  - vm_compute. lia.
  - vm_compute. reflexivity.
Defined.


End SummarizerProps.

(** * Further properties *)

(** ** The filter engine as a conjunction *)

Module FilterProps.

Import JsString Worker.

(** When [totalRows] counts the stored rows, as it does for a loaded
    dataset, and the filter object has a date range that, if present, is an
    object, and keys and accepted values that name no member that every
    object inherits, [applyFilters] returns, in ascending order, the row ids
    that every entry of the filter object lets through: the entries are
    combined with AND, whatever the emptiness shortcut and the narrowing
    scans do on the way. *)
Theorem applyFilters_is_conjunction dateParse st filters :
  totalRows st = length (rawDataStore st) ->
  plainFilters filters = true ->
  applyFilters dateParse st filters = Some (selected dateParse st filters).
Proof. apply WorkerProps.applyFilters_selected. Qed.

Lemma applyFilters_is_conjunction_witness :
  applyFilters noDates statusData [("Status", FList ["open"]); ("status", FText "OP")]
  = Some (selected noDates statusData [("Status", FList ["open"]); ("status", FText "OP")]).
Proof.
  apply (applyFilters_is_conjunction noDates statusData).
  - vm_compute. reflexivity.
  - vm_compute. reflexivity.
Defined.




(** With an entry that throws, the order of the entries decides whether
    the call returns. *)
Example order_matters_when_an_entry_throws :
  applyFilters noDates statusData [("Nope", FList []); ("Status", FList ["toString"])]
  = Some []
  /\ applyFilters noDates statusData [("Status", FList ["toString"]); ("Nope", FList [])]
     = None.
Proof. vm_compute. split; reflexivity. Qed.

(** When [totalRows] counts the stored rows, a free-text filter under a key
    whose lower case names no member that every object inherits selects
    exactly the rows whose value under the key in lower case contains the
    needle, both taken in lower case: neither the case of the needle nor
    that of the key matters. *)
Theorem free_text_filter_exact dateParse st key c needle :
  totalRows st = length (rawDataStore st) ->
  key <> "dateRange" ->
  inherited (toLowerCase key) = false ->
  exists ids,
    applyFilters dateParse st [(key, FText (String c needle))] = Some ids
    /\ forall i, In i ids <->
         exists row, rawDataStore st !! i = Some row
                     /\ includes (toLowerCase (String c needle))
                          (toLowerCase (default EmptyString (getField row (toLowerCase key))))
                        = true.
Proof.
  intros Hrows Hkey Hown.
  exists (selected dateParse st [(key, FText (String c needle))]).
  split.
  { apply WorkerProps.applyFilters_selected; [exact Hrows|]. unfold plainFilters, plainEntry.
    cbn [definedRange forallb fst snd]. apply String.eqb_neq in Hkey.
    now rewrite Hkey, Hown. }
  intros i. unfold selected. rewrite filter_In, in_seq. cbn [forallb]. rewrite andb_true_r.
  unfold accepts. cbn [fst snd]. apply String.eqb_neq in Hkey. rewrite Hkey.
  rewrite Hrows. split.
  - intros [_ Hacc].
    destruct (rawDataStore st !! i) as [row|]; [|discriminate]. eauto.
  - intros (row & Hrow & Hinc). split.
    + apply lookup_lt_Some in Hrow. lia.
    + rewrite Hrow. exact Hinc.
Qed.

Lemma free_text_filter_exact_witness :
  exists ids,
    applyFilters noDates statusData [("STATUS", FText "OP")] = Some ids
    /\ forall i, In i ids <->
         exists row, rawDataStore statusData !! i = Some row
                     /\ includes (toLowerCase "OP")
                          (toLowerCase (default EmptyString (getField row (toLowerCase "STATUS"))))
                        = true.
Proof.
  apply (free_text_filter_exact noDates statusData "STATUS" "O" "P").
  - vm_compute. reflexivity.
  - discriminate.
  - vm_compute. reflexivity.
Defined.

(** A search under the key [constructor] is outside what is followed
    here: the rows without that field hold the inherited function there. *)
Example search_under_inherited_key :
  applyFilters noDates statusData [("constructor", FText "native")] = None.
Proof. vm_compute. reflexivity. Qed.

(** A date-range filter with at least one bound selects exactly the rows
    whose created date parses and lies within the bounds that are valid
    dates: a row without a readable created date never passes, and a bound
    that is not a valid date excludes nothing. *)
Theorem date_range_filter_exact dateParse hs rows start finish :
  truthy start || truthy finish = true ->
  exists ids,
    applyFilters dateParse (ingest hs rows) [("dateRange", FRange start finish)] = Some ids
    /\ forall i, In i ids <->
         exists row rowDate,
           rawDataStore (ingest hs rows) !! i = Some row
           /\ parseDate (getField row "created") = Some rowDate
           /\ (forall startDate,
                 truthy start = true ->
                 dateParse (default EmptyString start ++ "T00:00:00Z") = Some startDate ->
                 startDate <= rowDate)
           /\ (forall endDate,
                 truthy finish = true ->
                 dateParse (default EmptyString finish ++ "T23:59:59Z") = Some endDate ->
                 rowDate <= endDate).
Proof.
  intros Hbound.
  exists (selected dateParse (ingest hs rows) [("dateRange", FRange start finish)]).
  split; [apply WorkerProps.applyFilters_selected; [apply WorkerProps.ingest_totalRows | reflexivity]|].
  intros i. unfold selected. rewrite filter_In, in_seq. cbn [forallb]. rewrite andb_true_r.
  unfold accepts. cbn [fst snd String.eqb Ascii.eqb Bool.eqb].
  rewrite WorkerProps.ingest_totalRows.
  assert (Hrange : forall row,
    match dateBound dateParse start "T00:00:00Z", dateBound dateParse finish "T23:59:59Z" with
    | None, None => true
    | startDate, endDate => inRange startDate endDate row
    end = true
    <-> exists rowDate,
          parseDate (getField row "created") = Some rowDate
          /\ (forall startDate,
                truthy start = true ->
                dateParse (default EmptyString start ++ "T00:00:00Z") = Some startDate ->
                startDate <= rowDate)
          /\ (forall endDate,
                truthy finish = true ->
                dateParse (default EmptyString finish ++ "T23:59:59Z") = Some endDate ->
                rowDate <= endDate)).
  { intros row. unfold dateBound, inRange.
    destruct (parseDate (getField row "created")) as [rowDate|].
    - destruct (truthy start) eqn:Hs, (truthy finish) eqn:Hf; try discriminate;
        destruct (dateParse (default EmptyString start ++ "T00:00:00Z")) as [s|];
        destruct (dateParse (default EmptyString finish ++ "T23:59:59Z")) as [e|];
        cbn [negb andb];
        rewrite ?andb_true_iff, ?negb_true_iff, ?Z.ltb_ge;
        (split;
         [intros H; exists rowDate; repeat split; intros ? ? Heq;
          try discriminate; try (injection Heq as <-); try tauto; try lia
         |intros (t & Ht & Hlo & Hhi); injection Ht as <-;
          repeat split; try reflexivity;
          try (apply Hlo; [reflexivity|reflexivity]);
          try (apply Hhi; [reflexivity|reflexivity])]).
    - destruct (truthy start) eqn:Hs, (truthy finish) eqn:Hf; try discriminate;
        (split; [discriminate | intros (t & Ht & _); discriminate]). }
  split.
  - intros [_ Hacc].
    destruct (rawDataStore (ingest hs rows) !! i) as [row|]; [|discriminate].
    apply Hrange in Hacc as (t & Ht & Hlo & Hhi). exists row, t. auto.
  - intros (row & t & Hrow & Ht & Hlo & Hhi). split.
    + apply lookup_lt_Some in Hrow. lia.
    + rewrite Hrow. apply Hrange. exists t. auto.
Qed.

Lemma date_range_filter_exact_witness :
  exists ids,
    applyFilters newYearDates threeRecords
      [("dateRange", FRange (Some "2024-01-01") None)] = Some ids
    /\ forall i, In i ids <->
         exists row rowDate,
           rawDataStore threeRecords !! i = Some row
           /\ parseDate (getField row "created") = Some rowDate
           /\ (forall startDate,
                 truthy (Some "2024-01-01") = true ->
                 newYearDates (default EmptyString (Some "2024-01-01") ++ "T00:00:00Z")
                 = Some startDate ->
                 startDate <= rowDate)
           /\ (forall endDate,
                 truthy None = true ->
                 newYearDates (default EmptyString None ++ "T23:59:59Z") = Some endDate ->
                 rowDate <= endDate).
Proof.
  apply (date_range_filter_exact newYearDates ["created"; "finished"]
           [timedRow "2024-01-01T00:00" "2024-01-01T00:10";
            timedRow "2024-01-01T00:05" "2024-01-01T00:15";
            timedRow "2024-01-01T00:20" "2024-01-01T00:30"]
           (Some "2024-01-01") None).
  reflexivity.
Defined.

End FilterProps.

(** ** The inverted index and the counters of a loaded dataset *)

Module IndexProps.

Import JsString Worker.

Lemma indexed_insert_same (idx : Index) h v (l : list nat) (m : gmap string (list nat)) :
  indexed (<[h := <[v := l]> m]> idx) h v = l.
Proof. unfold indexed. rewrite lookup_insert_eq. cbn. now rewrite lookup_insert_eq. Qed.

(** Where a row id of the index after one indexing turn comes from. *)
Lemma filed_origin row rid idx header h v i :
  In i (indexed (filed row rid idx header) h v) ->
  In i (indexed idx h v)
  \/ (i = rid /\ h = trim header /\ getField row (toLowerCase h) = Some v /\ v <> "").
Proof.
  unfold filed. intros Hi.
  destruct (getField row (toLowerCase (trim header))) as [[|c value]|] eqn:Hget; auto.
  destruct (decide (trim header = h)) as [Hh|Hh].
  - subst h. destruct (decide (String c value = v)) as [Hv|Hv].
    + subst v. rewrite indexed_insert_same in Hi. apply in_app_or in Hi as [Hold|Hnew].
      * left. unfold indexed. destruct (idx !! trim header) as [m|]; cbn in *; [exact Hold|].
        rewrite lookup_empty in Hold. destruct Hold.
      * right. destruct Hnew as [<-|[]]. repeat split; auto.
    + left. unfold indexed in *. rewrite lookup_insert_eq in Hi. cbn in Hi.
      rewrite lookup_insert_ne in Hi by exact Hv.
      destruct (idx !! trim header) as [m|]; cbn in *; [exact Hi|].
      rewrite lookup_empty in Hi. destruct Hi.
  - left. unfold indexed in *. rewrite lookup_insert_ne in Hi by exact Hh. exact Hi.
Qed.

Lemma fileds_origin row rid keys : forall idx h v i,
  In i (indexed (fold_left (filed row rid) keys idx) h v) ->
  In i (indexed idx h v)
  \/ (i = rid /\ getField row (toLowerCase h) = Some v /\ v <> "").
Proof.
  induction keys as [|k keys IH]; intros idx h v i Hi; [auto|].
  simpl in Hi. apply IH in Hi as [Hi|Hi]; [|auto].
  apply filed_origin in Hi as [Hi|(-> & _ & Hget & Hv)]; auto.
Qed.

(** The last record of a dataset that loads: what its step did. *)
Lemma ingest_plain_snoc hs rows row :
  plain (ingest hs (rows ++ [row])) = true ->
  plain (ingest hs rows) = true
  /\ exists processedRow keys,
       expandCustomMetrics (normalizeRow row) (customMetricKeys (ingest hs rows))
       = (processedRow, keys)
       /\ List.Forall (fun header => meetsMember processedRow header = false)
            (dedup (hs ++ keys))
       /\ rawDataStore (ingest hs (rows ++ [row]))
          = (rawDataStore (ingest hs rows) ++ [processedRow])%list
       /\ filterIndexes (ingest hs (rows ++ [row]))
          = fold_left (filed processedRow (length rows)) (dedup (hs ++ keys))
              (filterIndexes (ingest hs rows))
       /\ customMetricKeys (ingest hs (rows ++ [row])) = keys
       /\ length (rawDataStore (ingest hs rows)) = length rows.
Proof.
  intros Hplain. rewrite WorkerProps.ingest_snoc in *.
  destruct (WorkerProps.step_plain _ _ Hplain) as (Hbefore & pr & keys & Hexpand & Hall & ->).
  destruct (WorkerProps.ingest_plain_counts hs rows Hbefore) as [Hlen Hid].
  rewrite WorkerProps.ingest_headers in *. rewrite Hid.
  split; [exact Hbefore|]. exists pr, keys. repeat split; auto.
Qed.

Lemma ingest_index_sound hs rows :
  plain (ingest hs rows) = true ->
  forall h v i,
    In i (indexed (filterIndexes (ingest hs rows)) h v) ->
    exists row, rawDataStore (ingest hs rows) !! i = Some row
                /\ getField row (toLowerCase h) = Some v /\ v <> "".
Proof.
  induction rows as [|row rows IH] using rev_ind; intros Hplain h v i Hi.
  - destruct Hi.
  - destruct (ingest_plain_snoc hs rows row Hplain)
      as (Hbefore & pr & keys & _ & _ & Hstore & Hidx & _ & Hlen).
    rewrite Hstore. rewrite Hidx in Hi.
    apply fileds_origin in Hi as [Hi|(-> & Hget & Hv)].
    + destruct (IH Hbefore h v i Hi) as (r & Hr & Hget & Hv).
      exists r. split; [|auto]. apply lookup_app_l_Some. exact Hr.
    + exists pr. split; [|auto].
      rewrite lookup_app_r by lia. now rewrite Hlen, Nat.sub_diag.
Qed.

(** Soundness of the index of a dataset that loads (no step has thrown and
    no turn has met an inherited member): a row id listed under value
    [v] of field [h] is the id of a stored row whose field [h], in lower
    case, holds the non-empty value [v]. *)
Theorem index_sound hs rows h v i :
  plain (ingest hs rows) = true ->
  In i (indexed (filterIndexes (ingest hs rows)) h v) ->
  exists row, rawDataStore (ingest hs rows) !! i = Some row
              /\ getField row (toLowerCase h) = Some v /\ v <> "".
Proof. intros Hplain. now apply ingest_index_sound. Qed.

Lemma index_sound_witness :
  exists row, rawDataStore statusData !! 1%nat = Some row
              /\ getField row (toLowerCase "Status") = Some "closed" /\ "closed" <> "".
Proof.
  apply (index_sound ["Status"] [[("Status", "open")]; [("Status", "closed")]]
           "Status" "closed" 1%nat).
  - vm_compute. reflexivity.
  - vm_compute. left. reflexivity.
Defined.

Lemma ingest_index_complete hs rows header :
  In header hs ->
  plain (ingest hs rows) = true ->
  forall i row v,
    rawDataStore (ingest hs rows) !! i = Some row ->
    getField row (toLowerCase (trim header)) = Some v -> v <> "" ->
    In i (indexed (filterIndexes (ingest hs rows)) (trim header) v).
Proof.
  intros Hheader.
  induction rows as [|r rows IH] using rev_ind; intros Hplain i row v Hrow Hget Hv.
  - discriminate Hrow.
  - destruct (ingest_plain_snoc hs rows r Hplain)
      as (Hbefore & pr & keys & _ & _ & Hstore & Hidx & _ & Hlen).
    rewrite Hidx. rewrite Hstore in Hrow.
    destruct (decide (i < length (rawDataStore (ingest hs rows)))%nat) as [Hlt|Hge].
    + rewrite lookup_app_l in Hrow by exact Hlt.
      apply WorkerProps.fileds_keep. eapply IH; eauto.
    + rewrite lookup_app_r in Hrow by lia.
      destruct (i - length (rawDataStore (ingest hs rows)))%nat as [|k] eqn:Hk;
        [|destruct k; discriminate Hrow].
      injection Hrow as <-.
      assert (Hi : i = length rows) by lia.
      subst i. destruct v as [|c v]; [congruence|].
      apply WorkerProps.fileds_add; [|exact Hget].
      apply WorkerProps.dedup_In, in_or_app. now left.
Qed.

(** Completeness of the index of a dataset that loads, for the names of the
    worker's header list (the cells of the first line as the worker splits
    it): every stored row that holds a non-empty value under such a name is
    listed under that value. *)
Theorem index_complete hs rows header i row v :
  plain (ingest hs rows) = true ->
  In header hs ->
  rawDataStore (ingest hs rows) !! i = Some row ->
  getField row (toLowerCase (trim header)) = Some v -> v <> "" ->
  In i (indexed (filterIndexes (ingest hs rows)) (trim header) v).
Proof. intros Hplain Hheader. now apply ingest_index_complete. Qed.

Lemma index_complete_witness :
  In 1%nat (indexed (filterIndexes statusData) (trim "Status") "closed").
Proof.
  apply (index_complete ["Status"] [[("Status", "open")]; [("Status", "closed")]]
           "Status" 1%nat (normalizeRow [("Status", "closed")]) "closed").
  - vm_compute. reflexivity.
  - left. reflexivity.
  - vm_compute. reflexivity.
  - vm_compute. reflexivity.
  - discriminate.
Defined.

(** On a dataset that loads, a discrete filter on a name of the header
    list, where neither that name nor an accepted value is the name of a
    member that every object inherits, selects exactly the rows whose value
    under that name is one of the accepted values: the index lookup agrees
    with a scan of the rows. *)
Theorem discrete_filter_exact dateParse hs rows header val vals :
  plain (ingest hs rows) = true ->
  In header hs -> trim header <> "dateRange" ->
  inherited (trim header) = false ->
  forallb (fun v => negb (inherited v)) (val :: vals) = true ->
  exists ids,
    applyFilters dateParse (ingest hs rows) [(trim header, FList (val :: vals))] = Some ids
    /\ forall i, In i ids <->
         exists row v, rawDataStore (ingest hs rows) !! i = Some row
                       /\ getField row (toLowerCase (trim header)) = Some v
                       /\ v <> "" /\ In v (val :: vals).
Proof.
  intros Hplain Hheader Hkey Hown Hvals.
  exists (selected dateParse (ingest hs rows) [(trim header, FList (val :: vals))]).
  split.
  { apply WorkerProps.applyFilters_selected; [apply WorkerProps.ingest_totalRows|].
    unfold plainFilters, plainEntry.
    cbn [definedRange forallb fst snd]. apply String.eqb_neq in Hkey.
    rewrite Hkey, Hown. cbn [forallb] in Hvals. now rewrite Hvals. }
  intros i. unfold selected. rewrite filter_In, in_seq. cbn [forallb]. rewrite andb_true_r.
  unfold accepts. cbn [fst snd].
  apply String.eqb_neq in Hkey. rewrite Hkey.
  rewrite (WorkerProps.lookupValues_plain _ _ _ Hown Hvals).
  cbn [default from_option id].
  rewrite WorkerProps.ingest_totalRows. split.
  - intros [Hlt Hacc].
    destruct (rawDataStore (ingest hs rows) !! i) as [row|] eqn:Hrow; [|discriminate].
    apply WorkerProps.hasId_In, in_flat_map in Hacc as (v & Hv & Hi).
    destruct (ingest_index_sound hs rows Hplain _ _ _ Hi) as (row' & Hrow' & Hget & Hne).
    exists row, v. rewrite Hrow in Hrow'. injection Hrow' as <-. auto.
  - intros (row & v & Hrow & Hget & Hne & Hv). split.
    + apply lookup_lt_Some in Hrow. lia.
    + rewrite Hrow. apply WorkerProps.hasId_In, in_flat_map. exists v. split; [exact Hv|].
      eapply ingest_index_complete; eauto.
Qed.

Lemma discrete_filter_exact_witness :
  exists ids,
    applyFilters noDates statusData [(trim "Status", FList ["open"])] = Some ids
    /\ forall i, In i ids <->
         exists row v, rawDataStore statusData !! i = Some row
                       /\ getField row (toLowerCase (trim "Status")) = Some v
                       /\ v <> "" /\ In v ["open"].
Proof.
  apply (discrete_filter_exact noDates ["Status"] [[("Status", "open")]; [("Status", "closed")]]
           "Status" "open" []).
  - vm_compute. reflexivity.
  - left. reflexivity.
  - vm_compute. discriminate.
  - vm_compute. reflexivity.
  - vm_compute. reflexivity.
Defined.

(** *** Buckets are never empty *)

Lemma filed_buckets row rid (idx : Index) header :
  (forall h m, idx !! h = Some m ->
     m <> ∅ /\ forall v (l : list nat), m !! v = Some l -> l <> []) ->
  forall h m, filed row rid idx header !! h = Some m ->
    m <> ∅ /\ forall v (l : list nat), m !! v = Some l -> l <> [].
Proof.
  intros Hidx h m. unfold filed.
  destruct (getField row (toLowerCase (trim header))) as [[|c value]|]; try apply Hidx.
  destruct (decide (trim header = h)) as [<-|Hne].
  - rewrite lookup_insert_eq. intros [= <-]. split.
    + apply insert_non_empty.
    + intros v l. destruct (decide (String c value = v)) as [<-|Hv].
      * rewrite lookup_insert_eq. intros [= <-]. destruct (default [] _); discriminate.
      * rewrite lookup_insert_ne by exact Hv.
        destruct (idx !! trim header) as [old|] eqn:Hold; cbn.
        -- apply (Hidx _ _ Hold).
        -- rewrite lookup_empty. discriminate.
  - rewrite lookup_insert_ne by exact Hne. apply Hidx.
Qed.

Lemma ingest_buckets hs rows :
  plain (ingest hs rows) = true ->
  forall h m,
    filterIndexes (ingest hs rows) !! h = Some m ->
    m <> ∅ /\ forall v (l : list nat), m !! v = Some l -> l <> [].
Proof.
  induction rows as [|row rows IH] using rev_ind; intros Hplain.
  - intros h m H. cbn in H. rewrite lookup_empty in H. discriminate.
  - destruct (ingest_plain_snoc hs rows row Hplain)
      as (Hbefore & pr & keys & _ & _ & _ & -> & _).
    specialize (IH Hbefore).
    generalize (dedup (hs ++ keys)).
    generalize dependent (filterIndexes (ingest hs rows)).
    intros idx Hidx l. revert idx Hidx.
    induction l as [|k l IHl]; intros idx Hidx; [exact Hidx|].
    simpl. apply IHl. apply filed_buckets, Hidx.
Qed.

(** In a dataset that loads every indexed field has at least one value and
    every value at least one row, so that [complete] offers each indexed
    field as a filter, discrete or free-text. *)
Theorem indexed_field_is_offered hs rows h m :
  plain (ingest hs rows) = true ->
  filterIndexes (ingest hs rows) !! h = Some m ->
  (0 < size m)%nat
  /\ (forall v (l : list nat), m !! v = Some l -> l <> [])
  /\ (fieldKind (ingest hs rows) h = Some Discrete
      \/ fieldKind (ingest hs rows) h = Some FreeText).
Proof.
  intros Hplain Hm. destruct (ingest_buckets hs rows Hplain h m Hm) as [Hne Hall].
  assert (Hsize : (0 < size m)%nat).
  { destruct (size m) eqn:Hs; [|lia]. apply map_size_empty_inv in Hs. contradiction. }
  split; [exact Hsize|]. split; [exact Hall|].
  unfold fieldKind. rewrite Hm. cbn. unfold classify.
  destruct (String.eqb (toLowerCase h) "transcript"); [auto|].
  apply Nat.ltb_lt in Hsize. rewrite Hsize. cbn [andb].
  destruct (size m <=? 200)%nat eqn:H200; [auto|].
  apply Nat.leb_gt, Nat.ltb_lt in H200. rewrite H200. auto.
Qed.

Lemma indexed_field_is_offered_witness :
  fieldKind statusData "Status" = Some Discrete \/ fieldKind statusData "Status" = Some FreeText.
Proof.
  apply (indexed_field_is_offered ["Status"] [[("Status", "open")]; [("Status", "closed")]]
           "Status" (default ∅ (filterIndexes statusData !! "Status"))).
  - vm_compute. reflexivity.
  - vm_compute. reflexivity.
Defined.

(** After a step has thrown, the field it was at has a table without a
    value, which [complete] would offer neither as a filter nor as a
    free-text field; [complete] is not reached then. *)
Example table_without_value_after_throw :
  thrown (ingest ["Status"] [[("Status", "toString")]]) = true
  /\ filterIndexes (ingest ["Status"] [[("Status", "toString")]]) !! "Status" = Some ∅
  /\ fieldKind (ingest ["Status"] [[("Status", "toString")]]) "Status" = Some Excluded.
Proof. vm_compute. repeat split; reflexivity. Qed.

(** *** Counters *)

Lemma ingest_contained hs rows :
  totalContained (ingest hs rows)
  = length (List.filter containedRow (rawDataStore (ingest hs rows))).
Proof.
  induction rows as [|row rows IH] using rev_ind; [reflexivity|].
  rewrite WorkerProps.ingest_snoc. unfold step.
  destruct (thrown (ingest hs rows)); [exact IH|].
  destruct (expandCustomMetrics _ _) as [pr keys]. cbn [totalContained rawDataStore].
  rewrite List.filter_app, length_app, IH. cbn [List.filter].
  change (bool_decide (getField pr "amelia handled" = Some "true")) with (containedRow pr).
  destruct (containedRow pr); simpl; lia.
Qed.




(** The step that throws has stored and counted its record and has not
    advanced the row index. *)
Lemma step_throws st row :
  thrown st = false -> thrown (step st row) = true ->
  totalRows (step st row) = S (totalRows st)
  /\ rowIndex (step st row) = rowIndex st
  /\ (beyond (step st row) = false -> beyond st = false).
Proof.
  unfold step. intros ->.
  destruct (expandCustomMetrics _ _) as [pr keys]. cbn [thrown totalRows rowIndex beyond].
  intros ->. repeat split. intros H. now apply orb_false_elim in H as [H _].
Qed.

Lemma ingest_thrown hs rows :
  thrown (ingest hs rows) = true -> beyond (ingest hs rows) = false ->
  totalRows (ingest hs rows) = S (rowIndex (ingest hs rows))
  /\ (totalRows (ingest hs rows) <= length rows)%nat.
Proof.
  induction rows as [|row rows IH] using rev_ind; [discriminate|].
  rewrite WorkerProps.ingest_snoc, length_app. cbn [length].
  destruct (thrown (ingest hs rows)) eqn:Hbefore.
  - unfold step. rewrite Hbefore. intros _ Hb. destruct (IH eq_refl Hb). split; [assumption | lia].
  - intros Ht Hb. destruct (step_throws _ row Hbefore Ht) as (Hrows & Hid & Hbeyond).
    assert (Hplain : plain (ingest hs rows) = true).
    { unfold plain. now rewrite Hbefore, (Hbeyond Hb). }
    destruct (WorkerProps.ingest_plain_counts hs rows Hplain) as [Hlen Hidx].
    rewrite Hrows, Hid, WorkerProps.ingest_totalRows, Hlen, Hidx. lia.
Qed.

(** The counters of the worker.  [totalRows] counts the stored rows and
    [totalContained] those whose ['amelia handled'] is ['true'].  In a
    dataset that loads, [totalRows], the running row index and the store all
    count the records of the file; once a step has thrown (no turn having
    met an inherited member), the record it was at is stored and counted,
    the row index is one behind, and the records after it are not read. *)
Theorem ingest_counters hs rows :
  totalRows (ingest hs rows) = length (rawDataStore (ingest hs rows))
  /\ totalContained (ingest hs rows)
     = length (List.filter containedRow (rawDataStore (ingest hs rows)))
  /\ (totalContained (ingest hs rows) <= totalRows (ingest hs rows))%nat
  /\ (plain (ingest hs rows) = true ->
      totalRows (ingest hs rows) = length rows
      /\ rowIndex (ingest hs rows) = length rows)
  /\ (thrown (ingest hs rows) = true -> beyond (ingest hs rows) = false ->
      totalRows (ingest hs rows) = S (rowIndex (ingest hs rows))
      /\ (totalRows (ingest hs rows) <= length rows)%nat).
Proof.
  split; [apply WorkerProps.ingest_totalRows|]. split; [apply ingest_contained|].
  split; [rewrite ingest_contained, WorkerProps.ingest_totalRows; apply List.filter_length_le|].
  split; [|apply ingest_thrown].
  intros Hplain. destruct (WorkerProps.ingest_plain_counts hs rows Hplain) as [Hlen Hidx].
  now rewrite WorkerProps.ingest_totalRows, Hlen, Hidx.
Qed.

Lemma ingest_counters_witness :
  (totalRows statusData = 2%nat /\ rowIndex statusData = 2%nat)
  /\ (totalRows (ingest ["Status"] [[("Status", "toString")]; [("Status", "open")]])
      = S (rowIndex (ingest ["Status"] [[("Status", "toString")]; [("Status", "open")]]))
      /\ (totalRows (ingest ["Status"] [[("Status", "toString")]; [("Status", "open")]])
          <= 2)%nat).
Proof.
  split.
  - apply (proj1 (proj2 (proj2 (proj2
             (ingest_counters ["Status"] [[("Status", "open")]; [("Status", "closed")]]))))).
    vm_compute. reflexivity.
  - apply (proj2 (proj2 (proj2 (proj2
             (ingest_counters ["Status"] [[("Status", "toString")]; [("Status", "open")]]))))).
    + vm_compute. reflexivity.
    + vm_compute. reflexivity.
Defined.



(** *** Custom metrics in the index *)

Lemma step_keys st row :
  thrown st = false ->
  customMetricKeys (step st row)
  = snd (expandCustomMetrics (normalizeRow row) (customMetricKeys st)).
Proof.
  unfold step. intros ->.
  destruct (expandCustomMetrics _ _) as [processedRow keys]. reflexivity.
Qed.

Lemma expandMetric_keys acc metric key :
  In key (snd acc) -> In key (snd (expandMetric acc metric)).
Proof.
  intros Hkey. unfold expandMetric.
  destruct (truthy (split "=" metric !! 0%nat)); [|exact Hkey].
  destruct (customKey _) as [lowerTrimmedKey trimmedKey]. cbn [snd].
  apply WorkerProps.setAdd_In. now left.
Qed.

Lemma expandCustomMetrics_keys processedRow keys key :
  In key keys -> In key (snd (expandCustomMetrics processedRow keys)).
Proof.
  intros Hkey. unfold expandCustomMetrics.
  destruct (truthy (getField processedRow "custom metrics")); [|exact Hkey].
  generalize (split "||" (default EmptyString (getField processedRow "custom metrics"))).
  intros metrics.
  assert (Hgen : forall acc, In key (snd acc) -> In key (snd (fold_left expandMetric metrics acc))).
  { induction metrics as [|m metrics IH]; intros acc Hacc; [exact Hacc|].
    cbn [fold_left]. apply IH. now apply expandMetric_keys. }
  now apply Hgen.
Qed.

Lemma step_keys_grow st row key :
  In key (customMetricKeys st) -> In key (customMetricKeys (step st row)).
Proof.
  intros Hkey. destruct (thrown st) eqn:Hthrown.
  - unfold step. now rewrite Hthrown.
  - rewrite (step_keys _ _ Hthrown). now apply expandCustomMetrics_keys.
Qed.

Lemma ingest_keys_grow hs rows key : forall k,
  In key (customMetricKeys (ingest hs (take k rows))) ->
  In key (customMetricKeys (ingest hs rows)).
Proof.
  induction rows as [|r rows IH] using rev_ind; intros k Hkey.
  - now rewrite take_nil in Hkey.
  - rewrite WorkerProps.ingest_snoc.
    destruct (decide (k <= length rows)%nat) as [Hle|Hgt].
    + rewrite take_app_le in Hkey by exact Hle.
      apply step_keys_grow. now apply (IH k).
    + rewrite take_ge in Hkey by (rewrite length_app; cbn [length]; lia).
      now rewrite WorkerProps.ingest_snoc in Hkey.
Qed.

Lemma ingest_custom_complete hs rows key :
  plain (ingest hs rows) = true ->
  forall i row v,
    In key (customMetricKeys (ingest hs (take (S i) rows))) ->
    rawDataStore (ingest hs rows) !! i = Some row ->
    getField row (toLowerCase (trim key)) = Some v -> v <> "" ->
    In i (indexed (filterIndexes (ingest hs rows)) (trim key) v).
Proof.
  induction rows as [|r rows IH] using rev_ind; intros Hplain i row v Hkey Hrow Hget Hv.
  - discriminate Hrow.
  - destruct (ingest_plain_snoc hs rows r Hplain)
      as (Hbefore & pr & keys & _ & _ & Hstore & Hidx & Hkeys & Hlen).
    rewrite Hidx. rewrite Hstore in Hrow.
    destruct (decide (i < length (rawDataStore (ingest hs rows)))%nat) as [Hlt|Hge].
    + rewrite lookup_app_l in Hrow by exact Hlt.
      rewrite take_app_le in Hkey by lia.
      apply WorkerProps.fileds_keep. eapply IH; eauto.
    + rewrite lookup_app_r in Hrow by lia.
      destruct (i - length (rawDataStore (ingest hs rows)))%nat as [|k] eqn:Hk;
        [|destruct k; discriminate Hrow].
      injection Hrow as <-.
      assert (Hi : i = length rows) by lia.
      rewrite take_ge in Hkey by (rewrite length_app; cbn [length]; lia).
      rewrite Hkeys in Hkey.
      rewrite Hi. destruct v as [|c v]; [congruence|].
      apply WorkerProps.fileds_add; [|exact Hget].
      apply WorkerProps.dedup_In, in_or_app. now right.
Qed.

(** In a dataset that loads, the values of custom metrics are indexed like
    those of the columns of the file: a row read when a custom key was
    already known, its own metrics included, is listed under the value it
    holds for that key; and a key once known stays known. *)
Theorem custom_metric_values_are_indexed hs rows key i row v :
  plain (ingest hs rows) = true ->
  In key (customMetricKeys (ingest hs (take (S i) rows))) ->
  rawDataStore (ingest hs rows) !! i = Some row ->
  getField row (toLowerCase (trim key)) = Some v -> v <> "" ->
  In i (indexed (filterIndexes (ingest hs rows)) (trim key) v)
  /\ In key (customMetricKeys (ingest hs rows)).
Proof.
  intros Hplain Hkey Hrow Hget Hv. split.
  - now apply (ingest_custom_complete hs rows key Hplain i row v).
  - now apply (ingest_keys_grow hs rows key (S i)).
Qed.

Lemma custom_metric_values_are_indexed_witness :
  In 1%nat (indexed (filterIndexes twoRegions) (trim "Region") "EU")
  /\ In "Region" (customMetricKeys twoRegions).
Proof.
  apply (custom_metric_values_are_indexed
           ["Conversation ID"; "Custom Metrics"]
           [regionTierRecord; [("Conversation ID", "c2"); ("Custom Metrics", "Region=EU")]]
           "Region" 1%nat
           (fst (expandCustomMetrics
                   (normalizeRow [("Conversation ID", "c2"); ("Custom Metrics", "Region=EU")])
                   ["Region"; "Tier"]))
           "EU").
  - vm_compute. reflexivity.
  - vm_compute. left. reflexivity.
  - vm_compute. reflexivity.
  - vm_compute. reflexivity.
  - discriminate.
Defined.

End IndexProps.

(** ** More on the summary and the daily trend *)

Module SummaryProps.

Import JsString Worker.

(** [collect] goes through when every row id has a row. *)
Lemma collect_total store rowIndexes :
  inStore store rowIndexes ->
  forall acc, exists c, collect store rowIndexes acc = Some c.
Proof.
  induction 1 as [|index rest Hindex _ IH]; intros acc; [now exists acc|].
  cbn [collect]. destruct (lookup_lt_is_Some_2 store index Hindex) as [row ->].
  apply IH.
Qed.

Lemma collectRow_spanless acc row : spanOf row = None -> collectRow acc row = acc.
Proof.
  unfold spanOf, collectRow.
  destruct (parseDate (getField row "created")); [|reflexivity].
  destruct (parseDate (getField row "finished")); [discriminate | reflexivity].
Qed.

Lemma collect_skips_spanless store ids : forall acc,
  inStore store ids ->
  collect store ids acc = collect store (List.filter (hasSpan store) ids) acc.
Proof.
  induction ids as [|i ids IH]; intros acc Hin; [reflexivity|].
  inversion Hin as [|? ? Hi Hrest]; subst.
  destruct (lookup_lt_is_Some_2 store i Hi) as [row Hrow].
  cbn [List.filter]. unfold hasSpan at 1. rewrite Hrow.
  destruct (spanOf row) as [span|] eqn:Hspan.
  - cbn [collect]. rewrite Hrow. cbn [mbind option_bind]. apply IH, Hrest.
  - cbn [collect]. rewrite Hrow. cbn [mbind option_bind].
    rewrite (collectRow_spanless acc row Hspan). apply IH, Hrest.
Qed.

(** Rows whose created or finished date does not parse have no influence
    on the summary: it is the summary of the remaining row ids. *)
Theorem summary_ignores_spanless_rows st rowIndexes :
  inStore (rawDataStore st) rowIndexes ->
  calculateSummary st rowIndexes
  = calculateSummary st (List.filter (hasSpan (rawDataStore st)) rowIndexes).
Proof.
  intros Hin. unfold calculateSummary.
  destruct rowIndexes as [|i ids]; [reflexivity|].
  rewrite (collect_skips_spanless _ _ noEvents Hin).
  destruct (List.filter (hasSpan (rawDataStore st)) (i :: ids)); reflexivity.
Qed.

Lemma summary_ignores_spanless_rows_witness :
  calculateSummary withOpenRow [0; 1; 2]%nat
  = calculateSummary withOpenRow
      (List.filter (hasSpan (rawDataStore withOpenRow)) [0; 1; 2]%nat).
Proof.
  apply (summary_ignores_spanless_rows withOpenRow [0; 1; 2]%nat).
  repeat constructor.
Defined.

Example withOpenRow_spans :
  List.filter (hasSpan (rawDataStore withOpenRow)) [0; 1; 2]%nat = [0; 2]%nat.
Proof. vm_compute. reflexivity. Qed.

(** *** The peak is at most the number of rows *)

Lemma sweep_max_le l : forall m c,
  fst (fold_left sweepStep l (m, c)) <= Z.max m (c + Z.of_nat (startCount l)).
Proof.
  induction l as [|e l IH]; intros m c; [unfold startCount; simpl; lia|].
  cbn [fold_left]. unfold sweepStep at 2. unfold startCount. cbn [List.filter].
  destruct (type e).
  - specialize (IH (if m <? c + 1 then c + 1 else m) (c + 1)).
    unfold startCount in IH. cbn [length].
    destruct (m <? c + 1) eqn:Hm; [apply Z.ltb_lt in Hm | apply Z.ltb_ge in Hm]; lia.
  - specialize (IH m (c - 1)). unfold startCount in IH. lia.
Qed.

Lemma insertEvent_startCount e l : startCount (insertEvent e l) = startCount (e :: l).
Proof.
  induction l as [|y l IH]; [reflexivity|].
  cbn [insertEvent]. destruct (time e <=? time y); [reflexivity|].
  unfold startCount in *. cbn [List.filter] in *.
  destruct (type y), (type e); cbn [length] in *; lia.
Qed.

Lemma sortEvents_startCount l : startCount (sortEvents l) = startCount l.
Proof.
  induction l as [|e l IH]; [reflexivity|].
  simpl. rewrite insertEvent_startCount. unfold startCount in *. cbn [List.filter].
  destruct (type e); cbn [length]; lia.
Qed.

Lemma startCount_app a b : startCount (a ++ b) = (startCount a + startCount b)%nat.
Proof. unfold startCount. now rewrite List.filter_app, length_app. Qed.

Lemma collect_startCount store ids : forall acc c,
  collect store ids acc = Some c ->
  (startCount (events c) <= startCount (events acc) + length ids)%nat.
Proof.
  induction ids as [|i ids IH]; intros acc c H.
  - injection H as <-. simpl. lia.
  - cbn [collect] in H. destruct (store !! i) as [row|]; [|discriminate].
    cbn [mbind option_bind] in H. apply IH in H.
    assert (Hrow : (startCount (events (collectRow acc row)) <= S (startCount (events acc)))%nat).
    { unfold collectRow. destruct (parseDate _); [destruct (parseDate _)|]; cbn [events];
        try lia. rewrite startCount_app. unfold startCount at 2. simpl. lia. }
    cbn [length]. lia.
Qed.

(** The peak concurrency of a summary is never negative and never more
    than the number of row ids summarised. *)
Theorem peak_at_most_row_count st rowIndexes :
  inStore (rawDataStore st) rowIndexes ->
  exists s,
    calculateSummary st rowIndexes = Some s
    /\ 0 <= peakConcurrency s <= Z.of_nat (length rowIndexes).
Proof.
  intros Hstore. unfold calculateSummary. destruct rowIndexes as [|i ids].
  - exists emptySummary. split; [reflexivity|]. simpl. lia.
  - destruct (collect_total _ _ Hstore noEvents) as [c Hc]. rewrite Hc.
    exists (summarise c). split; [reflexivity|].
    apply collect_startCount in Hc. cbn [events noEvents] in Hc.
    unfold summarise. destruct (events c) as [|e evs] eqn:Hev; [simpl; lia|].
    cbn [peakConcurrency]. rewrite <- Hev in *. unfold sweep.
    pose proof (sweep_max_le (sortEvents (events c)) 0 0) as Hle.
    pose proof (SweepProps.sweep_max_mono (sortEvents (events c)) 0 0 (Z.le_refl 0)) as Hge.
    rewrite sortEvents_startCount in Hle. change (startCount []) with 0%nat in Hc. lia.
Qed.

Lemma peak_at_most_row_count_witness :
  exists s,
    calculateSummary threeRecords [0; 1; 2]%nat = Some s
    /\ 0 <= peakConcurrency s <= Z.of_nat (length [0; 1; 2]%nat).
Proof.
  apply (peak_at_most_row_count threeRecords [0; 1; 2]%nat).
  repeat constructor.
Defined.

(** *** Whole minutes *)

Lemma parseDate_minutes o t : parseDate o = Some t -> t mod 60000 = 0.
Proof.
  unfold parseDate. destruct (negb (truthy o)); [discriminate|].
  destruct (matchFirst _) as [[[[[y mo] d] h] mi]|]; [|discriminate].
  intros [= <-]. unfold dateUTC.
  match goal with |- (?a * 86400000 + h * 3600000 + mi * 60000) mod _ = 0 =>
    replace (a * 86400000 + h * 3600000 + mi * 60000)
      with ((a * 1440 + h * 60 + mi) * 60000) by ring end.
  apply Z.mod_mul. discriminate.
Qed.

Lemma collect_minutes store ids : forall acc c,
  collect store ids acc = Some c ->
  (exists z, (totalHandleTimeMinutes acc == inject_Z z)%Q) ->
  List.Forall (fun e => time e mod 60000 = 0) (events acc) ->
  (exists z, (totalHandleTimeMinutes c == inject_Z z)%Q)
  /\ List.Forall (fun e => time e mod 60000 = 0) (events c).
Proof.
  induction ids as [|i ids IH]; intros acc c H Htot Hev.
  - injection H as <-. auto.
  - cbn [collect] in H. destruct (store !! i) as [row|]; [|discriminate].
    cbn [mbind option_bind] in H. apply (IH _ _ H); clear IH H.
    + unfold collectRow.
      destruct (parseDate (getField row "created")) as [s|] eqn:Hs; [|exact Htot].
      destruct (parseDate (getField row "finished")) as [e|] eqn:He; [|exact Htot].
      cbn [totalHandleTimeMinutes]. destruct Htot as [z Hz].
      apply parseDate_minutes in Hs, He.
      exists (z + (e / 60000 - s / 60000)). rewrite Hz, inject_Z_plus.
      apply Qplus_comp; [reflexivity|].
      apply Z.div_exact in Hs, He; try discriminate.
      assert (Hdiff : e - s = (e / 60000 - s / 60000) * 60000) by lia.
      rewrite Hdiff.
      change (1000 * 60) with 60000. rewrite inject_Z_mult. field.
    + unfold collectRow.
      destruct (parseDate (getField row "created")) as [s|] eqn:Hs; [|exact Hev].
      destruct (parseDate (getField row "finished")) as [e|] eqn:He; [|exact Hev].
      cbn [events]. apply List.Forall_app. split; [exact Hev|].
      apply parseDate_minutes in Hs, He. repeat constructor; assumption.
Qed.

(** Timestamps are read to the minute: every event instant is a whole
    number of minutes, and so is the accumulated handle time, whatever
    seconds the dates carry. *)
Theorem summary_in_whole_minutes st rowIndexes :
  inStore (rawDataStore st) rowIndexes ->
  exists c,
    collect (rawDataStore st) rowIndexes noEvents = Some c
    /\ (exists z, (totalHandleTimeMinutes c == inject_Z z)%Q)
    /\ List.Forall (fun e => time e mod 60000 = 0) (events c).
Proof.
  intros Hstore. destruct (collect_total _ _ Hstore noEvents) as [c Hc].
  exists c. split; [exact Hc|].
  apply (collect_minutes _ _ _ _ Hc); [|constructor].
  exists 0. reflexivity.
Qed.

Lemma summary_in_whole_minutes_witness :
  exists c,
    collect (rawDataStore threeRecords) [0; 1; 2]%nat noEvents = Some c
    /\ (exists z, (totalHandleTimeMinutes c == inject_Z z)%Q)
    /\ List.Forall (fun e => time e mod 60000 = 0) (events c).
Proof.
  apply (summary_in_whole_minutes threeRecords [0; 1; 2]%nat).
  repeat constructor.
Defined.

(** *** The trend of a day against the summary *)

Lemma trendStep_sweep s e :
  (trendMax (trendStep s e), trendCurrent (trendStep s e))
  = sweepStep (trendMax s, trendCurrent s) e.
Proof. unfold trendStep, sweepStep. destruct (type e); reflexivity. Qed.

Lemma trendStep_current s e : trendCurrent (trendStep s e) = applyEvent (trendCurrent s) e.
Proof. unfold trendStep, applyEvent. destruct (type e); reflexivity. Qed.

Lemma trendStep_previous s e : trendPrevious (trendStep s e) = Some (time e).
Proof. unfold trendStep. destruct (type e); reflexivity. Qed.

Lemma trendStep_weighted s e previous :
  trendPrevious s = Some previous ->
  trendWeighted (trendStep s e)
  = (trendWeighted s
     + inject_Z (trendCurrent s) * (inject_Z (time e - previous) / inject_Z (1000 * 60)))%Q.
Proof. intros H. unfold trendStep. rewrite H. destruct (type e); reflexivity. Qed.

Lemma trend_fold_sweep l : forall s,
  (trendMax (fold_left trendStep l s), trendCurrent (fold_left trendStep l s))
  = fold_left sweepStep l (trendMax s, trendCurrent s).
Proof.
  induction l as [|e l IH]; intros s; [reflexivity|].
  cbn [fold_left]. rewrite IH, trendStep_sweep. reflexivity.
Qed.

(** The loop accumulates the weighted sum of the events, in minutes. *)
Lemma trend_fold_weighted rest : forall e s c0,
  trendPrevious s = Some (time e) ->
  trendCurrent s = applyEvent c0 e ->
  (trendWeighted (fold_left trendStep rest s)
   == trendWeighted s + inject_Z (weightedSum c0 (e :: rest)) / inject_Z 60000)%Q.
Proof.
  induction rest as [|next rest IH]; intros e s c0 Hprev Hcur.
  - cbn [fold_left weightedSum]. field.
  - cbn [fold_left].
    rewrite (IH next (trendStep s next) (applyEvent c0 e));
      [|apply trendStep_previous | rewrite trendStep_current, Hcur; reflexivity].
    rewrite (trendStep_weighted s next (time e) Hprev), Hcur.
    change (weightedSum c0 (e :: next :: rest))
      with (applyEvent c0 e * (time next - time e)
            + weightedSum (applyEvent c0 e) (next :: rest)).
    change (1000 * 60) with 60000. rewrite inject_Z_plus, inject_Z_mult. field.
Qed.

Lemma insertEvent_In x e l : In x (insertEvent e l) <-> x = e \/ In x l.
Proof.
  induction l as [|y l IH]; [simpl; intuition|].
  cbn [insertEvent]. destruct (time e <=? time y); simpl in *; intuition.
Qed.

Lemma sortEvents_In x l : In x (sortEvents l) <-> In x l.
Proof.
  induction l as [|e l IH]; [reflexivity|].
  simpl. rewrite insertEvent_In, IH. intuition.
Qed.

Lemma insertEvent_length e l : length (insertEvent e l) = S (length l).
Proof.
  induction l as [|y l IH]; [reflexivity|].
  cbn [insertEvent]. destruct (time e <=? time y); simpl; [reflexivity | now rewrite IH].
Qed.

Lemma sortEvents_length l : length (sortEvents l) = length l.
Proof.
  induction l as [|e l IH]; [reflexivity|]. simpl. now rewrite insertEvent_length, IH.
Qed.

Lemma sorted_head_least h t : timeSorted (h :: t) -> forall e, In e t -> time h <= time e.
Proof.
  revert h. induction t as [|y t IH]; intros h Hs e He; [destruct He|].
  destruct Hs as [Hhy Hs]. destruct He as [<-|He]; [exact Hhy|].
  specialize (IH y Hs e He). lia.
Qed.

Lemma sorted_last_greatest t : forall h,
  timeSorted (h :: t) -> forall e, In e (h :: t) -> time e <= lastTime (time h) t.
Proof.
  induction t as [|y t IH]; intros h Hs e He.
  - destruct He as [<-|[]]. simpl. lia.
  - destruct Hs as [Hhy Hs]. cbn [lastTime].
    destruct He as [<-|He].
    + specialize (IH y Hs y (or_introl eq_refl)). lia.
    + apply (IH y Hs e He).
Qed.

(** The earliest start and the latest end kept by the first loop are
    instants of events it emitted. *)
Lemma collect_attained store ids : forall acc c,
  collect store ids acc = Some c ->
  (forall f, firstEventTime acc = Some f -> In (mkEvent f StartEvent) (events acc)) ->
  (forall l, lastEventTime acc = Some l -> In (mkEvent l EndEvent) (events acc)) ->
  (forall f, firstEventTime c = Some f -> In (mkEvent f StartEvent) (events c))
  /\ (forall l, lastEventTime c = Some l -> In (mkEvent l EndEvent) (events c)).
Proof.
  induction ids as [|i ids IH]; intros acc c H Hf Hl.
  - injection H as <-. auto.
  - cbn [collect] in H. destruct (store !! i) as [row|]; [|discriminate].
    cbn [mbind option_bind] in H. apply (IH _ _ H); clear IH H; unfold collectRow;
      (destruct (parseDate (getField row "created")) as [s|]; [|assumption]);
      (destruct (parseDate (getField row "finished")) as [e|]; [|assumption]);
      cbn [events firstEventTime lastEventTime].
    + intros f Hfirst. apply in_or_app.
      destruct (firstEventTime acc) as [f0|].
      * destruct (s <? f0); injection Hfirst as <-; [right; left; reflexivity|].
        left. apply Hf. reflexivity.
      * injection Hfirst as <-. right. left. reflexivity.
    + intros l Hlast. apply in_or_app.
      destruct (lastEventTime acc) as [l0|].
      * destruct (l0 <? e); injection Hlast as <-; [right; right; left; reflexivity|].
        left. apply Hl. reflexivity.
      * injection Hlast as <-. right. right. left. reflexivity.
Qed.

(** What [dayTrend] returns for at least two events, from the sweep and the
    weighted sum of the sorted events. *)
Lemma dayTrend_sorted dayEvents e0 e1 rest :
  sortEvents dayEvents = e0 :: e1 :: rest ->
  exists weighted,
    dayTrend dayEvents
    = (fst (sweep (sortEvents dayEvents)),
       if Qle_bool (inject_Z (lastTime (time e0) (e1 :: rest) - time e0)
                    / inject_Z (1000 * 60)) 0
       then 0%Q
       else (weighted / (inject_Z (lastTime (time e0) (e1 :: rest) - time e0)
                         / inject_Z (1000 * 60)))%Q)
    /\ (weighted == inject_Z (weightedSum 0 (sortEvents dayEvents)) / inject_Z 60000)%Q.
Proof.
  intros Hs. unfold dayTrend. rewrite Hs.
  exists (trendWeighted (fold_left trendStep (e0 :: e1 :: rest) (mkTrend 0 0 0 None))).
  split.
  - f_equal. unfold sweep.
    pose proof (trend_fold_sweep (e0 :: e1 :: rest) (mkTrend 0 0 0 None)) as H.
    cbn [trendMax trendCurrent] in H. rewrite <- H. reflexivity.
  - change (fold_left trendStep (e0 :: e1 :: rest) (mkTrend 0 0 0 None))
      with (fold_left trendStep (e1 :: rest) (trendStep (mkTrend 0 0 0 None) e0)).
    rewrite (trend_fold_weighted (e1 :: rest) e0 _ 0);
      [|apply trendStep_previous | apply trendStep_current].
    assert (H0 : trendWeighted (trendStep (mkTrend 0 0 0 None) e0) = 0%Q).
    { unfold trendStep. destruct (type e0); reflexivity. }
    rewrite H0. field.
Qed.

(** For rows that never finish before they were created, the daily trend
    computed by the analysis request from the events of these rows has the
    peak and the average that [calculateSummary] reports for them. *)
Theorem day_trend_matches_summary st rowIndexes :
  allOrdered (rawDataStore st) rowIndexes = true ->
  exists c s,
    collect (rawDataStore st) rowIndexes noEvents = Some c
    /\ calculateSummary st rowIndexes = Some s
    /\ fst (dayTrend (events c)) = peakConcurrency s
    /\ (snd (dayTrend (events c)) == avgConcurrency s)%Q.
Proof.
  intros Hord.
  destruct (SweepProps.collect_described (rawDataStore st) rowIndexes noEvents []
              SweepProps.Described_noEvents (SweepProps.allOrdered_inStore _ _ Hord))
    as (c & pairs & Hc & (Hev & Htot & Hrange) & Hpairs).
  specialize (Hpairs Hord (List.Forall_nil _)).
  destruct (collect_attained _ _ _ _ Hc) as [Hfirst Hlast];
    [discriminate | discriminate |].
  exists c. unfold calculateSummary.
  destruct rowIndexes as [|index ids].
  - injection Hc as <-. exists emptySummary. repeat split; reflexivity.
  - rewrite Hc. cbn [fmap option_fmap option_map]. exists (summarise c).
    split; [reflexivity|]. split; [reflexivity|].
    unfold summarise.
    destruct Hrange as [(-> & _) | (Hne & f & l & Hf & Hl & Hall)].
    { rewrite Hev. cbn. split; reflexivity. }
    destruct pairs as [|p pairs]; [congruence|].
    assert (Hlen : length (sortEvents (events c)) = (2 + length (eventsOf pairs))%nat).
    { rewrite sortEvents_length, Hev. reflexivity. }
    destruct (sortEvents (events c)) as [|e0 [|e1 rest]] eqn:Hsorted; try discriminate Hlen.
    destruct (dayTrend_sorted (events c) e0 e1 rest Hsorted) as (weighted & Hday & Hweighted).
    rewrite Hday, Hsorted. clear Hday.
    assert (Hnonempty : events c <> []) by (rewrite Hev; discriminate).
    destruct (events c) as [|ev evs] eqn:Hevents; [congruence|].
    cbn [fst snd peakConcurrency avgConcurrency]. rewrite <- Hevents in *.
    split; [reflexivity|].
    (* the sorted list starts at the earliest start and ends at the latest end *)
    pose proof (SweepProps.sortEvents_sorted (events c)) as Hs. rewrite Hsorted in Hs.
    pose proof (SweepProps.sortEvents_Forall _ _
                  (SweepProps.eventsOf_within f l (p :: pairs) Hall Hpairs)) as Hwithin.
    rewrite <- Hev, Hsorted in Hwithin.
    assert (Hinf : In (mkEvent f StartEvent) (e0 :: e1 :: rest)).
    { rewrite <- Hsorted. apply sortEvents_In, Hfirst, Hf. }
    assert (Hinl : In (mkEvent l EndEvent) (e0 :: e1 :: rest)).
    { rewrite <- Hsorted. apply sortEvents_In, Hlast, Hl. }
    assert (He0 : time e0 = f).
    { inversion Hwithin as [|? ? [Hlo _] _]; subst.
      destruct Hinf as [->|Hinf]; [reflexivity|].
      pose proof (sorted_head_least e0 (e1 :: rest) Hs _ Hinf) as Hle. simpl in Hle. lia. }
    assert (Hend : lastTime (time e0) (e1 :: rest) = l).
    { pose proof (sorted_last_greatest (e1 :: rest) e0 Hs _ Hinl) as Hge. simpl time in Hge.
      assert (Hle : lastTime (time e0) (e1 :: rest) <= l).
      { inversion Hwithin as [|? ? [_ Hhi] Hrest]; subst.
        apply SweepProps.lastTime_le; [exact Hhi|].
        eapply List.Forall_impl; [|exact Hrest]. simpl. intros; lia. }
      lia. }
    rewrite Hend, He0.
    unfold averageOf. rewrite Hf, Hl.
    destruct (Qle_bool (inject_Z (l - f) / inject_Z (1000 * 60)) 0) eqn:Hguard;
      [reflexivity|].
    rewrite SweepProps.Qle_bool_minutes in Hguard. apply Z.leb_gt in Hguard.
    rewrite Hweighted, Htot.
    rewrite SweepProps.weightedSum_balanced
      by (rewrite SweepProps.sortEvents_balance, Hev; apply SweepProps.eventsOf_balance).
    rewrite SweepProps.sortEvents_moment, Hev, SweepProps.eventsOf_moment, Z.opp_involutive.
    reflexivity.
Qed.

Lemma day_trend_matches_summary_witness :
  exists c s,
    collect (rawDataStore threeRecords) [0; 1; 2]%nat noEvents = Some c
    /\ calculateSummary threeRecords [0; 1; 2]%nat = Some s
    /\ fst (dayTrend (events c)) = peakConcurrency s
    /\ (snd (dayTrend (events c)) == avgConcurrency s)%Q.
Proof.
  apply (day_trend_matches_summary threeRecords [0; 1; 2]%nat).
  vm_compute. reflexivity.
Defined.

End SummaryProps.

(** ** The page request *)

Module PageProps.

Import JsString Worker.

(** A window that starts at a non-negative index. *)
Lemma jsSlice_window {A} (l : list A) start count :
  0 <= start -> 0 <= count ->
  jsSlice start (start + count) l = take (Z.to_nat count) (drop (Z.to_nat start) l).
Proof.
  intros Hs Hc. unfold jsSlice.
  destruct (start <? 0) eqn:H1; [apply Z.ltb_lt in H1; lia|].
  destruct (start + count <? 0) eqn:H2; [apply Z.ltb_lt in H2; lia|].
  destruct (Z_lt_le_dec start (Z.of_nat (length l))) as [Hin|Hout].
  - rewrite (Z.min_l start) by lia.
    destruct (Z_le_gt_dec (start + count) (Z.of_nat (length l))) as [Hfit|Hover].
    + rewrite Z.min_l by lia. f_equal. lia.
    + rewrite Z.min_r by lia.
      rewrite !take_ge; [reflexivity | |]; rewrite length_drop; lia.
  - rewrite !Z.min_r by lia. rewrite Z.sub_diag. cbn [Z.to_nat take].
    rewrite (drop_ge l (Z.to_nat start)) by lia. now rewrite take_nil.
Qed.

Lemma page_window l page rowsPerPage :
  0 < rowsPerPage ->
  pageIndexes l (Z.of_nat page + 1) rowsPerPage
  = take (Z.to_nat rowsPerPage) (drop (page * Z.to_nat rowsPerPage) l).
Proof.
  intros Hr. unfold pageIndexes.
  replace (Z.of_nat page + 1 - 1) with (Z.of_nat page) by lia.
  rewrite jsSlice_window by lia. f_equal. f_equal. lia.
Qed.

Lemma pages_concat l rowsPerPage k :
  0 < rowsPerPage ->
  concat (map (fun page => pageIndexes l (Z.of_nat page + 1) rowsPerPage) (seq 0 k))
  = take (k * Z.to_nat rowsPerPage) l.
Proof.
  intros Hr. induction k as [|k IH]; [reflexivity|].
  rewrite seq_S, map_app, concat_app, IH. cbn [map concat Nat.add].
  rewrite app_nil_r, page_window by exact Hr.
  rewrite take_take_drop. f_equal. lia.
Qed.

(** The pages of a request cut the sorted row ids into consecutive windows:
    the first [k] pages put one after the other are the first
    [k * rowsPerPage] ids, so enough pages give the whole list, each id once;
    no page is longer than [rowsPerPage], a page past the end is empty, and
    so is page 0. *)
Theorem pages_partition sortedIndexes rowsPerPage k :
  0 < rowsPerPage ->
  concat (map (fun page => pageIndexes sortedIndexes (Z.of_nat page + 1) rowsPerPage) (seq 0 k))
  = take (k * Z.to_nat rowsPerPage) sortedIndexes
  /\ ((length sortedIndexes <= k * Z.to_nat rowsPerPage)%nat ->
      concat (map (fun page => pageIndexes sortedIndexes (Z.of_nat page + 1) rowsPerPage)
                (seq 0 k))
      = sortedIndexes)
  /\ (forall page,
        (length (pageIndexes sortedIndexes (Z.of_nat page + 1) rowsPerPage)
         <= Z.to_nat rowsPerPage)%nat
        /\ ((length sortedIndexes <= page * Z.to_nat rowsPerPage)%nat ->
            pageIndexes sortedIndexes (Z.of_nat page + 1) rowsPerPage = []))
  /\ pageIndexes sortedIndexes 0 rowsPerPage = [].
Proof.
  intros Hr. split; [apply pages_concat, Hr|]. split; [|split].
  - intros Hall. rewrite pages_concat by exact Hr. now apply take_ge.
  - intros page. rewrite page_window by exact Hr. split.
    + rewrite length_take. lia.
    + intros Hpast. rewrite drop_ge by exact Hpast. apply take_nil.
  - unfold pageIndexes, jsSlice.
    replace ((0 - 1) * rowsPerPage) with (- rowsPerPage) by lia.
    replace (- rowsPerPage + rowsPerPage) with 0 by lia.
    destruct (- rowsPerPage <? 0) eqn:H1; [|apply Z.ltb_ge in H1; lia].
    cbn [Z.ltb Z.compare]. rewrite (Z.min_l 0) by lia.
    replace (Z.to_nat (0 - Z.max (Z.of_nat (length sortedIndexes) + - rowsPerPage) 0))
      with 0%nat by lia.
    reflexivity.
Qed.

Lemma pages_partition_witness :
  concat (map (fun page => pageIndexes [4; 2; 7; 1; 9]%nat (Z.of_nat page + 1) 2) (seq 0 3))
  = [4; 2; 7; 1; 9]%nat.
Proof.
  apply (pages_partition [4; 2; 7; 1; 9]%nat 2 3).
  - lia.
  - simpl. lia.
Defined.

(** *** The comparator *)

Lemma compareValues_antisym parseFloat a b :
  compareValues parseFloat a b = CompOpp (compareValues parseFloat b a).
Proof.
  unfold compareValues.
  destruct (parseFloat a) as [x|], (parseFloat b) as [y|];
    try apply String.compare_antisym.
  rewrite (andb_comm (truthy (Some b))).
  destruct (truthy (Some a) && truthy (Some b)); [|apply String.compare_antisym].
  destruct x as [|x|], y as [|y|]; try reflexivity.
  symmetry. apply Qcompare_antisym.
Qed.

Lemma compareValues_refl parseFloat a : compareValues parseFloat a a = Eq.
Proof.
  assert (Hs : String.compare a a = Eq).
  { pose proof (String.compare_antisym a a) as H.
    destruct (String.compare a a); [reflexivity | discriminate H | discriminate H]. }
  unfold compareValues. destruct (parseFloat a) as [x|]; [|exact Hs].
  destruct (truthy (Some a) && truthy (Some a)); [|exact Hs].
  destruct x as [|x|]; try reflexivity. apply Qeq_alt. reflexivity.
Qed.

(** The comparator of the page request is antisymmetric, gives 0 on a row
    against itself, and any direction other than ['ascending'] gives the
    opposite of the ascending order. *)
Theorem sortCompare_antisymmetric parseFloat direction key rowA rowB :
  sortCompare parseFloat direction key rowA rowB
  = - sortCompare parseFloat direction key rowB rowA
  /\ sortCompare parseFloat direction key rowA rowA = 0
  /\ (direction <> "ascending" ->
      sortCompare parseFloat direction key rowA rowB
      = - sortCompare parseFloat "ascending" key rowA rowB).
Proof.
  unfold sortCompare. split; [|split].
  - rewrite (compareValues_antisym parseFloat
               (default "" (getField rowA key)) (default "" (getField rowB key))).
    destruct (compareValues parseFloat _ _), (String.eqb direction "ascending"); reflexivity.
  - now rewrite compareValues_refl.
  - intros Hdir. apply String.eqb_neq in Hdir. rewrite Hdir. cbn [String.eqb].
    change (String.eqb "ascending" "ascending") with true.
    destruct (compareValues parseFloat _ _); reflexivity.
Qed.

Lemma sortCompare_antisymmetric_witness :
  sortCompare (fun _ => None) "descending" "status"
    (normalizeRow [("Status", "open")]) (normalizeRow [("Status", "closed")])
  = - sortCompare (fun _ => None) "ascending" "status"
        (normalizeRow [("Status", "open")]) (normalizeRow [("Status", "closed")]).
Proof.
  apply (sortCompare_antisymmetric (fun _ => None) "descending" "status").
  discriminate.
Defined.

End PageProps.

(** ** More on the scheduler *)

Module QueueProps.

Import Scheduler.

Lemma processQueue_order pending : forall ticks w,
  queue (rq w) = pending ->
  (startedTasks (processQueue pending ticks w) ++ queue (rq (processQueue pending ticks w)))%list
  = (startedTasks w ++ pending)%list.
Proof.
  induction pending as [|fn rest IH]; intros ticks w Hq.
  - cbn [processQueue]. now rewrite Hq.
  - cbn [processQueue].
    destruct ((activeCount (rq w) <? maxConcurrency (rq w)) && Qeq_bool _ 0).
    + rewrite IH by reflexivity. unfold startedTasks. cbn [dispatched map fst rev].
      now rewrite <- app_assoc.
    + destruct (activeCount (rq w) <? maxConcurrency (rq w)); cbn [rq dispatched];
        unfold startedTasks; cbn [dispatched]; now rewrite Hq.
Qed.

Lemma processQueue_inFlight pending : forall ticks w,
  (forall fn, In fn (inFlight w) -> In fn (startedTasks w)) ->
  forall fn, In fn (inFlight (processQueue pending ticks w)) ->
             In fn (startedTasks (processQueue pending ticks w)).
Proof.
  induction pending as [|task rest IH]; intros ticks w Hw; [exact Hw|].
  cbn [processQueue].
  destruct ((activeCount (rq w) <? maxConcurrency (rq w)) && Qeq_bool _ 0).
  - apply IH. unfold startedTasks. cbn [inFlight dispatched map fst rev].
    intros fn [<-|Hin]; apply in_or_app; [right; left; reflexivity|].
    left. apply Hw, Hin.
  - destruct (activeCount (rq w) <? maxConcurrency (rq w)); exact Hw.
Qed.

Lemma removeFirst_In fn x l : In x (removeFirst fn l) -> In x l.
Proof.
  induction l as [|y l IH]; [auto|].
  cbn [removeFirst]. destruct (Nat.eqb fn y); simpl; intuition.
Qed.

Lemma step_order w a :
  (startedTasks (step w a) ++ queue (rq (step w a)))%list
  = ((startedTasks w ++ queue (rq w)) ++ submitted [a])%list.
Proof.
  destruct a as [fn ticks|fn ticks|ticks]; cbn [step submitted flat_map].
  - unfold add, process. rewrite processQueue_order by reflexivity.
    cbn [withQueue rq queue]. unfold startedTasks. cbn [dispatched].
    now rewrite app_nil_r, app_assoc.
  - rewrite app_nil_r. destruct (existsb _ _); [|reflexivity].
    unfold settle, process. now rewrite processQueue_order by reflexivity.
  - rewrite app_nil_r. destruct (timers w); [reflexivity|].
    unfold fire, process. now rewrite processQueue_order by reflexivity.
Qed.

Lemma step_inFlight w a :
  (forall fn, In fn (inFlight w) -> In fn (startedTasks w)) ->
  forall fn, In fn (inFlight (step w a)) -> In fn (startedTasks (step w a)).
Proof.
  intros Hw. destruct a as [task ticks|task ticks|ticks]; cbn [step].
  - apply processQueue_inFlight. exact Hw.
  - destruct (existsb _ _); [|exact Hw].
    apply processQueue_inFlight. cbn [inFlight]. unfold startedTasks. cbn [dispatched].
    intros fn Hin. apply Hw. eapply removeFirst_In, Hin.
  - destruct (timers w); [exact Hw|]. apply processQueue_inFlight. exact Hw.
Qed.

Lemma run_order actions : forall w,
  (startedTasks (run actions w) ++ queue (rq (run actions w)))%list
  = ((startedTasks w ++ queue (rq w)) ++ submitted actions)%list
  /\ ((forall fn, In fn (inFlight w) -> In fn (startedTasks w)) ->
      forall fn, In fn (inFlight (run actions w)) -> In fn (startedTasks (run actions w))).
Proof.
  induction actions as [|a actions IH]; intros w.
  - cbn [run fold_left submitted flat_map]. rewrite app_nil_r. auto.
  - change (run (a :: actions) w) with (run actions (step w a)).
    destruct (IH (step w a)) as [Horder Hin]. split.
    + rewrite Horder, step_order.
      assert (Hcons : submitted (a :: actions) = (submitted [a] ++ submitted actions)%list).
      { unfold submitted. cbn [flat_map]. now rewrite app_nil_r. }
      rewrite Hcons. now rewrite <- !app_assoc.
    + intros Hw. apply Hin, step_inFlight, Hw.
Qed.

(** Without [clear], the queue starts the tasks in the order in which they
    were submitted, each once and none skipped: the started tasks followed
    by the pending ones are the submitted ones, and every task in flight
    was started. *)
Theorem tasks_start_in_submission_order cap delay t0 actions :
  (startedTasks (run actions (start cap delay t0))
   ++ queue (rq (run actions (start cap delay t0))))%list
  = submitted actions
  /\ forall fn, In fn (inFlight (run actions (start cap delay t0))) ->
                In fn (startedTasks (run actions (start cap delay t0))).
Proof.
  destruct (run_order actions (start cap delay t0)) as [Horder Hin]. split.
  - rewrite Horder. reflexivity.
  - apply Hin. intros fn [].
Qed.

Lemma tasks_start_in_submission_order_witness :
  In 2%nat (startedTasks (run sampleActions (start 2 6000 1700000000000))).
Proof.
  apply (tasks_start_in_submission_order 2 6000 1700000000000 sampleActions).
  vm_compute. left. reflexivity.
Defined.

(** *** No pending task is left without a wake-up *)

Lemma processQueue_wakeup pending : forall ticks w,
  queue (rq w) = pending ->
  queue (rq (processQueue pending ticks w)) = []
  \/ timers (processQueue pending ticks w) <> []
  \/ maxConcurrency (rq (processQueue pending ticks w))
     <= activeCount (rq (processQueue pending ticks w)).
Proof.
  induction pending as [|fn rest IH]; intros ticks w Hq; [left; exact Hq|].
  cbn [processQueue].
  destruct (activeCount (rq w) <? maxConcurrency (rq w)) eqn:Hslot; cbn [andb].
  - destruct (Qeq_bool _ 0).
    + apply IH. reflexivity.
    + right. left. cbn [timers]. discriminate.
  - right. right. cbn [rq]. apply Z.ltb_ge in Hslot. exact Hslot.
Qed.

Lemma process_wakeup cap delay ticks w :
  0 < cap -> Inv cap delay w ->
  queue (rq (process ticks w)) = []
  \/ timers (process ticks w) <> [] \/ inFlight (process ticks w) <> [].
Proof.
  intros Hcap Hinv.
  pose proof (SchedulerProps.process_inv cap delay ticks w Hinv) as [Hc _ Hcount _ _ _].
  destruct (processQueue_wakeup (queue (rq w)) ticks w eq_refl) as [H|[H|H]]; auto.
  right. right. fold (process ticks w) in H. rewrite Hc, Hcount in H.
  destruct (inFlight (process ticks w)); [simpl in H; lia | discriminate].
Qed.

Lemma Inv_equal_queue cap delay w w' :
  Inv cap delay w ->
  maxConcurrency (rq w') = maxConcurrency (rq w) -> minDelay (rq w') = minDelay (rq w) ->
  activeCount (rq w') = activeCount (rq w) -> lastRequestTime (rq w') = lastRequestTime (rq w) ->
  inFlight w' = inFlight w -> dispatched w' = dispatched w ->
  Inv cap delay w'.
Proof.
  intros [H1 H2 H3 H4 H5 H6] E1 E2 E3 E4 E5 E6.
  constructor; unfold instants in *; rewrite ?E1, ?E2, ?E3, ?E4, ?E5, ?E6; assumption.
Qed.

(** After any run on a queue with a positive cap, a pending task always
    has something that will call [process] again: a timer is set, or a task
    is in flight whose settling does it. *)
Theorem pending_task_has_wakeup cap delay t0 actions :
  0 < cap ->
  queue (rq (run actions (start cap delay t0))) = []
  \/ timers (run actions (start cap delay t0)) <> []
  \/ inFlight (run actions (start cap delay t0)) <> [].
Proof.
  intros Hcap. induction actions as [|a actions IH] using rev_ind; [left; reflexivity|].
  unfold run in *. rewrite fold_left_app. cbn [fold_left].
  fold (run actions (start cap delay t0)) in *.
  pose proof (SchedulerProps.run_inv cap delay actions _
                (SchedulerProps.start_inv cap delay t0 (Z.lt_le_incl _ _ Hcap))) as Hinv.
  set (w := run actions (start cap delay t0)) in *.
  destruct a as [fn ticks|fn ticks|ticks]; cbn [step].
  - apply (process_wakeup cap delay); [exact Hcap|].
    apply (Inv_equal_queue cap delay w); auto.
  - destruct (existsb (Nat.eqb fn) (inFlight w)) eqn:Hin; [|exact IH].
    pose proof (SchedulerProps.step_inv cap delay w (Settle fn ticks) Hinv) as Hstep.
    cbn [step] in Hstep. rewrite Hin in Hstep.
    destruct Hstep as [Hc _ Hcount _ _ _].
    destruct (processQueue_wakeup (queue (rq w)) ticks
                {| rq := {| queue := queue (rq w); activeCount := activeCount (rq w) - 1;
                            maxConcurrency := maxConcurrency (rq w);
                            minDelay := minDelay (rq w);
                            lastRequestTime := lastRequestTime (rq w) |};
                   clock := clock w; inFlight := removeFirst fn (inFlight w);
                   dispatched := dispatched w; timers := timers w |} eq_refl) as [H|[H|H]];
      auto.
    right. right. unfold settle, process. cbn [rq queue].
    unfold settle, process in Hc, Hcount. cbn [rq queue] in Hc, Hcount.
    rewrite Hc, Hcount in H.
    match goal with |- inFlight ?x <> [] => destruct (inFlight x) end;
      [simpl in H; lia | discriminate].
  - destruct (timers w) as [|t ts] eqn:Ht.
    { destruct IH as [H|[H|H]]; [left; exact H | congruence | right; right; exact H]. }
    apply (process_wakeup cap delay); [exact Hcap|].
    apply (Inv_equal_queue cap delay w); auto.
Qed.

Lemma pending_task_has_wakeup_witness :
  queue (rq (run sampleActions (start 2 6000 1700000000000))) = []
  \/ timers (run sampleActions (start 2 6000 1700000000000)) <> []
  \/ inFlight (run sampleActions (start 2 6000 1700000000000)) <> [].
Proof. apply (pending_task_has_wakeup 2 6000 1700000000000 sampleActions). lia. Defined.

(** *** The constructor *)

(** For at least one request per minute the constructor sets a cap between
    2 and 6 and a positive interval of at most a minute. *)
Theorem newQueue_bounds rpm :
  (1 <= rpm)%Q ->
  2 <= maxConcurrency (newQueue rpm) <= 6
  /\ (0 < minDelay (newQueue rpm))%Q /\ (minDelay (newQueue rpm) <= 60000)%Q
  /\ queue (newQueue rpm) = [] /\ activeCount (newQueue rpm) = 0
  /\ lastRequestTime (newQueue rpm) = 0.
Proof.
  intros Hrpm. cbn [newQueue initial maxConcurrency minDelay queue activeCount lastRequestTime].
  assert (Hpos : (0 < rpm)%Q) by (eapply Qlt_le_trans; [|exact Hrpm]; reflexivity).
  assert (Hceil : 1 <= Qceiling (rpm / 10)).
  { assert (H : (0 < inject_Z (Qceiling (rpm / 10)))%Q).
    { eapply Qlt_le_trans; [|apply Qle_ceiling].
      apply Qlt_shift_div_l; [reflexivity|]. now rewrite Qmult_0_l. }
    change 0%Q with (inject_Z 0) in H. rewrite <- Zlt_Qlt in H. lia. }
  split; [lia|]. split; [|split; [|auto]].
  - apply Qlt_shift_div_l; [exact Hpos|]. now rewrite Qmult_0_l.
  - apply Qle_shift_div_r; [exact Hpos|].
    apply Qle_trans with (60000 * 1)%Q; [discriminate|].
    apply Qmult_le_l; [reflexivity | exact Hrpm].
Qed.

Lemma newQueue_bounds_witness : 2 <= maxConcurrency (newQueue 10) <= 6.
Proof. apply (newQueue_bounds 10). discriminate. Defined.

End QueueProps.

(** ** More on the summariser *)

Module ParseProps.

Import JsString Summarizer.

Lemma prefix_backtick_first pattern c rest :
  Ascii.eqb c "`"%char = false ->
  String.prefix (String "`"%char pattern) (String c rest) = false.
Proof.
  intros H. cbn [String.prefix].
  destruct (ascii_dec "`"%char c) as [<-|_]; [|reflexivity].
  rewrite Ascii.eqb_refl in H. discriminate.
Qed.

(** A stretch without backticks goes through the fence removal unchanged. *)
Lemma removeFences_plain s : forall rest,
  noBacktick s = true ->
  removeFencesGo 0 (s ++ rest) = s ++ removeFencesGo 0 rest.
Proof.
  induction s as [|c s IH]; intros rest H; [reflexivity|].
  cbn [noBacktick] in H. apply andb_prop in H as [Hc Hs]. apply negb_true_iff in Hc.
  change (String c s ++ rest) with (String c (s ++ rest)).
  cbn [removeFencesGo].
  change (fence ++ "json") with (String "`"%char "``json").
  change fence with (String "`"%char "``").
  rewrite !prefix_backtick_first by exact Hc.
  rewrite IH by exact Hs. reflexivity.
Qed.

Lemma append_empty s : s ++ "" = s.
Proof.
  induction s as [|c s IH]; [reflexivity|].
  change (String c s ++ "") with (String c (s ++ "")). now rewrite IH.
Qed.

Lemma prefix_app p rest : String.prefix p (p ++ rest) = true.
Proof.
  induction p as [|c p IH]; [destruct rest; reflexivity|].
  change (String c p ++ rest) with (String c (p ++ rest)). cbn [String.prefix].
  destruct (ascii_dec c c); [exact IH | congruence].
Qed.

Lemma removeFencesGo_skip s : forall rest,
  removeFencesGo (String.length s) (s ++ rest) = removeFencesGo 0 rest.
Proof.
  induction s as [|c s IH]; intros rest; [reflexivity|].
  change (String c s ++ rest) with (String c (s ++ rest)).
  cbn [String.length removeFencesGo]. apply IH.
Qed.

Lemma removeFences_fenced inner :
  noBacktick inner = true ->
  removeFences (fence ++ "json" ++ inner ++ fence) = inner.
Proof.
  intros H. unfold removeFences.
  change (fence ++ "json" ++ inner ++ fence)
    with (String "`"%char ("``json" ++ (inner ++ fence))).
  cbn [removeFencesGo].
  change (String "`"%char ("``json" ++ (inner ++ fence)))
    with ((fence ++ "json") ++ (inner ++ fence)).
  rewrite prefix_app.
  change 6%nat with (String.length "``json"). rewrite removeFencesGo_skip.
  rewrite removeFences_plain by exact H.
  change (removeFencesGo 0 fence) with "". apply append_empty.
Qed.

Section Fenced.

Variable Json : Type.
Variable jsonParse : string -> option Json.

(** An answer wrapped in a [json] code fence is read as its body: when the
    wrapped text itself is not JSON and the body holds no backtick,
    [safeJsonParse] returns what [JSON.parse] makes of the trimmed body. *)
Theorem fenced_answer_parses_as_body inner v :
  noBacktick inner = true ->
  jsonParse (fence ++ "json" ++ inner ++ fence) = None ->
  jsonParse (trim inner) = Some v ->
  safeJsonParse Json jsonParse (fence ++ "json" ++ inner ++ fence) = Some v.
Proof.
  intros Hplain Hraw Hbody. unfold safeJsonParse.
  rewrite Hraw, (removeFences_fenced inner Hplain), Hbody. reflexivity.
Qed.

End Fenced.

Lemma fenced_answer_parses_as_body_witness :
  safeJsonParse string braceParse (fence ++ "json" ++ (nl ++ "{}" ++ nl) ++ fence) = Some "{}".
Proof.
  apply (fenced_answer_parses_as_body string braceParse (nl ++ "{}" ++ nl) "{}");
    vm_compute; reflexivity.
Defined.

Section Outcome.

Variable Json : Type.
Variable jsonParse : string -> option Json.
Variable truthyJson : Json -> bool.
Variable stringify : Json -> string.
Variable replaceStr : string -> string -> string -> string.
Variable generateContent : Call -> Response.
Variable INTERMEDIATE_BATCH_PROMPT : string.
Variable summaryPrompt : string.

Local Abbreviation run := (generateSummary Json jsonParse truthyJson stringify replaceStr
                             generateContent INTERMEDIATE_BATCH_PROMPT summaryPrompt).

Lemma aggregation_outcome n input :
  let call := FinalCall (finalPrompt replaceStr summaryPrompt n input) in
  (forall d,
     snd (finalAggregation Json jsonParse truthyJson replaceStr generateContent
            summaryPrompt n input) = SummaryOf d ->
     exists text, generateContent call = Ok text
                  /\ safeJsonParse Json jsonParse text = Some d /\ truthyJson d = true)
  /\ (forall message, generateContent call = Err message ->
        snd (finalAggregation Json jsonParse truthyJson replaceStr generateContent
               summaryPrompt n input) = Failed message).
Proof.
  unfold finalAggregation. cbn [snd]. split.
  - intros d. destruct (generateContent _) as [text|message]; [|discriminate].
    destruct (safeJsonParse Json jsonParse text) as [data|] eqn:Hparse; [|discriminate].
    destruct (truthyJson data) eqn:Htruthy; [|discriminate].
    intros [= <-]. eauto.
  - intros message ->. reflexivity.
Qed.

(** What the run ends with hangs on its last call: a summary is shown only
    when that call answered a text that parses to a truthy value, and when
    that call fails its message is shown as the failure. *)
Theorem summary_needs_parsed_final_answer results :
  (forall d, outcome (run results) = SummaryOf d ->
     exists call text,
       last (calls (run results)) = Some call
       /\ generateContent call = Ok text
       /\ safeJsonParse Json jsonParse text = Some d /\ truthyJson d = true)
  /\ (forall call message,
        last (calls (run results)) = Some call ->
        generateContent call = Err message ->
        outcome (run results) = Failed message).
Proof.
  assert (Hcases : List.filter (usable Json truthyJson) results = []
                   \/ List.filter (usable Json truthyJson) results <> []).
  { destruct (List.filter (usable Json truthyJson) results); [left | right]; congruence. }
  destruct Hcases as [Hvalid|Hvalid].
  - assert (Hrun : run results = {| calls := []; outcome := NoSummary |}).
    { unfold generateSummary. rewrite Hvalid. reflexivity. }
    rewrite Hrun. cbn [calls outcome last]. split; [discriminate|]. intros call m H. discriminate H.
  - destruct (le_lt_dec (length (List.filter (usable Json truthyJson) results)) BATCH_SIZE)
      as [Hsmall|Hbig].
    + rewrite (SummarizerProps.run_direct Json jsonParse truthyJson stringify replaceStr
                 generateContent INTERMEDIATE_BATCH_PROMPT summaryPrompt results Hvalid Hsmall).
      cbn [calls outcome last].
      destruct (aggregation_outcome (length (List.filter (usable Json truthyJson) results))
                  (join (nl ++ nl)
                     (map (stringifyInsight Json stringify)
                        (List.filter (usable Json truthyJson) results)))) as [Hsum Hfail].
      split.
      * intros d Hd. destruct (Hsum d Hd) as (text & H1 & H2 & H3). eauto 6.
      * intros call m [= <-]. apply Hfail.
    + rewrite (SummarizerProps.run_batched Json jsonParse truthyJson stringify replaceStr
                 generateContent INTERMEDIATE_BATCH_PROMPT summaryPrompt results Hbig).
      cbn [calls outcome]. rewrite last_snoc.
      match goal with |- context [finalAggregation _ _ _ _ _ _ ?n ?input] =>
        destruct (aggregation_outcome n input) as [Hsum Hfail] end.
      split.
      * intros d Hd. destruct (Hsum d Hd) as (text & H1 & H2 & H3). eauto 6.
      * intros call m [= <-]. apply Hfail.
Qed.

End Outcome.

Lemma summary_needs_parsed_final_answer_witness :
  exists call text,
    last (calls (sampleRun alwaysOk 3)) = Some call
    /\ alwaysOk call = Ok text
    /\ safeJsonParse string braceParse text = Some "{}" /\ anyTruthy "{}" = true.
Proof.
  apply (summary_needs_parsed_final_answer string braceParse anyTruthy (fun v => v)
           replaceFirst alwaysOk
           "Consolidate {count} insights: {batch_insights}"
           "Summarise {insight_count} insights: {all_insights}"
           (repeat sampleResult 3)).
  vm_compute. reflexivity.
Defined.

(** *** The object inside a longer answer *)

Lemma append_String c (s rest : string) : String c s ++ rest = String c (s ++ rest).
Proof. reflexivity. Qed.

Lemma append_nil_l (s : string) : "" ++ s = s.
Proof. reflexivity. Qed.

Lemma append_assoc (a b c : string) : (a ++ b) ++ c = a ++ b ++ c.
Proof.
  induction a as [|x a IH]; [reflexivity|]. rewrite !append_String. now rewrite IH.
Qed.

Lemma length_append (a b : string) :
  String.length (a ++ b) = (String.length a + String.length b)%nat.
Proof.
  induction a as [|x a IH]; [reflexivity|]. rewrite append_String. cbn [String.length].
  now rewrite IH.
Qed.

Lemma indexOf_first c before rest :
  lacks c before = true ->
  indexOf c (before ++ String c rest) = Some (String.length before).
Proof.
  induction before as [|d before IH]; intros Hlacks.
  - rewrite append_nil_l. cbn [indexOf]. now rewrite Ascii.eqb_refl.
  - cbn [lacks] in Hlacks. apply andb_prop in Hlacks as [Hd Hlacks].
    apply negb_true_iff in Hd. rewrite append_String. cbn [indexOf String.length].
    rewrite Hd, (IH Hlacks). reflexivity.
Qed.

Lemma lastIndexOf_lacks c s : lacks c s = true -> lastIndexOf c s = None.
Proof.
  induction s as [|d s IH]; intros Hlacks; [reflexivity|].
  cbn [lacks] in Hlacks. apply andb_prop in Hlacks as [Hd Hlacks].
  apply negb_true_iff in Hd. cbn [lastIndexOf]. now rewrite (IH Hlacks), Hd.
Qed.

Lemma lastIndexOf_last c before after :
  lacks c after = true ->
  lastIndexOf c (before ++ String c after) = Some (String.length before).
Proof.
  intros Hlacks. induction before as [|d before IH].
  - rewrite append_nil_l. cbn [lastIndexOf String.length].
    now rewrite (lastIndexOf_lacks c after Hlacks), Ascii.eqb_refl.
  - rewrite append_String. cbn [lastIndexOf String.length]. now rewrite IH.
Qed.

Lemma substring_head (middle after : string) :
  String.substring 0 (String.length middle) (middle ++ after) = middle.
Proof.
  induction middle as [|c middle IH].
  - rewrite append_nil_l. destruct after; reflexivity.
  - rewrite append_String. cbn [String.length String.substring]. now rewrite IH.
Qed.

Lemma substring_middle (before middle after : string) :
  substring (String.length before) (String.length before + String.length middle)
    (before ++ middle ++ after)
  = middle.
Proof.
  unfold substring.
  rewrite Nat.min_l, Nat.max_r by lia.
  replace (String.length before + String.length middle - String.length before)%nat
    with (String.length middle) by lia.
  induction before as [|c before IH].
  - rewrite append_nil_l. apply substring_head.
  - rewrite append_String. cbn [String.length String.substring]. exact IH.
Qed.

Section Embedded.

Variable Json : Type.
Variable jsonParse : string -> option Json.

(** An answer that wraps its object in other text is read as that object:
    when neither the answer nor its cleaned text is JSON, [safeJsonParse]
    returns what [JSON.parse] makes of the stretch from the first opening
    brace to the last closing one. *)
Theorem object_inside_answer_is_parsed text before body after :
  jsonParse text = None ->
  trim (removeFences text) = before ++ "{" ++ body ++ "}" ++ after ->
  jsonParse (before ++ "{" ++ body ++ "}" ++ after) = None ->
  lacks "{" before = true -> lacks "}" after = true ->
  safeJsonParse Json jsonParse text = jsonParse ("{" ++ body ++ "}").
Proof.
  intros Hraw Hclean Hwhole Hbefore Hafter. unfold safeJsonParse.
  rewrite Hraw, Hclean, Hwhole.
  change ("{" ++ body ++ "}" ++ after) with (String "{" (body ++ String "}" after)).
  rewrite (indexOf_first "{" before _ Hbefore).
  assert (Hlast : lastIndexOf "}" (before ++ String "{" (body ++ String "}" after))
                  = Some (String.length (before ++ String "{" body))).
  { rewrite <- (lastIndexOf_last "}" (before ++ String "{" body) after Hafter).
    f_equal. now rewrite append_assoc. }
  rewrite Hlast. f_equal.
  assert (Hobject : String "{" (body ++ String "}" after) = ("{" ++ body ++ "}") ++ after).
  { rewrite !append_String, !append_nil_l, append_assoc.
    now rewrite append_String, append_nil_l. }
  assert (Hlength : (String.length (before ++ String "{" body) + 1
                     = String.length before + String.length ("{" ++ body ++ "}"))%nat).
  { rewrite append_String, append_nil_l, !length_append. cbn [String.length].
    rewrite length_append. cbn [String.length]. lia. }
  rewrite Hobject, Hlength. apply substring_middle.
Qed.

End Embedded.

Lemma object_inside_answer_is_parsed_witness :
  safeJsonParse string braceParse "Here you go: {1} Hope that helps"
  = braceParse ("{" ++ "1" ++ "}").
Proof.
  apply (object_inside_answer_is_parsed string braceParse
           "Here you go: {1} Hope that helps" "Here you go: " "1" " Hope that helps");
    reflexivity.
Defined.

End ParseProps.

(** ** The filter sidebar *)

Module SidebarProps.

Import JsString Worker Sidebar.









(** *** Ticking and unticking *)





End SidebarProps.

(** ** The serial request queue *)

Module SerialQueueProps.

Import SerialQueue.

Lemma timeoutOf_nonneg wait : 0 <= timeoutOf wait.
Proof. unfold timeoutOf. lia. Qed.

Lemma Qfloor_sub_Z d e : Qfloor (d - inject_Z e) = Qfloor d - e.
Proof.
  pose proof (Qfloor_le (d - inject_Z e)) as H1.
  pose proof (Qlt_floor (d - inject_Z e)) as H2.
  pose proof (Qfloor_le d) as H3.
  pose proof (Qlt_floor d) as H4.
  rewrite inject_Z_plus in H2, H4.
  assert (Ha : (inject_Z (Qfloor (d - inject_Z e) + e) < inject_Z (Qfloor d + 1))%Q).
  { rewrite !inject_Z_plus. lra. }
  assert (Hb : (inject_Z (Qfloor d) < inject_Z (Qfloor (d - inject_Z e) + e + 1))%Q).
  { rewrite !inject_Z_plus. lra. }
  rewrite <- Zlt_Qlt in Ha, Hb. lia.
Qed.

(** For a wait that is not negative and below [2 ^ 31], the timer waits
    for its whole milliseconds. *)
Lemma timeoutOf_floor wait :
  (0 <= wait)%Q -> Qfloor wait < 2 ^ 31 -> timeoutOf wait = Qfloor wait.
Proof.
  intros Hpos Hsmall. unfold timeoutOf.
  assert (Hq : Z.quot (Qnum wait) (Zpos (Qden wait)) = Qfloor wait).
  { destruct wait as [n d]. cbn [Qnum Qden Qfloor].
    apply Z.quot_div_nonneg; [|lia]. unfold Qle in Hpos. cbn in Hpos. lia. }
  rewrite Hq.
  assert (H0 : 0 <= Qfloor wait).
  { change 0 with (Qfloor 0). now apply Qfloor_resp_le. }
  rewrite Z.mod_small by lia. lia.
Qed.

(** The time a task took and the timer set after it make up the whole
    milliseconds of the delay at least. *)
Lemma timeout_bound d elapsed :
  (d < 2147483648)%Q -> 0 <= elapsed ->
  Qfloor d <= elapsed + timeoutOf (Qmax 0 (d - inject_Z elapsed)).
Proof.
  intros Hd Helapsed.
  assert (Hfl : Qfloor d < 2 ^ 31).
  { pose proof (Qfloor_le d) as H.
    assert (Hlt : (inject_Z (Qfloor d) < inject_Z (2 ^ 31))%Q).
    { eapply Qle_lt_trans; [exact H|exact Hd]. }
    now rewrite <- Zlt_Qlt in Hlt. }
  destruct (Qlt_le_dec 0 (d - inject_Z elapsed)) as [Hlt|Hle].
  - assert (Hmax : (Qmax 0 (d - inject_Z elapsed) == d - inject_Z elapsed)%Q).
    { apply Q.max_r. now apply Qlt_le_weak. }
    assert (Hfloor : Qfloor (Qmax 0 (d - inject_Z elapsed)) = Qfloor d - elapsed).
    { rewrite Hmax. apply Qfloor_sub_Z. }
    rewrite timeoutOf_floor.
    + rewrite Hfloor. lia.
    + apply Q.le_max_l.
    + rewrite Hfloor. lia.
  - pose proof (timeoutOf_nonneg (Qmax 0 (d - inject_Z elapsed))) as Hnon.
    assert (Hle' : (d <= inject_Z elapsed)%Q) by lra.
    apply Qfloor_resp_le in Hle'. rewrite Qfloor_Z in Hle'. lia.
Qed.

Lemma serial_later_inv d tick w : Inv d w -> Inv d (later tick w).
Proof.
  intros [Hdelay Hspaced Hpast Hstate Hidle].
  split; cbn [later rq clock running timers started instants] in *; try assumption.
  - intros t rest Ht. specialize (Hpast t rest Ht). lia.
  - intros Hflag t rest Ht. specialize (Hidle Hflag t rest Ht). lia.
Qed.

(** [process] called while no task runs and no timer is pending, the gap
    since the latest start having gone by. *)
Lemma serial_process_inv d w :
  delay (rq w) = d ->
  spaced (Qfloor d) (instants w) ->
  (forall t rest, instants w = t :: rest -> t <= clock w) ->
  (forall t rest, instants w = t :: rest -> t + Qfloor d <= clock w) ->
  running w = [] -> timers w = [] ->
  Inv d (process w).
Proof.
  intros Hdelay Hspaced Hpast Hgap Hrunning Htimers. unfold process.
  destruct (queue (rq w)) as [|fn rest].
  - split; cbn [rq clock running timers started instants isProcessing delay queue];
      try assumption.
    + rewrite Hrunning, Htimers. reflexivity.
    + intros _. exact Hgap.
  - split; unfold instants in *;
      cbn [rq clock running timers started isProcessing delay queue map snd];
      try assumption.
    + destruct (map snd (started w)) as [|t rest'] eqn:Hlog; [exact I|].
      split; [|exact Hspaced]. specialize (Hgap t rest' eq_refl). lia.
    + intros t rest' [= <- _]. lia.
    + rewrite Hrunning, Htimers. cbn [app]. split; [reflexivity|]. eauto.
    + discriminate.
Qed.

(** With the flag down, no task runs and no timer is pending. *)
Lemma idle_quiet d w :
  Inv d w -> isProcessing (rq w) = false -> running w = [] /\ timers w = [].
Proof.
  intros [_ _ _ Hstate _] Hflag.
  destruct (running w) as [|[fn start] [|second others]], (timers w) as [|due [|due' dues]];
    try contradiction; try (split; reflexivity);
    destruct Hstate as [Hup _]; congruence.
Qed.

Lemma serial_add_inv d fn w : Inv d w -> Inv d (add fn w).
Proof.
  intros Hinv. unfold add. destruct (isProcessing (rq w)) eqn:Hflag.
  - destruct Hinv as [Hdelay Hspaced Hpast Hstate Hidle].
    split; cbn [rq clock running timers started instants isProcessing delay queue];
      try assumption; [|discriminate].
    rewrite Hflag in Hstate. exact Hstate.
  - destruct (idle_quiet d w Hinv Hflag) as [Hrunning Htimers].
    destruct Hinv as [Hdelay Hspaced Hpast Hstate Hidle].
    apply serial_process_inv; unfold instants in *; cbn [rq clock running timers started delay];
      auto.
    exact (Hidle Hflag).
Qed.

Lemma serial_resume_inv d fn w : (d < 2147483648)%Q -> Inv d w -> Inv d (resume fn w).
Proof.
  intros Hd Hinv. unfold resume.
  destruct (takeRunning fn (running w)) as [[start others]|] eqn:Htake; [|exact Hinv].
  destruct Hinv as [Hdelay Hspaced Hpast Hstate Hidle].
  destruct (running w) as [|[fn' start'] [|second more]], (timers w) as [|due [|due' dues]];
    try contradiction; try discriminate.
  destruct Hstate as [Hup [rest Hlog]].
  cbn [takeRunning] in Htake. destruct (Nat.eqb fn fn'); [|discriminate].
  injection Htake as <- <-.
  split; cbn [rq clock running timers started instants isProcessing delay queue app];
    try assumption.
  split; [exact Hup|]. exists start', rest. split; [exact Hlog|].
  rewrite Hdelay. pose proof (Hpast start' rest Hlog) as Hle.
  pose proof (timeout_bound d (clock w - start') Hd) as Hbound. lia.
Qed.

Lemma serial_fire_inv d k w : Inv d w -> Inv d (fire k w).
Proof.
  intros Hinv. unfold fire.
  destruct (timers w !! k) as [due|] eqn:Hk; [|exact Hinv].
  destruct (due <=? clock w) eqn:Hdue; [|exact Hinv].
  apply Z.leb_le in Hdue.
  destruct Hinv as [Hdelay Hspaced Hpast Hstate Hidle].
  destruct (running w) as [|[fn' start'] [|second more]] eqn:Hrunning,
           (timers w) as [|due' [|due'' dues]] eqn:Htimers;
    try contradiction; try discriminate.
  destruct Hstate as [Hup (t & rest & Hlog & Hgap)].
  destruct k as [|k]; [|discriminate]. injection Hk as ->.
  apply serial_process_inv; unfold instants in *;
    cbn [rq clock running timers started delay take drop app]; auto.
  intros t' rest' Hlog'. rewrite Hlog in Hlog'.
  injection Hlog' as <- <-. lia.
Qed.

Lemma serial_step_inv d w a : (d < 2147483648)%Q -> Inv d w -> Inv d (step w a).
Proof.
  intros Hd Hinv. destruct a as [fn tick|fn tick|k tick]; cbn [step].
  - now apply serial_add_inv, serial_later_inv.
  - now apply serial_resume_inv, serial_later_inv.
  - now apply serial_fire_inv, serial_later_inv.
Qed.

Lemma serial_run_inv d actions : (d < 2147483648)%Q -> forall w, Inv d w -> Inv d (run actions w).
Proof.
  intros Hd. induction actions as [|a actions IH]; intros w Hinv; [exact Hinv|].
  apply IH. now apply serial_step_inv.
Qed.

Lemma serial_start_inv d t0 : Inv d (start d t0).
Proof. split; cbn; try reflexivity; try discriminate; exact I. Qed.

(** The serial queue runs one task at a time, and no task starts before
    the whole milliseconds of the delay have gone by since the previous
    start, although the timer drops the fraction of its wait; with the
    half second that the constructor adds, two starts are thus more than
    [60000 / rpm] milliseconds apart.  This holds for every run without
    [clear], on a clock that does not run backwards, for a rate other than
    0 and a delay below [2 ^ 31] milliseconds. *)
Theorem serial_queue_one_at_a_time_and_spaced rpm t0 actions :
  ~ (rpm == 0)%Q ->
  (delay (newQueue rpm) < 2147483648)%Q ->
  (length (running (run actions (start (delay (newQueue rpm)) t0))) <= 1)%nat
  /\ spaced (Qfloor (delay (newQueue rpm)))
       (instants (run actions (start (delay (newQueue rpm)) t0)))
  /\ (60000 / rpm + 499 < inject_Z (Qfloor (delay (newQueue rpm))))%Q.
Proof.
  intros _ Hd.
  destruct (serial_run_inv _ actions Hd _ (serial_start_inv (delay (newQueue rpm)) t0))
    as [_ Hspaced _ Hstate _].
  repeat split.
  - set (w := run actions (start (delay (newQueue rpm)) t0)) in *.
    destruct (running w) as [|[fn start'] [|second more]], (timers w) as [|due [|due' dues]];
      try contradiction; cbn [length]; lia.
  - exact Hspaced.
  - pose proof (Qlt_floor (delay (newQueue rpm))) as Hfloor.
    rewrite inject_Z_plus in Hfloor. cbn [newQueue initial delay] in *.
    change (inject_Z 1) with 1%Q in Hfloor. clear - Hfloor.
    set (interval := (60000 / rpm)%Q) in *.
    set (whole := inject_Z (Qfloor (interval + 500))) in *. lra.
Qed.

Lemma serial_queue_one_at_a_time_and_spaced_witness :
  (length (running (run [Add 0%nat 0%N; Add 1%nat 0%N; Settle 0%nat 1200%N; Fire 0%nat 5300%N]
                      (start (delay (newQueue 10)) 1700000000000))) <= 1)%nat
  /\ spaced (Qfloor (delay (newQueue 10)))
       (instants (run [Add 0%nat 0%N; Add 1%nat 0%N; Settle 0%nat 1200%N; Fire 0%nat 5300%N]
                    (start (delay (newQueue 10)) 1700000000000)))
  /\ (60000 / 10 + 499 < inject_Z (Qfloor (delay (newQueue 10))))%Q.
Proof.
  apply (serial_queue_one_at_a_time_and_spaced 10 1700000000000
           [Add 0%nat 0%N; Add 1%nat 0%N; Settle 0%nat 1200%N; Fire 0%nat 5300%N]).
  - discriminate.
  - reflexivity.
Defined.

Example serial_queue_sample_run :
  instants (run [Add 0%nat 0%N; Add 1%nat 0%N; Settle 0%nat 1200%N; Fire 0%nat 5300%N]
              (start (delay (newQueue 10)) 1700000000000))
  = [1700000006500; 1700000000000].
Proof. vm_compute. reflexivity. Qed.

End SerialQueueProps.

(** ** The analysis request *)

Module AnalysisProps.

Import JsString Worker.

Lemma Merged_nonneg extra sub full : Merged extra sub full -> 0 <= extra.
Proof. destruct 1; assumption. Qed.

(** The sweep over the longer list is ahead of the sweep over the shorter
    one, in its counter and so in its maximum. *)
Lemma Merged_dominates extra sub full :
  Merged extra sub full ->
  forall m m' c, m <= m' ->
    fst (fold_left sweepStep sub (m, c)) <= fst (fold_left sweepStep full (m', c + extra)).
Proof.
  induction 1 as [extra Hextra|extra e sub full Hextra _ IH|extra e sub full Hextra _ IH];
    intros m m' c Hm; cbn [fold_left].
  - exact Hm.
  - unfold sweepStep at 2 4. destruct (type e).
    + replace (c + extra + 1) with (c + 1 + extra) by lia. apply IH.
      destruct (m <? c + 1) eqn:H1, (m' <? c + 1 + extra) eqn:H2;
        try apply Z.ltb_lt in H1; try apply Z.ltb_ge in H1;
        try apply Z.ltb_lt in H2; try apply Z.ltb_ge in H2; lia.
    + replace (c + extra - 1) with (c - 1 + extra) by lia. now apply IH.
  - unfold sweepStep at 3. unfold delta in IH. destruct (type e).
    + replace (c + extra + 1) with (c + (extra + 1)) by lia. apply IH.
      destruct (m' <? c + (extra + 1)) eqn:H2;
        try apply Z.ltb_lt in H2; try apply Z.ltb_ge in H2; lia.
    + replace (c + extra - 1) with (c + (extra + -1)) by lia. now apply IH.
Qed.

(** A further end event is made up for by one more start counted
    beforehand. *)
Lemma Merged_insert_end t extra sub full :
  Merged extra sub full ->
  Merged (extra + 1) sub (insertEvent (mkEvent t EndEvent) full).
Proof.
  induction 1 as [extra Hextra|extra y sub full Hextra Hm IH|extra y sub full Hextra Hm IH];
    cbn [insertEvent time].
  - apply merged_extra; [lia|]. cbn [delta type]. replace (extra + 1 + -1) with extra by lia.
    now apply merged_nil.
  - destruct (t <=? time y).
    + apply merged_extra; [lia|]. cbn [delta type].
      replace (extra + 1 + -1) with extra by lia. now apply merged_both.
    + apply merged_both; [lia | exact IH].
  - destruct (t <=? time y).
    + apply merged_extra; [lia|]. cbn [delta type].
      replace (extra + 1 + -1) with extra by lia. now apply merged_extra.
    + apply merged_extra; [lia|].
      replace (extra + 1 + delta y) with (extra + delta y + 1) by lia. exact IH.
Qed.

(** A further conversation that does not end before it starts. *)
Lemma Merged_insert_pair s e extra sub full :
  s <= e -> Merged extra sub full ->
  Merged extra sub (insertEvent (mkEvent s StartEvent) (insertEvent (mkEvent e EndEvent) full)).
Proof.
  intros Hse.
  assert (Hleb : (s <=? e) = true) by now apply Z.leb_le.
  assert (Hfirst : forall extra sub full,
            0 <= extra -> Merged extra sub full ->
            Merged extra sub (mkEvent s StartEvent :: mkEvent e EndEvent :: full)).
  { intros x sub' full' Hx Hm. apply merged_extra; [exact Hx|]. cbn [delta type].
    apply merged_extra; [lia|]. cbn [delta type].
    replace (x + 1 + -1) with x by lia. exact Hm. }
  induction 1 as [extra Hextra|extra y sub full Hextra Hm IH|extra y sub full Hextra Hm IH];
    cbn [insertEvent time].
  - rewrite Hleb. apply Hfirst; [exact Hextra | now apply merged_nil].
  - destruct (e <=? time y) eqn:Hey; cbn [insertEvent time].
    + rewrite Hleb. apply Hfirst; [exact Hextra | now apply merged_both].
    + destruct (s <=? time y).
      * apply merged_extra; [exact Hextra|]. cbn [delta type].
        apply merged_both; [lia|]. now apply Merged_insert_end.
      * apply merged_both; [exact Hextra | exact IH].
  - destruct (e <=? time y) eqn:Hey; cbn [insertEvent time].
    + rewrite Hleb. apply Hfirst; [exact Hextra | now apply merged_extra].
    + destruct (s <=? time y).
      * apply merged_extra; [exact Hextra|]. cbn [delta type].
        apply merged_extra; [lia|].
        replace (extra + 1 + delta y) with (extra + delta y + 1) by lia.
        now apply Merged_insert_end.
      * apply merged_extra; [exact Hextra | exact IH].
Qed.

(** In a sorted list, what follows the head is not earlier, whether it is
    taken from the shorter list or not. *)
Lemma Merged_head extra sub full :
  Merged extra sub full ->
  forall y, timeSorted (y :: full) ->
    match sub with
    | [] => True
    | x :: _ => time y <= time x
    end.
Proof.
  induction 1 as [extra Hextra|extra x sub full Hextra Hm IH|extra x sub full Hextra Hm IH];
    intros y Hsorted.
  - exact I.
  - cbn [timeSorted] in Hsorted. tauto.
  - destruct Hsorted as [Hyx Hsorted]. specialize (IH x Hsorted).
    destruct sub as [|x' sub']; [exact I | lia].
Qed.

(** The same event put into both lists. *)
Lemma Merged_insert_both e extra sub full :
  Merged extra sub full -> timeSorted full ->
  Merged extra (insertEvent e sub) (insertEvent e full).
Proof.
  induction 1 as [extra Hextra|extra y sub full Hextra Hm IH|extra y sub full Hextra Hm IH];
    intros Hsorted; cbn [insertEvent].
  - apply merged_both; [exact Hextra | now apply merged_nil].
  - destruct (time e <=? time y).
    + apply merged_both; [exact Hextra | now apply merged_both].
    + apply merged_both; [exact Hextra|]. apply IH.
      destruct full; [exact I | apply Hsorted].
  - destruct (time e <=? time y) eqn:Hey.
    + pose proof (Merged_head _ _ _ Hm y Hsorted) as Hhead.
      assert (Hsub : insertEvent e sub = e :: sub).
      { destruct sub as [|x sub']; [reflexivity|]. cbn [insertEvent].
        apply Z.leb_le in Hey. assert (Hle : (time e <=? time x) = true) by (apply Z.leb_le; lia).
        now rewrite Hle. }
      rewrite Hsub. apply merged_both; [exact Hextra | now apply merged_extra].
    + apply merged_extra; [exact Hextra|]. apply IH.
      destruct full; [exact I | apply Hsorted].
Qed.

(** The sorted events of some of the conversations against those of all
    of them. *)
Lemma Merged_filter (keep : Z * Z -> bool) pairs :
  List.Forall orderedPair pairs ->
  Merged 0 (sortEvents (eventsOf (List.filter keep pairs))) (sortEvents (eventsOf pairs)).
Proof.
  induction 1 as [|p pairs Hp _ IH].
  - apply merged_nil. lia.
  - cbn [List.filter].
    change (sortEvents (eventsOf (p :: pairs)))
      with (insertEvent (mkEvent (fst p) StartEvent)
              (insertEvent (mkEvent (snd p) EndEvent) (sortEvents (eventsOf pairs)))).
    destruct (keep p).
    + change (sortEvents (eventsOf (p :: List.filter keep pairs)))
        with (insertEvent (mkEvent (fst p) StartEvent)
                (insertEvent (mkEvent (snd p) EndEvent)
                   (sortEvents (eventsOf (List.filter keep pairs))))).
      apply Merged_insert_both; [apply Merged_insert_both; [exact IH|]|].
      * apply SweepProps.sortEvents_sorted.
      * apply SweepProps.insertEvent_sorted, SweepProps.sortEvents_sorted.
    + apply Merged_insert_pair; [exact Hp | exact IH].
Qed.

(** The peak over some of the conversations is at most the peak over all
    of them. *)
Lemma peak_of_part (keep : Z * Z -> bool) pairs :
  List.Forall orderedPair pairs ->
  fst (sweep (sortEvents (eventsOf (List.filter keep pairs))))
  <= fst (sweep (sortEvents (eventsOf pairs))).
Proof.
  intros Hordered. unfold sweep.
  pose proof (Merged_dominates _ _ _ (Merged_filter keep pairs Hordered) 0 0 0) as H.
  rewrite Z.add_0_r in H. apply H. lia.
Qed.

(** *** What the two loops gather *)

Lemma analyseRow_days isoDate acc row date :
  default [] (dailyEvents (analyseRow isoDate acc row) !! date)
  = (default [] (dailyEvents acc !! date)
     ++ match spanOf row with
        | Some p => if String.eqb (isoDate (fst p)) date then pairEvents p else []
        | None => []
        end)%list.
Proof.
  unfold analyseRow, spanOf.
  destruct (parseDate (getField row "created")) as [s|];
    [destruct (parseDate (getField row "finished")) as [e|]|];
    cbn [dailyEvents fst]; try now rewrite app_nil_r.
  destruct (String.eqb (isoDate s) date) eqn:Hdate.
  - apply String.eqb_eq in Hdate. subst date. now rewrite lookup_insert_eq.
  - apply String.eqb_neq in Hdate. rewrite lookup_insert_ne by exact Hdate.
    now rewrite app_nil_r.
Qed.

Lemma analyse_days isoDate store rowIndexes : forall acc a,
  analyse isoDate store rowIndexes acc = Some a ->
  forall date,
    default [] (dailyEvents a !! date)
    = (default [] (dailyEvents acc !! date)
       ++ eventsOf (List.filter (fun p => String.eqb (isoDate (fst p)) date)
                      (spansOf store rowIndexes)))%list.
Proof.
  induction rowIndexes as [|index rest IH]; intros acc a Ha date.
  - injection Ha as <-. cbn. now rewrite app_nil_r.
  - cbn [analyse] in Ha. rewrite SweepProps.spansOf_cons.
    destruct (store !! index) as [row|]; [|discriminate]. cbn [mbind option_bind] in *.
    rewrite (IH _ _ Ha date), analyseRow_days.
    destruct (spanOf row) as [p|]; [|now rewrite app_nil_r].
    cbn [List.filter]. destruct (String.eqb (isoDate (fst p)) date).
    + now rewrite <- app_assoc.
    + now rewrite app_nil_r.
Qed.

Lemma analyse_total isoDate store rowIndexes :
  List.Forall (fun index => is_Some (store !! index)) rowIndexes ->
  forall acc, exists a, analyse isoDate store rowIndexes acc = Some a.
Proof.
  induction 1 as [|index rest [row Hrow] _ IH]; intros acc; [now exists acc|].
  cbn [analyse]. rewrite Hrow. apply IH.
Qed.

Lemma allOrdered_spans store rowIndexes :
  allOrdered store rowIndexes = true -> List.Forall orderedPair (spansOf store rowIndexes).
Proof.
  induction rowIndexes as [|index rest IH]; intros Hall; [constructor|].
  cbn [allOrdered forallb] in Hall. apply andb_prop in Hall as [Hrow Hrest].
  rewrite SweepProps.spansOf_cons. destruct (store !! index) as [row|]; [|discriminate].
  cbn [mbind option_bind]. unfold orderedRow in Hrow.
  destruct (spanOf row) as [[s e]|]; [|now apply IH].
  constructor; [|now apply IH]. unfold orderedPair. cbn [fst snd]. now apply Z.leb_le.
Qed.

(** *** The peaks of the days against the peak of the summary *)

Lemma summarise_peak c : peakConcurrency (summarise c) = fst (sweep (sortEvents (events c))).
Proof. unfold summarise. destruct (events c); reflexivity. Qed.

Lemma dayTrend_max dayEvents :
  0 <= fst (dayTrend dayEvents) <= fst (sweep (sortEvents dayEvents)).
Proof.
  assert (Hsweep : 0 <= fst (sweep (sortEvents dayEvents))).
  { unfold sweep. apply SweepProps.sweep_max_mono. lia. }
  destruct (sortEvents dayEvents) as [|e0 [|e1 rest]] eqn:Hsorted.
  - unfold dayTrend. rewrite Hsorted. cbn [fst]. lia.
  - unfold dayTrend. rewrite Hsorted. cbn [fst]. lia.
  - destruct (SummaryProps.dayTrend_sorted dayEvents e0 e1 rest Hsorted) as (weighted & -> & _).
    cbn [fst]. rewrite Hsorted. lia.
Qed.

Lemma totalMaxConcurrency_bounds peak trend :
  0 <= peak ->
  (forall d, In d trend -> fst (snd d) <= peak) ->
  0 <= totalMaxConcurrency trend <= peak.
Proof.
  intros Hpeak. unfold totalMaxConcurrency.
  assert (Hgen : forall l from, 0 <= from <= peak ->
            (forall d, In d l -> fst (snd d) <= peak) ->
            0 <= fold_left (fun totalMax (d : string * (Z * Q)) =>
                              if totalMax <? fst (snd d) then fst (snd d) else totalMax)
                   l from <= peak).
  { induction l as [|d l IH]; intros from Hfrom Hall; [exact Hfrom|].
    cbn [fold_left]. apply IH; [|intros d' Hd'; apply Hall; now right].
    specialize (Hall d (or_introl eq_refl)).
    destruct (from <? fst (snd d)) eqn:Hlt;
      [apply Z.ltb_lt in Hlt | apply Z.ltb_ge in Hlt]; lia. }
  intros Hall. apply Hgen; [lia | exact Hall].
Qed.

(** The peak that the analysis shows, the highest of the peaks of the
    days, is never above the peak of the summary of the same rows, when no
    row ends before it starts: a day counts only the conversations that
    began on it, in whatever order the days are gone through. *)
Theorem analysis_peak_at_most_summary_peak isoDate st rowIndexes :
  allOrdered (rawDataStore st) rowIndexes = true ->
  exists a s,
    analyse isoDate (rawDataStore st) rowIndexes noAggregates = Some a
    /\ calculateSummary st rowIndexes = Some s
    /\ forall trend,
         Permutation trend (concurrencyTrendData a) ->
         0 <= totalMaxConcurrency trend <= peakConcurrency s.
Proof.
  intros Hall.
  pose proof (SweepProps.allOrdered_inStore _ _ Hall) as Hstore.
  destruct (analyse_total isoDate _ _ Hstore noAggregates) as [a Ha].
  assert (Hcollect : exists c, collect (rawDataStore st) rowIndexes noEvents = Some c).
  { clear - Hstore. generalize noEvents.
    induction Hstore as [|index rest [row Hrow] _ IH]; intros acc; [now exists acc|].
    cbn [collect]. rewrite Hrow. apply IH. }
  destruct Hcollect as [c Hc].
  assert (Hpeak : exists s, calculateSummary st rowIndexes = Some s
            /\ peakConcurrency s
               = fst (sweep (sortEvents (eventsOf (spansOf (rawDataStore st) rowIndexes))))).
  { destruct rowIndexes as [|index rest]; [exists emptySummary; split; reflexivity|].
    exists (summarise c). unfold calculateSummary. rewrite Hc. split; [reflexivity|].
    rewrite summarise_peak, (SweepProps.collect_spans _ _ _ _ Hc). reflexivity. }
  destruct Hpeak as (s & Hs & Hpeak).
  exists a, s. split; [exact Ha|]. split; [exact Hs|].
  intros trend Hperm. rewrite Hpeak. apply totalMaxConcurrency_bounds.
  - unfold sweep. apply SweepProps.sweep_max_mono. lia.
  - intros d Hd. apply (Permutation_in _ Hperm) in Hd.
    unfold concurrencyTrendData in Hd. apply in_map_iff in Hd as ([date dayEvents] & <- & Hd).
    cbn [fst snd].
    assert (Hday : dailyEvents a !! date = Some dayEvents).
    { apply elem_of_map_to_list. now apply list_elem_of_In. }
    pose proof (analyse_days isoDate _ _ _ _ Ha date) as Hdays.
    rewrite Hday in Hdays. cbn [default dailyEvents noAggregates] in Hdays.
    rewrite lookup_empty in Hdays. cbn in Hdays. subst dayEvents.
    etransitivity; [apply dayTrend_max|].
    apply peak_of_part. now apply allOrdered_spans.
Qed.

Lemma analysis_peak_at_most_summary_peak_witness :
  exists a s,
    analyse dayNumber (rawDataStore overMidnight) [0; 1]%nat noAggregates = Some a
    /\ calculateSummary overMidnight [0; 1]%nat = Some s
    /\ forall trend,
         Permutation trend (concurrencyTrendData a) ->
         0 <= totalMaxConcurrency trend <= peakConcurrency s.
Proof.
  apply (analysis_peak_at_most_summary_peak dayNumber overMidnight [0; 1]%nat).
  vm_compute. reflexivity.
Defined.

(** Two conversations that overlap around midnight: each day has a peak of
    1, the summary a peak of 2. *)
Example overMidnight_peaks :
  (totalMaxConcurrency ∘ concurrencyTrendData
   <$> analyse dayNumber (rawDataStore overMidnight) [0; 1]%nat noAggregates) = Some 1
  /\ (peakConcurrency <$> calculateSummary overMidnight [0; 1]%nat) = Some 2.
Proof. split; vm_compute; reflexivity. Qed.

(** *** The counters of the days *)

Lemma sumOver_insert {A} (count : A -> nat) (m : gmap string A) date d :
  (sumOver count (<[date := d]> m) + from_option count O (m !! date)
   = sumOver count m + count d)%nat.
Proof.
  unfold sumOver. destruct (m !! date) as [old|] eqn:Hold; cbn [from_option].
  - rewrite (map_fold_delete_L _ _ date old m) by (intros; first [lia | exact Hold]).
    rewrite <- (insert_delete_eq m).
    rewrite map_fold_insert_L by (intros; first [lia | apply lookup_delete_eq]). lia.
  - rewrite map_fold_insert_L by (intros; first [lia | exact Hold]). lia.
Qed.

Lemma sumOver_empty {A} (count : A -> nat) : sumOver count (∅ : gmap string A) = O.
Proof. unfold sumOver. apply map_fold_empty. Qed.

(** One turn of the loop keeps the counters in step. *)
Lemma analyseRow_counters isoDate acc row n :
  (forall date d, containmentAggregation acc !! date = Some d ->
     (contained d <= total d)%nat /\ (0 < total d)%nat) ->
  sumOver total (containmentAggregation acc) = n ->
  sumOver (fun count => count) (dailyAggregation acc) = n ->
  sumOver contained (containmentAggregation acc) = totalContainedInFiltered acc ->
  (forall date d, containmentAggregation (analyseRow isoDate acc row) !! date = Some d ->
     (contained d <= total d)%nat /\ (0 < total d)%nat)
  /\ sumOver total (containmentAggregation (analyseRow isoDate acc row))
     = (n + match spanOf row with Some _ => 1 | None => 0 end)%nat
  /\ sumOver (fun count => count) (dailyAggregation (analyseRow isoDate acc row))
     = (n + match spanOf row with Some _ => 1 | None => 0 end)%nat
  /\ sumOver contained (containmentAggregation (analyseRow isoDate acc row))
     = totalContainedInFiltered (analyseRow isoDate acc row).
Proof.
  intros Hdays Htotal Hvolume Hcontained. unfold analyseRow, spanOf.
  destruct (parseDate (getField row "created")) as [s|];
    [destruct (parseDate (getField row "finished")) as [e|]|];
    try (rewrite Nat.add_0_r; tauto).
  cbn [containmentAggregation dailyAggregation totalContainedInFiltered].
  set (date := isoDate s).
  set (key := orUnknown (getField row "domain") ++ "|" ++ orUnknown (getField row "channel")
              ++ "|" ++ date).
  set (handled := if containedRow row then 1%nat else 0%nat).
  assert (Hhandled : (handled <= 1)%nat) by (unfold handled; destruct (containedRow row); lia).
  pose proof (sumOver_insert total (containmentAggregation acc) date
                (mkContainment
                   (contained (default (mkContainment 0 0) (containmentAggregation acc !! date))
                    + handled)
                   (S (total (default (mkContainment 0 0)
                                (containmentAggregation acc !! date)))))) as Ht.
  pose proof (sumOver_insert contained (containmentAggregation acc) date
                (mkContainment
                   (contained (default (mkContainment 0 0) (containmentAggregation acc !! date))
                    + handled)
                   (S (total (default (mkContainment 0 0)
                                (containmentAggregation acc !! date)))))) as Hc.
  pose proof (sumOver_insert (fun count : nat => count) (dailyAggregation acc) key
                (S (default O (dailyAggregation acc !! key)))) as Hv.
  assert (Hold : forall old, containmentAggregation acc !! date = Some old ->
            (contained old <= total old)%nat /\ (0 < total old)%nat) by (intros; eauto).
  destruct (containmentAggregation acc !! date) as [old|];
    destruct (dailyAggregation acc !! key) as [count|];
    cbn [default from_option id contained total] in *;
    try (destruct (Hold old eq_refl) as [Hle Hpos]);
    (split; [|split; [|split]];
     [intros date' d Hd; destruct (decide (date' = date)) as [->|Hne];
      [rewrite lookup_insert_eq in Hd; injection Hd as <-; cbn [contained total]; lia
      |rewrite lookup_insert_ne in Hd by congruence; now apply (Hdays date')]
     |lia|lia|lia]).
Qed.

Lemma analyse_counters isoDate store rowIndexes : forall acc n a,
  analyse isoDate store rowIndexes acc = Some a ->
  (forall date d, containmentAggregation acc !! date = Some d ->
     (contained d <= total d)%nat /\ (0 < total d)%nat) ->
  sumOver total (containmentAggregation acc) = n ->
  sumOver (fun count => count) (dailyAggregation acc) = n ->
  sumOver contained (containmentAggregation acc) = totalContainedInFiltered acc ->
  (forall date d, containmentAggregation a !! date = Some d ->
     (contained d <= total d)%nat /\ (0 < total d)%nat)
  /\ sumOver total (containmentAggregation a) = (n + length (spansOf store rowIndexes))%nat
  /\ sumOver (fun count => count) (dailyAggregation a)
     = (n + length (spansOf store rowIndexes))%nat
  /\ sumOver contained (containmentAggregation a) = totalContainedInFiltered a.
Proof.
  induction rowIndexes as [|index rest IH]; intros acc n a Ha Hdays Htotal Hvolume Hcontained.
  - injection Ha as <-. cbn [spansOf omap list_omap length]. rewrite Nat.add_0_r. tauto.
  - cbn [analyse] in Ha. rewrite SweepProps.spansOf_cons.
    destruct (store !! index) as [row|]; [|discriminate]. cbn [mbind option_bind] in *.
    destruct (analyseRow_counters isoDate acc row n Hdays Htotal Hvolume Hcontained)
      as (Hdays' & Htotal' & Hvolume' & Hcontained').
    destruct (IH _ _ _ Ha Hdays' Htotal' Hvolume' Hcontained') as (H1 & H2 & H3 & H4).
    split; [exact H1|]. split; [|split; [|exact H4]].
    + rewrite H2. destruct (spanOf row); cbn [length]; lia.
    + rewrite H3. destruct (spanOf row); cbn [length]; lia.
Qed.

Lemma analyse_contained isoDate store rowIndexes : forall acc a counted,
  analyse isoDate store rowIndexes acc = Some a ->
  filteredContained store rowIndexes = Some counted ->
  (totalContainedInFiltered a <= totalContainedInFiltered acc + counted)%nat
  /\ (List.Forall (fun index => hasSpan store index = true) rowIndexes ->
      totalContainedInFiltered a = (totalContainedInFiltered acc + counted)%nat).
Proof.
  induction rowIndexes as [|index rest IH]; intros acc a counted Ha Hcounted.
  - injection Ha as <-. injection Hcounted as <-. split; [lia|]. intros _. lia.
  - cbn [analyse filteredContained] in Ha, Hcounted. unfold hasSpan.
    destruct (store !! index) as [row|] eqn:Hrow; [|discriminate].
    cbn [mbind option_bind] in *.
    destruct (filteredContained store rest) as [counted'|]; [|discriminate].
    cbn [mbind option_bind] in Hcounted. injection Hcounted as <-.
    destruct (IH _ _ _ Ha eq_refl) as [Hle Heq].
    assert (Hstep : (totalContainedInFiltered (analyseRow isoDate acc row)
                     <= totalContainedInFiltered acc + if containedRow row then 1 else 0)%nat
                    /\ (is_Some (spanOf row) ->
                        totalContainedInFiltered (analyseRow isoDate acc row)
                        = (totalContainedInFiltered acc + if containedRow row then 1 else 0)%nat)).
    { unfold analyseRow, spanOf.
      destruct (parseDate (getField row "created")) as [s|];
        [destruct (parseDate (getField row "finished")) as [e|]|];
        cbn [totalContainedInFiltered]; (split; [lia|]); try (intros _; reflexivity);
        intros [p Hp]; discriminate. }
    destruct Hstep as [Hstep Hspan]. split.
    + destruct (containedRow row); lia.
    + intros Hall. inversion Hall as [|? ? Hhere Hrest]; subst. rewrite Hrow in Hhere.
      rewrite (Heq Hrest), Hspan.
      * destruct (containedRow row); lia.
      * destruct (spanOf row); [eauto | discriminate].
Qed.

Lemma spansOf_length store rowIndexes :
  (length (spansOf store rowIndexes) <= length rowIndexes)%nat.
Proof.
  induction rowIndexes as [|index rest IH]; [reflexivity|].
  rewrite SweepProps.spansOf_cons. destruct (store !! index ≫= spanOf); cbn [length]; lia.
Qed.

Lemma containmentRate_bounds d :
  (contained d <= total d)%nat -> (0 <= containmentRate d <= 100)%Q.
Proof.
  intros Hle. unfold containmentRate. destruct (total d) as [|k] eqn:Htotal.
  - split; discriminate.
  - assert (Hpos : (0 < inject_Z (Z.of_nat (S k)))%Q).
    { change 0%Q with (inject_Z 0). rewrite <- Zlt_Qlt. lia. }
    assert (Hlow : (0 <= inject_Z (Z.of_nat (contained d)) / inject_Z (Z.of_nat (S k)))%Q).
    { apply Qle_shift_div_l; [exact Hpos|]. rewrite Qmult_0_l.
      change 0%Q with (inject_Z 0). rewrite <- Zle_Qle. lia. }
    assert (Hhigh : (inject_Z (Z.of_nat (contained d)) / inject_Z (Z.of_nat (S k)) <= 1)%Q).
    { apply Qle_shift_div_r; [exact Hpos|]. rewrite Qmult_1_l. rewrite <- Zle_Qle. lia. }
    set (share := (inject_Z (Z.of_nat (contained d)) / inject_Z (Z.of_nat (S k)))%Q) in *.
    clearbody share. split; lra.
Qed.

(** The counters of the analysis agree with one another: on every date
    the contained conversations are among the counted ones, so that the
    rate lies between 0 and 100; the counts of the dates, and those of the
    volume table, add up to the number of rows that have both instants; the
    contained counts add up to the overall one, which never exceeds the
    contained count that the page request shows for the same rows and equals
    it when every row has both instants. *)
Theorem analysis_counters_consistent isoDate store rowIndexes :
  inStore store rowIndexes ->
  exists a counted,
    analyse isoDate store rowIndexes noAggregates = Some a
    /\ filteredContained store rowIndexes = Some counted
    /\ (forall date d, containmentAggregation a !! date = Some d ->
          (contained d <= total d)%nat /\ (0 < total d)%nat
          /\ (0 <= containmentRate d <= 100)%Q)
    /\ sumOver total (containmentAggregation a) = length (spansOf store rowIndexes)
    /\ sumOver (fun count => count) (dailyAggregation a) = length (spansOf store rowIndexes)
    /\ sumOver contained (containmentAggregation a) = totalContainedInFiltered a
    /\ (totalContainedInFiltered a <= counted)%nat
    /\ (length (spansOf store rowIndexes) <= length rowIndexes)%nat
    /\ (List.Forall (fun index => hasSpan store index = true) rowIndexes ->
        totalContainedInFiltered a = counted).
Proof.
  intros Hstore.
  assert (Hrows : List.Forall (fun index => is_Some (store !! index)) rowIndexes).
  { eapply List.Forall_impl; [|exact Hstore]. intros index. apply lookup_lt_is_Some_2. }
  destruct (analyse_total isoDate store rowIndexes Hrows noAggregates) as [a Ha].
  assert (Hcounted : exists counted, filteredContained store rowIndexes = Some counted).
  { clear - Hrows. induction Hrows as [|index rest [row Hrow] _ [counted IH]].
    - now exists O.
    - cbn [filteredContained]. rewrite Hrow, IH. cbn [mbind option_bind]. eauto. }
  destruct Hcounted as [counted Hcounted].
  exists a, counted. split; [exact Ha|]. split; [exact Hcounted|].
  destruct (analyse_counters isoDate store rowIndexes noAggregates O a Ha)
    as (Hdays & Htotal & Hvolume & Hsum).
  { intros date d Hd. cbn [containmentAggregation noAggregates] in Hd.
    now rewrite lookup_empty in Hd. }
  { apply sumOver_empty. }
  { apply sumOver_empty. }
  { apply sumOver_empty. }
  destruct (analyse_contained isoDate store rowIndexes noAggregates a counted Ha Hcounted)
    as [Hle Heq].
  cbn [totalContainedInFiltered noAggregates] in Hle, Heq.
  split; [|split; [exact Htotal|split; [exact Hvolume|split; [exact Hsum|]]]].
  - intros date d Hd. destruct (Hdays date d Hd) as [H1 H2].
    split; [exact H1|]. split; [exact H2|]. now apply containmentRate_bounds.
  - split; [lia|]. split; [apply spansOf_length|]. intros Hall. now rewrite (Heq Hall).
Qed.

Lemma analysis_counters_consistent_witness :
  exists a counted,
    analyse dayNumber (rawDataStore overMidnight) [0; 1]%nat noAggregates = Some a
    /\ filteredContained (rawDataStore overMidnight) [0; 1]%nat = Some counted
    /\ (forall date d, containmentAggregation a !! date = Some d ->
          (contained d <= total d)%nat /\ (0 < total d)%nat
          /\ (0 <= containmentRate d <= 100)%Q)
    /\ sumOver total (containmentAggregation a)
       = length (spansOf (rawDataStore overMidnight) [0; 1]%nat)
    /\ sumOver (fun count => count) (dailyAggregation a)
       = length (spansOf (rawDataStore overMidnight) [0; 1]%nat)
    /\ sumOver contained (containmentAggregation a) = totalContainedInFiltered a
    /\ (totalContainedInFiltered a <= counted)%nat
    /\ (length (spansOf (rawDataStore overMidnight) [0; 1]%nat) <= length [0; 1]%nat)%nat
    /\ (List.Forall (fun index => hasSpan (rawDataStore overMidnight) index = true)
          [0; 1]%nat ->
        totalContainedInFiltered a = counted).
Proof.
  apply (analysis_counters_consistent dayNumber (rawDataStore overMidnight) [0; 1]%nat).
  repeat constructor.
Defined.

End AnalysisProps.

(** ** The pagination bar against the page request *)

Module DashboardProps.

Import Worker Dashboard.

(** The page count is the least number of pages that hold all the rows. *)
Lemma pageCount_spec filteredCount rowsPerPage :
  0 < rowsPerPage ->
  (pageCount filteredCount rowsPerPage - 1) * rowsPerPage < filteredCount
  /\ filteredCount <= pageCount filteredCount rowsPerPage * rowsPerPage.
Proof.
  intros Hr. unfold pageCount.
  pose proof (Qle_ceiling (inject_Z filteredCount / inject_Z rowsPerPage)) as Hle.
  pose proof (Qceiling_lt (inject_Z filteredCount / inject_Z rowsPerPage)) as Hlt.
  set (k := Qceiling (inject_Z filteredCount / inject_Z rowsPerPage)) in *.
  assert (Hpos : (0 < inject_Z rowsPerPage)%Q).
  { change 0%Q with (inject_Z 0). now rewrite <- Zlt_Qlt. }
  assert (Hback : (inject_Z filteredCount / inject_Z rowsPerPage * inject_Z rowsPerPage
                   == inject_Z filteredCount)%Q).
  { field. intros Hzero. rewrite Hzero in Hpos. discriminate. }
  split.
  - apply (Qmult_lt_r _ _ _ Hpos) in Hlt.
    rewrite Hback, <- inject_Z_mult, <- Zlt_Qlt in Hlt. exact Hlt.
  - apply (Qmult_le_r _ _ _ Hpos) in Hle.
    rewrite Hback, <- inject_Z_mult, <- Zle_Qle in Hle. exact Hle.
Qed.

(** On every page that the bar lets the user reach, the rows on display
    are those announced by [Showing ... to ...], and there is at least one
    as soon as a row matches; the button Next leads to such a page
    again. *)
Theorem shown_range_matches_page sortedIndexes currentPage rowsPerPage :
  0 < rowsPerPage ->
  1 <= currentPage <= shownPageCount (Z.of_nat (length sortedIndexes)) rowsPerPage ->
  Z.of_nat (length (pageIndexes sortedIndexes currentPage rowsPerPage))
  = showingTo currentPage rowsPerPage (Z.of_nat (length sortedIndexes))
    - showingFrom currentPage rowsPerPage + 1
  /\ (sortedIndexes <> [] -> pageIndexes sortedIndexes currentPage rowsPerPage <> [])
  /\ (nextDisabled currentPage (Z.of_nat (length sortedIndexes)) rowsPerPage = false ->
      currentPage + 1 <= shownPageCount (Z.of_nat (length sortedIndexes)) rowsPerPage).
Proof.
  intros Hr [Hlow Hhigh].
  destruct (pageCount_spec (Z.of_nat (length sortedIndexes)) rowsPerPage Hr) as [Hlast Hall].
  unfold shownPageCount, nextDisabled, showingTo, showingFrom in *.
  set (n := length sortedIndexes) in *.
  set (count := pageCount (Z.of_nat n) rowsPerPage) in *.
  assert (Hstart : (currentPage - 1) * rowsPerPage <= Z.of_nat n
                   /\ (n <> O -> (currentPage - 1) * rowsPerPage < Z.of_nat n)).
  { destruct (Z.max_spec 1 count) as [[Hc Hmax]|[Hc Hmax]]; rewrite Hmax in Hhigh.
    - assert ((currentPage - 1) * rowsPerPage <= (count - 1) * rowsPerPage) by nia. lia.
    - assert (currentPage = 1) by lia. subst currentPage. lia. }
  replace currentPage with (Z.of_nat (Z.to_nat (currentPage - 1)) + 1) by lia.
  rewrite PageProps.page_window by exact Hr.
  rewrite length_take, length_drop. fold n.
  replace (Z.of_nat (Z.to_nat (currentPage - 1)) + 1) with currentPage by lia.
  assert (Hoffset : Z.of_nat (Z.to_nat (currentPage - 1) * Z.to_nat rowsPerPage)
                    = (currentPage - 1) * rowsPerPage) by nia.
  destruct Hstart as [Hle Hlt].
  split; [|split].
  - nia.
  - intros Hrows Hpage. apply (f_equal (@length nat)) in Hpage.
    rewrite length_take, length_drop in Hpage. fold n in Hpage. cbn [length] in Hpage.
    assert (n <> O) by (unfold n; destruct sortedIndexes; [congruence | discriminate]).
    specialize (Hlt H). nia.
  - intros Hnext. apply Z.leb_gt in Hnext. lia.
Qed.

Lemma shown_range_matches_page_witness :
  Z.of_nat (length (pageIndexes (seq 0 250) 3 100))
  = showingTo 3 100 (Z.of_nat (length (seq 0 250))) - showingFrom 3 100 + 1
  /\ (seq 0 250 <> [] -> pageIndexes (seq 0 250) 3 100 <> [])
  /\ (nextDisabled 3 (Z.of_nat (length (seq 0 250))) 100 = false ->
      3 + 1 <= shownPageCount (Z.of_nat (length (seq 0 250))) 100).
Proof.
  apply (shown_range_matches_page (seq 0 250) 3 100).
  - reflexivity.
  - vm_compute. split; discriminate.
Defined.

End DashboardProps.
